(** * CBC ciphertext stealing (package cbccts): a model of the Go code and its properties

    The development embeds [cbccts.go] in three layers.

    - Bytes and the block primitive: [Byte.byte], bitwise exclusive or, and a
      block cipher given by two functions on blocks ([cipher.Block]).
    - Go's memory: backing arrays in a heap, slices as windows on them
      (array, offset, length, capacity), [copy], slicing expressions with
      their bounds checks, [make], and panics that leave the memory as it was
      when they were raised.
    - The package: the chained codec ([cipher.NewCBCEncrypter] and
      [cipher.NewCBCDecrypter] of Go's crypto/cipher), the two constructors,
      [CryptBlocks], [encode] and [decode], statement by statement.

    Go's [int] is modelled by [Z]: every integer the package computes is a
    difference or a sum of a buffer length and at most two block sizes, far
    inside the 64-bit range. *)

From Stdlib Require Import ZArith Lia Bool.
From Stdlib Require Import Init.Byte.
From stdpp Require Import base list.

Local Open Scope Z_scope.

(** ** Bytes *)

Module Bytes.

Definition zero : byte := x00.

(** Exclusive or of two bytes, bit by bit. *)
Definition xor (x y : byte) : byte :=
  let '(a0, (a1, (a2, (a3, (a4, (a5, (a6, a7))))))) := to_bits x in
  let '(b0, (b1, (b2, (b3, (b4, (b5, (b6, b7))))))) := to_bits y in
  of_bits (xorb a0 b0, (xorb a1 b1, (xorb a2 b2, (xorb a3 b3,
          (xorb a4 b4, (xorb a5 b5, (xorb a6 b6, xorb a7 b7))))))).

(** [xorBytes] of crypto/cipher: as many bytes as the shorter operand has. *)
Definition xorBytes (a b : list byte) : list byte := zip_with xor a b.

Definition zeros (n : nat) : list byte := replicate n zero.

End Bytes.

(** ** Go memory: heap, slices and panics *)

(** The panics the package and its collaborators can raise. *)
Inductive panic_msg : Type :=
| ErrInvalidMode      (* panic(fmt.Errorf("invalid mode")) *)
| ErrDataSize         (* "data size too small; must be larger than one block" *)
| ErrBounds           (* runtime error: slice bounds or index out of range *)
| ErrMakeLen          (* runtime error: makeslice: len out of range *)
| ErrNotFullBlocks    (* crypto/cipher: input not full blocks *)
| ErrOutputSmaller    (* crypto/cipher: output smaller than input *)
| ErrOverlap          (* crypto/cipher: invalid buffer overlap *)
| ErrIVLength         (* cipher.NewCBC...: IV length must equal block size *)
| ErrBlockInput       (* block primitive: input not full block *)
| ErrBlockOutput.     (* block primitive: output not full block *)

(** A slice is a window on a backing array of the heap. *)
Record slice : Type := Slice { arr : nat; off : nat; len : nat; cap : nat }.

(** The state: the backing arrays, and the chaining value (the [iv] field)
    of the codec owned by the transform. *)
Record state : Type := State { mem : list (list byte); civ : list byte }.

Inductive outcome (A : Type) : Type :=
| Ok (a : A) (st : state)
| Panic (e : panic_msg) (st : state).
Arguments Ok {A} a st.
Arguments Panic {A} e st.

Definition M (A : Type) : Type := state -> outcome A.

Definition ret {A} (a : A) : M A := fun st => Ok a st.
Definition bind {A B} (m : M A) (k : A -> M B) : M B :=
  fun st => match m st with
            | Ok a st' => k a st'
            | Panic e st' => Panic e st'
            end.
Definition panic {A} (e : panic_msg) : M A := fun st => Panic e st.

Declare Scope go_scope.
Delimit Scope go_scope with go.
Notation "x <- m ;; k" := (bind m (fun x => k))
  (at level 100, m at next level, k at level 200, right associativity) : go_scope.
Notation "m ;; k" := (bind m (fun _ => k))
  (at level 100, k at level 200, right associativity) : go_scope.
Local Open Scope go_scope.

(** The bytes a slice shows. *)
Definition load (st : state) (s : slice) : list byte :=
  take (len s) (drop (off s) (default [] (mem st !! arr s))).

(** Writing [bs] at the start of the window of [s]. *)
Definition store (st : state) (s : slice) (bs : list byte) : state :=
  State (alter (fun a => take (off s) a ++ bs ++ drop (off s + length bs) a)
               (arr s) (mem st))
        (civ st).

(** [len(s)] *)
Definition len_ (s : slice) : Z := Z.of_nat (len s).

(** [s[lo:hi]]: panics unless [0 <= lo <= hi <= cap(s)]. *)
Definition slice3 (s : slice) (lo hi : Z) : M slice :=
  if (0 <=? lo) && (lo <=? hi) && (hi <=? Z.of_nat (cap s))
  then ret (Slice (arr s) (off s + Z.to_nat lo) (Z.to_nat hi - Z.to_nat lo)
                  (cap s - Z.to_nat lo))
  else panic ErrBounds.

(** [s[lo:]] is [s[lo:len(s)]] and [s[:hi]] is [s[0:hi]]. *)
Definition slice_from (s : slice) (lo : Z) : M slice := slice3 s lo (len_ s).
Definition slice_to (s : slice) (hi : Z) : M slice := slice3 s 0 hi.

(** [make([]byte, n)]: a fresh zeroed array. *)
Definition make (n : Z) : M slice :=
  fun st =>
    if n <? 0 then Panic ErrMakeLen st
    else Ok (Slice (length (mem st)) 0 (Z.to_nat n) (Z.to_nat n))
            (State (mem st ++ [Bytes.zeros (Z.to_nat n)]) (civ st)).

(** [copy(dst, src)]: the shorter length decides; the source bytes are read
    before any is written (memmove), so overlapping windows are fine.  The
    count that Go returns is not used anywhere in the package. *)
Definition copy (dst src : slice) : M unit :=
  fun st => Ok tt (store st dst (take (Nat.min (len dst) (len src)) (load st src))).

(** [s[i]] and [s[i] = v], with their index checks. *)
Definition index (s : slice) (i : Z) : M byte :=
  fun st =>
    if (0 <=? i) && (i <? len_ s)
    then Ok (nth (Z.to_nat i) (load st s) Bytes.zero) st
    else Panic ErrBounds st.

Definition set_index (s : slice) (i : Z) (v : byte) : M unit :=
  fun st =>
    if (0 <=? i) && (i <? len_ s)
    then Ok tt (store st (Slice (arr s) (off s + Z.to_nat i) 1 1) [v])
    else Panic ErrBounds st.

(** [for i := lo; i < hi; i++ { body }]: the loop runs [hi - lo] times when
    that is positive, and not at all otherwise. *)
Fixpoint for_up (k : nat) (i : Z) (body : Z -> M unit) : M unit :=
  match k with
  | O => ret tt
  | S k' => body i ;; for_up k' (i + 1) body
  end.
Definition for_range (lo hi : Z) (body : Z -> M unit) : M unit :=
  for_up (Z.to_nat (hi - lo)) lo body.

(** [subtle.InexactOverlap]: the windows share memory without starting at
    the same byte. *)
Definition inexact_overlap (x y : slice) : bool :=
  if (len x =? 0)%nat || (len y =? 0)%nat
     || ((arr x =? arr y)%nat && (off x =? off y)%nat)
  then false
  else (arr x =? arr y)%nat
       && (off x <=? off y + len y - 1)%nat
       && (off y <=? off x + len x - 1)%nat.

(** ** The package *)

(** [type Format int] and its three constants. *)
Definition Format : Type := Z.
Definition CS1 : Format := 1.
Definition CS2 : Format := 2.
Definition CS3 : Format := 3.

(** Which chained codec [cipher.NewCBCEncrypter] / [cipher.NewCBCDecrypter]
    built. *)
Inductive codec_kind : Type := CBCEncrypter | CBCDecrypter.

(** [type cbccts struct]: the [block] field is the primitive of the section
    below; the codec's chaining value lives in the state. *)
Record cbccts : Type := Cbccts { encoder : bool; codec : codec_kind; mode : Format }.

Section Package.

(** The block primitive ([cipher.Block]): its block size and its two
    single-block functions. *)
Variable bsz : nat.
Variable encb decb : list byte -> list byte.

(** [cd.codec.BlockSize()].  A block cipher has blocks of at least one
    byte; the properties below assume it, and then Go's [%] on a length and
    the block size is [Z.rem]. *)
Definition BlockSize : Z := Z.of_nat bsz.

(** *** The chained codec (crypto/cipher, CBC) *)

(** [k] blocks of [src] encrypted in CBC from the chaining value [iv]: the
    ciphertext and the chaining value afterwards (the last ciphertext
    block). *)
Fixpoint cbc_encrypt (k : nat) (iv src : list byte) : list byte * list byte :=
  match k with
  | O => ([], iv)
  | S k' =>
      let c := encb (Bytes.xorBytes (take bsz src) iv) in
      let '(out, iv') := cbc_encrypt k' c (drop bsz src) in
      (c ++ out, iv')
  end.

Fixpoint cbc_decrypt (k : nat) (iv src : list byte) : list byte * list byte :=
  match k with
  | O => ([], iv)
  | S k' =>
      let c := take bsz src in
      let p := Bytes.xorBytes (decb c) iv in
      let '(out, iv') := cbc_decrypt k' c (drop bsz src) in
      (p ++ out, iv')
  end.

Definition cbc (kind : codec_kind) (iv src : list byte) : list byte * list byte :=
  match kind with
  | CBCEncrypter => cbc_encrypt (length src / bsz)%nat iv src
  | CBCDecrypter => cbc_decrypt (length src / bsz)%nat iv src
  end.

(** [cd.codec.CryptBlocks(dst, src)]: the three checks of crypto/cipher,
    then the blocks of [src] are chained into [dst[:len(src)]] and the
    chaining value advances.  The windows may be the same one. *)
Definition codec_CryptBlocks (kind : codec_kind) (dst src : slice) : M unit :=
  fun st =>
    if negb (Z.rem (len_ src) BlockSize =? 0) then Panic ErrNotFullBlocks st
    else if len_ dst <? len_ src then Panic ErrOutputSmaller st
    else if inexact_overlap (Slice (arr dst) (off dst) (len src) (cap dst)) src
         then Panic ErrOverlap st
    else
      let '(out, iv') := cbc kind (civ st) (load st src) in
      Ok tt (State (mem (store st dst out)) iv').

(** [cd.block.Decrypt(dst, src)]: the first block of [src], decrypted on its
    own, goes to the first block of [dst]. *)
Definition block_Decrypt (dst src : slice) : M unit :=
  fun st =>
    if len_ src <? BlockSize then Panic ErrBlockInput st
    else if len_ dst <? BlockSize then Panic ErrBlockOutput st
    else if inexact_overlap (Slice (arr dst) (off dst) bsz (cap dst))
                            (Slice (arr src) (off src) bsz (cap src))
         then Panic ErrOverlap st
    else Ok tt (store st dst (decb (take bsz (load st src)))).

(** *** Constructors *)

(** [NewCBCCTSEncrypter(b, iv, mode)]; [cipher.NewCBCEncrypter] copies the
    IV and refuses one that is not a block long. *)
Definition NewCBCCTSEncrypter (iv : list byte) (mode : Format) : M cbccts :=
  fun st =>
    if (mode <? CS1) || (mode >? CS3) then Panic ErrInvalidMode st
    else if negb (length iv =? bsz)%nat then Panic ErrIVLength st
    else Ok (Cbccts true CBCEncrypter mode) (State (mem st) iv).

Definition NewCBCCTSDecrypter (iv : list byte) (mode : Format) : M cbccts :=
  fun st =>
    if (mode <? CS1) || (mode >? CS3) then Panic ErrInvalidMode st
    else if negb (length iv =? bsz)%nat then Panic ErrIVLength st
    else Ok (Cbccts false CBCDecrypter mode) (State (mem st) iv).

(** *** encode (cbccts.go, lines 79-134) *)

Definition encode (cd : cbccts) (dst src : slice) : M unit :=
  let blocksz := BlockSize in
  let textlen := len_ src in
  let leftover := Z.rem textlen blocksz in
  if leftover =? 0 then
    (* text aligned at block size *)
    codec_CryptBlocks (codec cd) dst src ;;
    if (mode cd =? CS1) || (mode cd =? CS2) then
      ret tt
    else if mode cd =? CS3 then
      (* swap the last two blocks *)
      let py := textlen - 2 * blocksz in
      let pz := textlen - blocksz in
      tmp <- make blocksz ;;
      s <- slice3 dst py pz ;; copy tmp s ;;
      d <- slice3 dst py pz ;; s <- slice_from dst pz ;; copy d s ;;
      d <- slice_from dst pz ;; copy d tmp
    else panic ErrInvalidMode
  else
    let padding := blocksz - leftover in
    let buflen := textlen + padding in
    let py := buflen - 2 * blocksz in
    let pz := buflen - blocksz in
    if py <? 0 then panic ErrDataSize
    else
      (* encrypt aligned blocks *)
      d <- slice_to dst py ;; s <- slice_to src py ;;
      codec_CryptBlocks (codec cd) d s ;;
      (* process last two blocks *)
      tmp <- make (2 * blocksz) ;;
      d <- slice_to tmp (blocksz + leftover) ;; s <- slice_from src py ;;
      copy d s ;;
      codec_CryptBlocks (codec cd) tmp tmp ;;
      if mode cd =? CS1 then
        d <- slice3 dst py (py + leftover) ;; s <- slice_to tmp leftover ;;
        copy d s ;;
        d <- slice_from dst (py + leftover) ;; s <- slice_from tmp blocksz ;;
        copy d s
      else if (mode cd =? CS2) || (mode cd =? CS3) then
        d <- slice3 dst py pz ;; s <- slice_from tmp blocksz ;;
        copy d s ;;
        d <- slice_from dst pz ;; s <- slice_to tmp leftover ;;
        copy d s
      else ret tt.

(** *** decode (cbccts.go, lines 137-204) *)

(** The unaligned path up to and including the overlay loop (lines 165-199);
    it returns the scratch buffer [tmp]. *)
Definition decode_scratch (cd : cbccts) (dst src : slice) : M slice :=
  let blocksz := BlockSize in
  let textlen := len_ src in
  let leftover := Z.rem textlen blocksz in
  let padding := blocksz - leftover in
  let buflen := textlen + padding in
  let py := buflen - 2 * blocksz in
  let pz := buflen - blocksz in
  if py <? 0 then panic ErrDataSize
  else
    d <- slice_to dst py ;; s <- slice_to src py ;;
    codec_CryptBlocks (codec cd) d s ;;
    tmp <- make (2 * blocksz) ;;
    (if mode cd =? CS1 then
       (* the partial block precedes the full block *)
       d <- slice_to tmp leftover ;; s <- slice3 src py (py + leftover) ;;
       copy d s ;;
       d <- slice_from tmp blocksz ;; s <- slice_from src (py + leftover) ;;
       copy d s
     else if (mode cd =? CS2) || (mode cd =? CS3) then
       (* the full block precedes the partial block *)
       d <- slice_to tmp leftover ;; s <- slice_from src pz ;;
       copy d s ;;
       d <- slice_from tmp blocksz ;; s <- slice3 src py pz ;;
       copy d s
     else panic ErrInvalidMode) ;;
    (* decrypt the last full block on its own *)
    D <- make blocksz ;;
    s <- slice_from tmp blocksz ;;
    block_Decrypt D s ;;
    (* overlay the decrypted portion with the partial block *)
    for_range leftover blocksz
      (fun i => v <- index D i ;; set_index tmp i v) ;;
    ret tmp.

Definition decode (cd : cbccts) (dst src : slice) : M unit :=
  let blocksz := BlockSize in
  let textlen := len_ src in
  let leftover := Z.rem textlen blocksz in
  if leftover =? 0 then
    (* src aligned at block boundary *)
    if (mode cd =? CS1) || (mode cd =? CS2) then
      codec_CryptBlocks (codec cd) dst src
    else if mode cd =? CS3 then
      (* swap the last two blocks *)
      let py := textlen - 2 * blocksz in
      let pz := textlen - blocksz in
      d <- slice_to dst py ;; s <- slice_to src py ;; copy d s ;;
      d <- slice3 dst py pz ;; s <- slice_from src pz ;; copy d s ;;
      d <- slice_from dst pz ;; s <- slice3 src py pz ;; copy d s ;;
      codec_CryptBlocks (codec cd) dst dst
    else panic ErrInvalidMode
  else
    let padding := blocksz - leftover in
    let buflen := textlen + padding in
    let py := buflen - 2 * blocksz in
    tmp <- decode_scratch cd dst src ;;
    (* run the decrypter *)
    codec_CryptBlocks (codec cd) tmp tmp ;;
    d <- slice_from dst py ;; copy d tmp.

(** [CryptBlocks] (lines 70-76). *)
Definition CryptBlocks (cd : cbccts) (dst src : slice) : M unit :=
  if encoder cd then encode cd dst src else decode cd dst src.

(** *** Callers, as in the package's example and test *)

Definition read (s : slice) : M (list byte) := fun st => Ok (load st s) st.

(** The whole of the only array of a one-array heap. *)
Definition whole (data : list byte) : slice :=
  Slice 0 0 (length data) (length data).

(** [out := make([]byte, len(data)); cd.CryptBlocks(out, data)] on an
    instance whose chaining value is [chain]; the result carries the bytes
    of [out]. *)
Definition process (cd : cbccts) (chain data : list byte) : outcome (list byte) :=
  (out <- make (Z.of_nat (length data)) ;;
   CryptBlocks cd out (whole data) ;;
   read out) (State [data] chain).

(** [cd.CryptBlocks(data, data)]: destination and source are the same
    buffer. *)
Definition process_inplace (cd : cbccts) (chain data : list byte) : outcome (list byte) :=
  (CryptBlocks cd (whole data) (whole data) ;;
   read (whole data)) (State [data] chain).

(** A fresh encrypter, respectively decrypter, run once. *)
Definition encrypt_fresh (iv : list byte) (mode : Format) (data : list byte)
  : outcome (list byte) :=
  (cd <- NewCBCCTSEncrypter iv mode ;;
   out <- make (Z.of_nat (length data)) ;;
   CryptBlocks cd out (whole data) ;;
   read out) (State [data] []).

Definition decrypt_fresh (iv : list byte) (mode : Format) (data : list byte)
  : outcome (list byte) :=
  (cd <- NewCBCCTSDecrypter iv mode ;;
   out <- make (Z.of_nat (length data)) ;;
   CryptBlocks cd out (whole data) ;;
   read out) (State [data] []).

(** Plain chained encryption: [cipher.NewCBCEncrypter(b, iv)] and one
    [CryptBlocks] into a fresh buffer. *)
Definition plain_cbc_encrypt (iv data : list byte) : outcome (list byte) :=
  (out <- make (Z.of_nat (length data)) ;;
   codec_CryptBlocks CBCEncrypter out (whole data) ;;
   read out) (State [data] iv).

End Package.

(** ** Vocabulary of the properties *)

(** The instances the two constructors return. *)
Definition encrypter (m : Format) : cbccts := Cbccts true CBCEncrypter m.
Definition decrypter (m : Format) : cbccts := Cbccts false CBCDecrypter m.

(** The three format policies. *)
Definition is_mode (m : Format) : Prop := m = CS1 \/ m = CS2 \/ m = CS3.

(** What a run returned, or the panic it stopped on. *)
Definition value {A} (o : outcome A) : option A :=
  match o with Ok a _ => Some a | Panic _ _ => None end.
Definition failure {A} (o : outcome A) : option panic_msg :=
  match o with Ok _ _ => None | Panic e _ => Some e end.

(** Input lengths: unaligned with more than a block, or a positive number of
    whole blocks. *)
Definition unaligned_length (b n : nat) : Prop :=
  (n mod b <> 0 /\ b + 1 <= n)%nat.
Definition aligned_length (b n : nat) : Prop :=
  (0 < n /\ n mod b = 0)%nat.
Definition stated_length (b n : nat) : Prop :=
  unaligned_length b n \/ aligned_length b n.

(** The lengths the code accepts under a policy: as above, and two blocks
    at least when CS3 meets aligned input. *)
Definition accepted_length (b : nat) (m : Format) (n : nat) : Prop :=
  unaligned_length b n \/
  (aligned_length b n /\ (m = CS3 -> 2 * b <= n)%nat).

(** The order of the last two blocks on the wire (lines 124-133 and
    178-190): the partial block [H] before the full block [F] under CS1,
    after it under CS2 and CS3. *)
Definition tail_layout (m : Format) (H F : list byte) : list byte :=
  if m =? CS1 then H ++ F else F ++ H.

(** A buffer with its last two blocks of [b] bytes exchanged. *)
Definition swap_last_two (b : nat) (c : list byte) : list byte :=
  take (length c - 2 * b) c
  ++ drop (length c - b) c
  ++ take b (drop (length c - 2 * b) c).

(** Encoding with a fresh encrypter and decoding the result with a fresh
    decrypter gives the input back. *)
Definition round_trip (bsz : nat) (encb decb : list byte -> list byte)
    (iv : list byte) (m : Format) (data : list byte) : Prop :=
  exists c,
    value (encrypt_fresh bsz encb decb iv m data) = Some c /\
    value (decrypt_fresh bsz encb decb iv m c) = Some data.

(** One instance run on [p] and then on [s] produces what a fresh run on
    [p ++ s] produces, and ends with the same chaining value. *)
Definition continues (bsz : nat) (encb decb : list byte -> list byte)
    (cd : cbccts) (iv p s : list byte) : Prop :=
  exists o1 st1 o2 st2 st,
    process bsz encb decb cd iv p = Ok o1 st1 /\
    process bsz encb decb cd (civ st1) s = Ok o2 st2 /\
    process bsz encb decb cd iv (p ++ s) = Ok (o1 ++ o2) st /\
    civ st = civ st2.

(** The scratch buffer of an unaligned decode just before the final chained
    decryption, for a caller as in [process]. *)
Definition scratch_before_final (bsz : nat) (encb decb : list byte -> list byte)
    (cd : cbccts) (chain data : list byte) : outcome (list byte) :=
  (out <- make (Z.of_nat (length data)) ;;
   tmp <- decode_scratch bsz encb decb cd out (whole data) ;;
   read tmp) (State [data] chain).

(** A computation that never raises the data-size panic. *)
Definition never_datasize {A} (m : M A) : Prop :=
  forall st st', m st <> Panic ErrDataSize st'.

(** ** Vocabulary of the further properties *)

(** Plain chained decryption: [cipher.NewCBCDecrypter(b, iv)] and one
    [CryptBlocks] into a fresh buffer (the decoder of the test when the
    format is 0). *)
Definition plain_cbc_decrypt (bsz : nat) (encb decb : list byte -> list byte)
    (iv data : list byte) : outcome (list byte) :=
  (out <- make (Z.of_nat (length data)) ;;
   codec_CryptBlocks bsz encb decb CBCDecrypter out (whole data) ;;
   read out) (State [data] iv).

(** A fresh encrypter under policy [m], then a fresh decrypter under policy
    [m'] on what it produced, as the table of the test pairs them. *)
Definition cross_round_trip (bsz : nat) (encb decb : list byte -> list byte)
    (iv : list byte) (m m' : Format) (data : list byte) : Prop :=
  exists c,
    value (encrypt_fresh bsz encb decb iv m data) = Some c /\
    value (decrypt_fresh bsz encb decb iv m' c) = Some data.

(** One instance run on a sequence of messages, each into a fresh buffer;
    the chaining value is carried from one call to the next.  [None] when a
    call panics. *)
Fixpoint session (bsz : nat) (encb decb : list byte -> list byte)
    (cd : cbccts) (chain : list byte) (msgs : list (list byte))
  : option (list (list byte) * list byte) :=
  match msgs with
  | [] => Some ([], chain)
  | d :: rest =>
      match process bsz encb decb cd chain d with
      | Ok out st =>
          match session bsz encb decb cd (civ st) rest with
          | Some (outs, chain') => Some (out :: outs, chain')
          | None => None
          end
      | Panic _ _ => None
      end
  end.

(** A computation that never raises the panic [e]. *)
Definition never_raises {A} (e : panic_msg) (m : M A) : Prop :=
  forall st st', m st <> Panic e st'.

(** Memory footprint.  [keeps L d mem0 st]: the first [L] arrays of the heap
    [mem0], the array [d] apart, are in [st] as they were.  A slice
    [targets L d] when it is a window on [d] or on an array allocated
    after the first [L].  A computation is [framed] when, from a state that
    keeps the arrays, it ends (returning or panicking) in one that keeps
    them, and what it returns satisfies [Q]. *)
Definition keeps (L d : nat) (mem0 : list (list byte)) (st : state) : Prop :=
  (L <= length (mem st))%nat /\
  forall a, (a < L)%nat -> a <> d -> mem st !! a = mem0 !! a.

Definition targets (L d : nat) (s : slice) : Prop :=
  arr s = d \/ (L <= arr s)%nat.

Definition framed {A} (L d : nat) (mem0 : list (list byte))
    (Q : A -> Prop) (m : M A) : Prop :=
  forall st, keeps L d mem0 st ->
    match m st with
    | Ok a st' => keeps L d mem0 st' /\ Q a
    | Panic _ st' => keeps L d mem0 st'
    end.

(** The caller of [process], with a destination [extra] bytes longer than
    the source; the result carries the whole destination. *)
Definition process_into (bsz : nat) (encb decb : list byte -> list byte)
    (cd : cbccts) (chain data : list byte) (extra : nat) : outcome (list byte) :=
  (out <- make (Z.of_nat (length data + extra)) ;;
   CryptBlocks bsz encb decb cd out (whole data) ;;
   read out) (State [data] chain).

(** The state a run ended in, returning or panicking. *)
Definition end_state {A} (o : outcome A) : state :=
  match o with Ok _ st => st | Panic _ st => st end.

(** The panic to expect from the length [n] of the input under policy [m],
    as the two paths of [encode] and [decode] decide it: none, the
    data-size panic, or a slice out of range. *)
Definition expected_failure (b : nat) (m : Format) (n : nat) : option panic_msg :=
  if (n mod b =? 0)%nat then
    if (m =? CS3) && (n <? 2 * b)%nat then Some ErrBounds else None
  else
    if (n <? b)%nat then Some ErrDataSize else None.

(** The caller that holds its destination already: a separate buffer [d0],
    of any length and with any contents.  The result carries the whole
    destination. *)
Definition process_onto (bsz : nat) (encb decb : list byte -> list byte)
    (cd : cbccts) (chain data d0 : list byte) : outcome (list byte) :=
  (let dst := Slice 1 0 (length d0) (length d0) in
   CryptBlocks bsz encb decb cd dst (whole data) ;;
   read dst) (State [data; d0] chain).

(** The panic to expect of the decoder when the destination has [L] bytes,
    at least as many as the source: as [expected_failure], and one case
    more, the CS3 decoder on aligned input, which hands the whole
    destination to the codec (line 157). *)
Definition expected_failure_decode (b : nat) (m : Format) (n L : nat)
  : option panic_msg :=
  match expected_failure b m n with
  | Some e => Some e
  | None =>
      if (m =? CS3) && (n mod b =? 0)%nat && negb (L mod b =? 0)%nat
      then Some ErrNotFullBlocks else None
  end.

(** ** A small block cipher to run the code on *)

Module Toy.

(** Two-byte blocks: every byte is masked, and the block is reversed. *)
Definition bsz : nat := 2.
Definition encb (x : list byte) : list byte := reverse (map (Bytes.xor x5a) x).
Definition decb (x : list byte) : list byte := map (Bytes.xor x5a) (reverse x).

Definition iv : list byte := [x10; x20].
Definition one_block : list byte := [x01; x02].
Definition two_blocks : list byte := [x01; x02; x03; x04].
Definition next_blocks : list byte := [x05; x06; x07; x08].
Definition five_bytes : list byte := [x01; x02; x03; x04; x05].

Definition process := process bsz encb decb.
Definition process_inplace := process_inplace bsz encb decb.

End Toy.

(** * Properties *)

(** ** Bytes *)

Module BytesFacts.
Import Bytes.

Lemma xor_cancel_r (x y : byte) : xor (xor x y) y = x.
Proof.
  unfold xor.
  destruct (to_bits x) as (a0 & a1 & a2 & a3 & a4 & a5 & a6 & a7) eqn:Hx.
  destruct (to_bits y) as (b0 & b1 & b2 & b3 & b4 & b5 & b6 & b7) eqn:Hy.
  rewrite to_bits_of_bits.
  rewrite <- (of_bits_to_bits x), Hx.
  repeat rewrite xorb_assoc, xorb_nilpotent, xorb_false_r.
  reflexivity.
Qed.

Lemma xor_cancel_l (x y : byte) : xor y (xor y x) = x.
Proof.
  unfold xor.
  destruct (to_bits x) as (a0 & a1 & a2 & a3 & a4 & a5 & a6 & a7) eqn:Hx.
  destruct (to_bits y) as (b0 & b1 & b2 & b3 & b4 & b5 & b6 & b7) eqn:Hy.
  rewrite to_bits_of_bits.
  rewrite <- (of_bits_to_bits x), Hx.
  repeat rewrite <- xorb_assoc, xorb_nilpotent, xorb_false_l.
  reflexivity.
Qed.

Lemma xor_zero_l (x : byte) : xor zero x = x.
Proof.
  unfold xor, zero.
  destruct (to_bits x) as (a0 & a1 & a2 & a3 & a4 & a5 & a6 & a7) eqn:Hx.
  cbn [to_bits]. rewrite !xorb_false_l.
  rewrite <- Hx. apply of_bits_to_bits.
Qed.

Lemma length_zeros n : length (zeros n) = n.
Proof. apply length_replicate. Qed.

Lemma length_xorBytes a b : length (xorBytes a b) = Nat.min (length a) (length b).
Proof. unfold xorBytes. apply length_zip_with. Qed.

Lemma xorBytes_cancel_r a b :
  (length a <= length b)%nat -> xorBytes (xorBytes a b) b = a.
Proof.
  unfold xorBytes. revert b.
  induction a as [|x a IH]; intros [|y b] Hl; simpl in *; try reflexivity; try lia.
  rewrite xor_cancel_r, IH by lia. reflexivity.
Qed.

Lemma xorBytes_replicate_zero n b :
  (n <= length b)%nat -> xorBytes (replicate n zero) b = take n b.
Proof.
  unfold xorBytes. revert b.
  induction n as [|n IH]; intros [|y b] Hl; simpl in *; try reflexivity; try lia.
  rewrite IH by lia. rewrite xor_zero_l. reflexivity.
Qed.

Lemma drop_xorBytes n a b : drop n (xorBytes a b) = xorBytes (drop n a) (drop n b).
Proof. unfold xorBytes. apply zip_with_drop. Qed.

End BytesFacts.
Import BytesFacts.

(** ** Lengths *)

Lemma rem_of_nat (q r b : nat) :
  (r < b)%nat -> Z.rem (Z.of_nat (q * b + r)) (Z.of_nat b) = Z.of_nat r.
Proof.
  intros Hr. rewrite Z.rem_mod_nonneg by lia.
  rewrite <- Nat2Z.inj_mod. f_equal.
  rewrite Nat.add_comm, Nat.Div0.mod_add. apply Nat.mod_small. exact Hr.
Qed.

Lemma rem_of_blocks (q b : nat) :
  (0 < b)%nat -> Z.rem (Z.of_nat (q * b)) (Z.of_nat b) = 0.
Proof.
  intros Hb. replace (q * b)%nat with (q * b + 0)%nat by lia.
  rewrite rem_of_nat by exact Hb. reflexivity.
Qed.

Lemma rem_eqb_nat (n b : nat) :
  (Z.rem (Z.of_nat n) (Z.of_nat b) =? 0) = (n mod b =? 0)%nat.
Proof.
  destruct b as [|b].
  - destruct n; reflexivity.
  - rewrite Z.rem_mod_nonneg, <- Nat2Z.inj_mod by lia.
    destruct (Nat.eqb_spec (n mod S b) 0) as [-> | Hne]; [reflexivity|].
    apply Z.eqb_neq. lia.
Qed.

Lemma div_of_blocks (q b : nat) : (0 < b)%nat -> (q * b / b = q)%nat.
Proof. intros. apply Nat.div_mul. lia. Qed.

Lemma unaligned_length_split (b n : nat) :
  (0 < b)%nat -> unaligned_length b n ->
  exists q r, n = (q * b + b + r)%nat /\ (0 < r < b)%nat.
Proof.
  intros Hb [Hm Hn].
  pose proof (Nat.div_mod_eq n b) as Hd.
  pose proof (Nat.mod_upper_bound n b ltac:(lia)) as Hu.
  destruct (n / b)%nat as [|q] eqn:Hq.
  - exfalso. lia.
  - exists q, (n mod b)%nat. split; lia.
Qed.

Lemma aligned_length_split (b n : nat) :
  (0 < b)%nat -> aligned_length b n -> exists q, n = (S q * b)%nat.
Proof.
  intros Hb [Hn Hm].
  pose proof (Nat.div_mod_eq n b) as Hd.
  destruct (n / b)%nat as [|q] eqn:Hq.
  - exfalso. lia.
  - exists q. lia.
Qed.

Lemma split_three (l : list byte) (a b c : nat) :
  length l = (a + b + c)%nat ->
  exists P Y T, l = P ++ Y ++ T /\ length P = a /\ length Y = b /\ length T = c.
Proof.
  intros Hl.
  exists (take a l), (take b (drop a l)), (drop (a + b) l).
  rewrite <- (drop_drop l b a), !take_drop.
  rewrite !length_take, !length_drop. repeat split; lia.
Qed.

(** ** One statement at a time *)

Section Steps.
Context {A : Type}.
Implicit Types (st : state).

Lemma ret_bind {B} (a : B) (k : B -> M A) st : bind (ret a) k st = k a st.
Proof. reflexivity. Qed.

Lemma bind_assoc {B C} (m : M B) (f : B -> M C) (g : C -> M A) st :
  bind (bind m f) g st = bind m (fun a => bind (f a) g) st.
Proof. unfold bind. destruct (m st); reflexivity. Qed.

Lemma bind_ret_r (m : M A) st : bind m ret st = m st.
Proof. unfold bind, ret. destruct (m st); reflexivity. Qed.

Lemma slice3_nat s (lo hi : nat) (k : slice -> M A) st :
  (lo <= hi)%nat -> (hi <= cap s)%nat ->
  bind (slice3 s (Z.of_nat lo) (Z.of_nat hi)) k st =
  k (Slice (arr s) (off s + lo) (hi - lo) (cap s - lo)) st.
Proof.
  intros H1 H2. unfold bind, slice3.
  replace ((0 <=? Z.of_nat lo) && (Z.of_nat lo <=? Z.of_nat hi)
           && (Z.of_nat hi <=? Z.of_nat (cap s))) with true
    by (symmetry; rewrite !andb_true_iff, !Z.leb_le; lia).
  unfold ret. rewrite !Nat2Z.id. reflexivity.
Qed.

Lemma slice_to_nat s (hi : nat) (k : slice -> M A) st :
  (hi <= cap s)%nat ->
  bind (slice_to s (Z.of_nat hi)) k st = k (Slice (arr s) (off s) hi (cap s)) st.
Proof.
  intros H. unfold slice_to. change 0 with (Z.of_nat 0).
  rewrite slice3_nat by lia. rewrite Nat.add_0_r, !Nat.sub_0_r. reflexivity.
Qed.

Lemma slice_from_nat s (lo : nat) (k : slice -> M A) st :
  (lo <= len s)%nat -> (len s <= cap s)%nat ->
  bind (slice_from s (Z.of_nat lo)) k st =
  k (Slice (arr s) (off s + lo) (len s - lo) (cap s - lo)) st.
Proof. intros H1 H2. unfold slice_from, len_. apply slice3_nat; lia. Qed.

Lemma slice3_negative s lo hi (k : slice -> M A) st :
  lo < 0 -> bind (slice3 s lo hi) k st = Panic ErrBounds st.
Proof.
  intros H. unfold bind, slice3.
  replace (0 <=? lo) with false by (symmetry; apply Z.leb_gt; lia).
  reflexivity.
Qed.

Lemma slice_to_negative s hi (k : slice -> M A) st :
  hi < 0 -> bind (slice_to s hi) k st = Panic ErrBounds st.
Proof.
  intros H. unfold bind, slice_to, slice3.
  replace (0 <=? hi) with false by (symmetry; apply Z.leb_gt; lia).
  reflexivity.
Qed.

Lemma make_nat (n : nat) (k : slice -> M A) st :
  bind (make (Z.of_nat n)) k st =
  k (Slice (length (mem st)) 0 n n)
    (State (mem st ++ [Bytes.zeros n]) (civ st)).
Proof.
  unfold bind, make.
  replace (Z.of_nat n <? 0) with false by (symmetry; apply Z.ltb_ge; lia).
  rewrite Nat2Z.id. reflexivity.
Qed.

Lemma copy_bind d s (k : unit -> M A) st :
  bind (copy d s) k st =
  k tt (store st d (take (Nat.min (len d) (len s)) (load st s))).
Proof. reflexivity. Qed.

Lemma read_bind s (k : list byte -> M A) st :
  bind (read s) k st = k (load st s) st.
Proof. reflexivity. Qed.

Lemma index_nat s (i : nat) (k : byte -> M A) st :
  (i < len s)%nat ->
  bind (index s (Z.of_nat i)) k st = k (nth i (load st s) Bytes.zero) st.
Proof.
  intros H. unfold bind, index, len_.
  replace ((0 <=? Z.of_nat i) && (Z.of_nat i <? Z.of_nat (len s))) with true
    by (symmetry; rewrite andb_true_iff, Z.leb_le, Z.ltb_lt; lia).
  rewrite Nat2Z.id. reflexivity.
Qed.

Lemma set_index_nat s (i : nat) v (k : unit -> M A) st :
  (i < len s)%nat ->
  bind (set_index s (Z.of_nat i) v) k st =
  k tt (store st (Slice (arr s) (off s + i) 1 1) [v]).
Proof.
  intros H. unfold bind, set_index, len_.
  replace ((0 <=? Z.of_nat i) && (Z.of_nat i <? Z.of_nat (len s))) with true
    by (symmetry; rewrite andb_true_iff, Z.leb_le, Z.ltb_lt; lia).
  rewrite Nat2Z.id. reflexivity.
Qed.

End Steps.

Lemma copy_run d s st :
  copy d s st = Ok tt (store st d (take (Nat.min (len d) (len s)) (load st s))).
Proof. reflexivity. Qed.

(** Loads and stores on the first arrays of the heap. *)
Lemma load_0 a m iv o l c :
  load (State (a :: m) iv) (Slice 0 o l c) = take l (drop o a).
Proof. reflexivity. Qed.
Lemma load_1 a0 a m iv o l c :
  load (State (a0 :: a :: m) iv) (Slice 1 o l c) = take l (drop o a).
Proof. reflexivity. Qed.
Lemma load_2 a0 a1 a m iv o l c :
  load (State (a0 :: a1 :: a :: m) iv) (Slice 2 o l c) = take l (drop o a).
Proof. reflexivity. Qed.
Lemma load_3 a0 a1 a2 a m iv o l c :
  load (State (a0 :: a1 :: a2 :: a :: m) iv) (Slice 3 o l c) = take l (drop o a).
Proof. reflexivity. Qed.

Lemma store_0 a m iv o l c bs :
  store (State (a :: m) iv) (Slice 0 o l c) bs =
  State ((take o a ++ bs ++ drop (o + length bs) a) :: m) iv.
Proof. reflexivity. Qed.
Lemma store_1 a0 a m iv o l c bs :
  store (State (a0 :: a :: m) iv) (Slice 1 o l c) bs =
  State (a0 :: (take o a ++ bs ++ drop (o + length bs) a) :: m) iv.
Proof. reflexivity. Qed.
Lemma store_2 a0 a1 a m iv o l c bs :
  store (State (a0 :: a1 :: a :: m) iv) (Slice 2 o l c) bs =
  State (a0 :: a1 :: (take o a ++ bs ++ drop (o + length bs) a) :: m) iv.
Proof. reflexivity. Qed.
Lemma store_3 a0 a1 a2 a m iv o l c bs :
  store (State (a0 :: a1 :: a2 :: a :: m) iv) (Slice 3 o l c) bs =
  State (a0 :: a1 :: a2 :: (take o a ++ bs ++ drop (o + length bs) a) :: m) iv.
Proof. reflexivity. Qed.

Lemma inexact_overlap_apart x y : arr x <> arr y -> inexact_overlap x y = false.
Proof.
  intros H. unfold inexact_overlap.
  replace (arr x =? arr y)%nat with false by (symmetry; apply Nat.eqb_neq; exact H).
  destruct (_ || _); reflexivity.
Qed.

Lemma inexact_overlap_same a o l1 c1 l2 c2 :
  inexact_overlap (Slice a o l1 c1) (Slice a o l2 c2) = false.
Proof.
  unfold inexact_overlap. cbn [arr off len].
  rewrite !Nat.eqb_refl. cbn [andb]. rewrite orb_true_r. reflexivity.
Qed.

(** Tactics: lengths, lists cut by [take] and [drop], and one statement of
    a run. *)
Ltac len_hyps :=
  repeat match goal with
         | H : length ?l = _ |- context [length ?l] => rewrite H
         end.
Ltac len_simpl :=
  repeat rewrite ?length_app, ?length_take, ?length_drop, ?length_replicate,
    ?length_zeros, ?length_xorBytes.
Ltac len_solve := len_simpl; lia.

Ltac lnorm1 :=
  match goal with
  | |- context [take 0 ?l] => rewrite (take_0 l)
  | |- context [drop 0 ?l] => rewrite (drop_0 l)
  | |- context [?l ++ []] => rewrite (app_nil_r l)
  | |- context [[] ++ ?l] => change ([] ++ l) with l
  | |- context [take ?n (?l ++ ?k)] =>
      first [ rewrite (take_app_le l k n) by len_solve
            | rewrite (take_app_ge l k n) by len_solve ]
  | |- context [drop ?n (?l ++ ?k)] =>
      first [ rewrite (drop_app_le l k n) by len_solve
            | rewrite (drop_app_ge l k n) by len_solve ]
  | |- context [take ?n ?l] => rewrite (take_ge l n) by len_solve
  | |- context [drop ?n ?l] => rewrite (drop_ge l n) by len_solve
  | |- context [take ?n (replicate ?m ?x)] => rewrite (take_replicate n m x)
  | |- context [drop ?n (replicate ?m ?x)] => rewrite (drop_replicate n m x)
  | |- context [Nat.min ?a ?b] =>
      first [ rewrite (Nat.min_l a b) by len_solve
            | rewrite (Nat.min_r a b) by len_solve ]
  end.
Ltac lnorm :=
  unfold Bytes.zeros;
  repeat first [ rewrite Nat.add_0_l | rewrite <- app_assoc | lnorm1 ].

Ltac mem_simpl :=
  cbn [arr off len cap mem civ];
  rewrite ?load_0, ?load_1, ?load_2, ?load_3,
          ?store_0, ?store_1, ?store_2, ?store_3;
  cbn [arr off len cap mem civ].

Ltac step :=
  first
  [ rewrite bind_assoc
  | rewrite slice_to_nat by (cbn [cap len]; lia)
  | rewrite slice_from_nat by (cbn [cap len]; lia)
  | rewrite slice3_nat by (cbn [cap len]; lia)
  | rewrite make_nat; cbn [mem civ length app]; unfold Bytes.zeros
  | rewrite copy_bind
  | rewrite copy_run
  | rewrite read_bind
  | rewrite ret_bind ];
  mem_simpl; lnorm.

Ltac as_bind :=
  match goal with |- ?m ?st = _ => rewrite <- (bind_ret_r m st) end.

Ltac is_false := symmetry; first [ apply Z.eqb_neq | apply Z.ltb_ge | apply Z.leb_gt ]; lia.

(** ** The chained codec *)

Section Cipher.

Variable bsz : nat.
Variable encb decb : list byte -> list byte.

(** What is assumed of the block primitive: blocks are not empty, both
    functions map a block to a block, and decrypting undoes encrypting. *)
Hypothesis bsz_pos : (0 < bsz)%nat.
Hypothesis encb_length : forall x, length x = bsz -> length (encb x) = bsz.
Hypothesis decb_length : forall x, length x = bsz -> length (decb x) = bsz.
Hypothesis decb_encb : forall x, length x = bsz -> decb (encb x) = x.

Local Abbreviation cbc_enc := (cbc_encrypt bsz encb).
Local Abbreviation cbc_dec := (cbc_decrypt bsz decb).
Local Abbreviation codec_run := (codec_CryptBlocks bsz encb decb).
Local Abbreviation encode_ := (encode bsz encb decb).
Local Abbreviation decode_ := (decode bsz encb decb).
Local Abbreviation process_ := (process bsz encb decb).

Lemma cbc_encrypt_length k : forall iv src,
  length iv = bsz -> length src = (k * bsz)%nat ->
  length (cbc_enc k iv src).1 = (k * bsz)%nat /\
  length (cbc_enc k iv src).2 = bsz.
Proof.
  induction k as [|k IH]; intros iv src Hiv Hsrc; simpl.
  - split; [reflexivity | exact Hiv].
  - set (c := encb (Bytes.xorBytes (take bsz src) iv)).
    assert (Hc : length c = bsz).
    { apply encb_length. rewrite length_xorBytes, length_take. lia. }
    destruct (IH c (drop bsz src) Hc) as [H1 H2].
    { rewrite length_drop. lia. }
    destruct (cbc_enc k c (drop bsz src)) as [out iv'].
    simpl in *. rewrite length_app. lia.
Qed.

Lemma cbc_decrypt_length k : forall iv src,
  length iv = bsz -> length src = (k * bsz)%nat ->
  length (cbc_dec k iv src).1 = (k * bsz)%nat /\
  length (cbc_dec k iv src).2 = bsz.
Proof.
  induction k as [|k IH]; intros iv src Hiv Hsrc; simpl.
  - split; [reflexivity | exact Hiv].
  - assert (Hc : length (take bsz src) = bsz) by (rewrite length_take; lia).
    destruct (IH (take bsz src) (drop bsz src) Hc) as [H1 H2].
    { rewrite length_drop. lia. }
    destruct (cbc_dec k (take bsz src) (drop bsz src)) as [out iv'].
    simpl in *. rewrite length_app, length_xorBytes, decb_length by exact Hc. lia.
Qed.

(** Chaining over a concatenation: the second part continues from the
    chaining value the first part left. *)
Lemma cbc_encrypt_app k1 k2 : forall iv p s,
  length p = (k1 * bsz)%nat ->
  cbc_enc (k1 + k2) iv (p ++ s) =
    let '(o1, iv1) := cbc_enc k1 iv p in
    let '(o2, iv2) := cbc_enc k2 iv1 s in
    (o1 ++ o2, iv2).
Proof.
  induction k1 as [|k1 IH]; intros iv p s Hp; simpl.
  - destruct p; [|discriminate]. simpl.
    destruct (cbc_enc k2 iv s); reflexivity.
  - rewrite take_app_le, drop_app_le by lia.
    rewrite IH by (rewrite length_drop; lia).
    destruct (cbc_enc k1 _ (drop bsz p)) as [o1 iv1].
    destruct (cbc_enc k2 iv1 s) as [o2 iv2].
    rewrite app_assoc. reflexivity.
Qed.

Lemma cbc_decrypt_app k1 k2 : forall iv p s,
  length p = (k1 * bsz)%nat ->
  cbc_dec (k1 + k2) iv (p ++ s) =
    let '(o1, iv1) := cbc_dec k1 iv p in
    let '(o2, iv2) := cbc_dec k2 iv1 s in
    (o1 ++ o2, iv2).
Proof.
  induction k1 as [|k1 IH]; intros iv p s Hp; simpl.
  - destruct p; [|discriminate]. simpl.
    destruct (cbc_dec k2 iv s); reflexivity.
  - rewrite take_app_le, drop_app_le by lia.
    rewrite IH by (rewrite length_drop; lia).
    destruct (cbc_dec k1 _ (drop bsz p)) as [o1 iv1].
    destruct (cbc_dec k2 iv1 s) as [o2 iv2].
    rewrite app_assoc. reflexivity.
Qed.

(** Chained decryption undoes chained encryption, and both leave the same
    chaining value: the last ciphertext block. *)
Lemma cbc_decrypt_encrypt k : forall iv src,
  length iv = bsz -> length src = (k * bsz)%nat ->
  cbc_dec k iv (cbc_enc k iv src).1 = (src, (cbc_enc k iv src).2).
Proof.
  induction k as [|k IH]; intros iv src Hiv Hsrc; simpl.
  - destruct src; [reflexivity | discriminate].
  - set (c := encb (Bytes.xorBytes (take bsz src) iv)).
    assert (Hx : length (Bytes.xorBytes (take bsz src) iv) = bsz).
    { rewrite length_xorBytes, length_take. lia. }
    assert (Hc : length c = bsz) by (apply encb_length; exact Hx).
    specialize (IH c (drop bsz src) Hc).
    destruct (cbc_enc k c (drop bsz src)) as [out iv'].
    simpl in *.
    rewrite take_app_length', drop_app_length' by (symmetry; exact Hc).
    rewrite IH by (rewrite length_drop; lia).
    unfold c. rewrite decb_encb by exact Hx.
    rewrite xorBytes_cancel_r by (rewrite length_take; lia).
    rewrite take_drop. reflexivity.
Qed.

(** The two ciphertext blocks of a chained encryption of two blocks. *)
Lemma cbc_encrypt_two iv Y Z :
  length Y = bsz -> length Z = bsz ->
  cbc_enc 2 iv (Y ++ Z) =
    (encb (Bytes.xorBytes Y iv)
       ++ encb (Bytes.xorBytes Z (encb (Bytes.xorBytes Y iv))),
     encb (Bytes.xorBytes Z (encb (Bytes.xorBytes Y iv)))).
Proof.
  intros HY HZ. simpl.
  rewrite take_app_length', drop_app_length' by (symmetry; exact HY).
  rewrite take_ge by lia. rewrite app_nil_r. reflexivity.
Qed.

(** *** A call of the codec *)

Lemma codec_bind {A} kind d s q (k : unit -> M A) st :
  len s = (q * bsz)%nat -> (len s <= len d)%nat ->
  (arr d <> arr s \/ (arr d = arr s /\ off d = off s)) ->
  length (load st s) = len s ->
  bind (codec_run kind d s) k st =
  k tt (State (mem (store st d
                 (match kind with
                  | CBCEncrypter => cbc_enc q (civ st) (load st s)
                  | CBCDecrypter => cbc_dec q (civ st) (load st s)
                  end).1))
              (match kind with
               | CBCEncrypter => cbc_enc q (civ st) (load st s)
               | CBCDecrypter => cbc_dec q (civ st) (load st s)
               end).2).
Proof.
  intros Hs Hd Hov Hload. unfold bind, codec_CryptBlocks, len_, BlockSize.
  rewrite Hs, rem_of_blocks by lia. cbn [Z.eqb negb].
  replace (Z.of_nat (len d) <? Z.of_nat (q * bsz)) with false by is_false.
  replace (inexact_overlap _ s) with false.
  2:{ symmetry. destruct Hov as [Hne | [Ha Ho]].
      - apply inexact_overlap_apart. exact Hne.
      - destruct s as [sa so sl sc], d as [da do' dl dc]. cbn in *. subst.
        apply inexact_overlap_same. }
  unfold cbc. rewrite Hload, Hs, div_of_blocks by lia.
  destruct kind.
  - destruct (cbc_enc q (civ st) (load st s)); reflexivity.
  - destruct (cbc_dec q (civ st) (load st s)); reflexivity.
Qed.

Lemma codec_enc_bind {A} d s q data out iv' (k : unit -> M A) st :
  load st s = data -> length data = (q * bsz)%nat ->
  cbc_enc q (civ st) data = (out, iv') ->
  len s = (q * bsz)%nat -> (len s <= len d)%nat ->
  (arr d <> arr s \/ (arr d = arr s /\ off d = off s)) ->
  bind (codec_run CBCEncrypter d s) k st =
  k tt (State (mem (store st d out)) iv').
Proof.
  intros Hl Hlen Hcbc Hs Hd Hov.
  rewrite (codec_bind CBCEncrypter d s q) by (rewrite ?Hl; auto; lia).
  rewrite Hl, Hcbc. reflexivity.
Qed.

Lemma codec_dec_bind {A} d s q data out iv' (k : unit -> M A) st :
  load st s = data -> length data = (q * bsz)%nat ->
  cbc_dec q (civ st) data = (out, iv') ->
  len s = (q * bsz)%nat -> (len s <= len d)%nat ->
  (arr d <> arr s \/ (arr d = arr s /\ off d = off s)) ->
  bind (codec_run CBCDecrypter d s) k st =
  k tt (State (mem (store st d out)) iv').
Proof.
  intros Hl Hlen Hcbc Hs Hd Hov.
  rewrite (codec_bind CBCDecrypter d s q) by (rewrite ?Hl; auto; lia).
  rewrite Hl, Hcbc. reflexivity.
Qed.

Ltac codec_enc q data out iv' H :=
  rewrite (codec_enc_bind _ _ q data out iv');
  [ mem_simpl
  | mem_simpl; lnorm; reflexivity
  | len_solve
  | cbn [civ]; exact H
  | cbn [len]; lia
  | cbn [len]; lia
  | cbn [arr off]; first [ left; discriminate | right; split; reflexivity ] ].

Ltac codec_dec q data out iv' H :=
  rewrite (codec_dec_bind _ _ q data out iv');
  [ mem_simpl
  | mem_simpl; lnorm; reflexivity
  | len_solve
  | cbn [civ]; exact H
  | cbn [len]; lia
  | cbn [len]; lia
  | cbn [arr off]; first [ left; discriminate | right; split; reflexivity ] ].

(** The call of the block primitive in [decode]. *)
Lemma block_Decrypt_bind {A} d s (k : unit -> M A) st :
  (bsz <= len s)%nat -> (bsz <= len d)%nat -> arr d <> arr s ->
  bind (block_Decrypt bsz decb d s) k st =
  k tt (store st d (decb (take bsz (load st s)))).
Proof.
  intros Hs Hd Hne. unfold bind, block_Decrypt, len_, BlockSize.
  replace (Z.of_nat (len s) <? Z.of_nat bsz) with false by is_false.
  replace (Z.of_nat (len d) <? Z.of_nat bsz) with false by is_false.
  rewrite inexact_overlap_apart by exact Hne. reflexivity.
Qed.

(** The overlay loop of [decode] (lines 197-199), started at [i], on a
    heap whose third array is the scratch buffer and whose fourth is [D]. *)
Lemma overlay_loop k : forall i a0 a1 Ta Da iv,
  (i + k = bsz)%nat -> length Ta = (2 * bsz)%nat -> length Da = bsz ->
  for_up k (Z.of_nat i)
    (fun j => v <- index (Slice 3 0 bsz bsz) j ;;
              set_index (Slice 2 0 (2 * bsz) (2 * bsz)) j v)
    (State [a0; a1; Ta; Da] iv) =
  Ok tt (State [a0; a1; take i Ta ++ drop i Da ++ drop bsz Ta; Da] iv).
Proof.
  induction k as [|k IH]; intros i a0 a1 Ta Da iv Hi HT HD; cbn [for_up].
  - replace i with bsz by lia.
    rewrite (drop_ge Da) by lia. cbn [app]. rewrite take_drop. reflexivity.
  - rewrite bind_assoc, index_nat by (cbn [len]; lia).
    rewrite set_index_nat by (cbn [len]; lia).
    mem_simpl. lnorm. cbn [length].
    replace (Z.of_nat i + 1) with (Z.of_nat (i + 1)) by lia.
    rewrite IH by (len_simpl; cbn [length]; lia).
    destruct (lookup_lt_is_Some_2 Da i ltac:(lia)) as [x Hx].
    rewrite (nth_lookup_Some _ _ _ _ Hx), (drop_S _ _ _ Hx).
    assert (Hl : length (take i Ta ++ [x]) = (i + 1)%nat)
      by (len_simpl; cbn [length]; lia).
    rewrite (app_assoc (take i Ta) [x]).
    rewrite take_app_length' by (symmetry; exact Hl).
    rewrite drop_app_ge by lia.
    rewrite Hl, drop_drop, <- app_assoc.
    replace (i + 1 + (bsz - (i + 1)))%nat with bsz by lia.
    replace (i + 1)%nat with (S i) by lia. reflexivity.
Qed.


(** *** Runs of [encode] and [decode] into a fresh output buffer

    The heap holds the input as its first array and the zeroed output
    buffer as its second, as [process] sets it up. *)

Lemma swap_last_two_app (cP cY cZ : list byte) :
  length cY = bsz -> length cZ = bsz ->
  swap_last_two bsz (cP ++ cY ++ cZ) = cP ++ cZ ++ cY.
Proof.
  intros HY HZ. unfold swap_last_two.
  replace (length (cP ++ cY ++ cZ) - 2 * bsz)%nat with (length cP) by len_solve.
  replace (length (cP ++ cY ++ cZ) - bsz)%nat with (length cP + bsz)%nat by len_solve.
  lnorm. reflexivity.
Qed.

Lemma encode_aligned_plain m iv data q out iv' :
  m = CS1 \/ m = CS2 ->
  length iv = bsz -> length data = (q * bsz)%nat ->
  cbc_enc q iv data = (out, iv') ->
  encode_ (encrypter m)
    (Slice 1 0 (length data) (length data)) (whole data)
    (State [data; Bytes.zeros (length data)] iv) =
  Ok tt (State [data; out] iv').
Proof.
  intros Hm Hiv Hd Hc.
  pose proof (cbc_encrypt_length q iv data Hiv Hd) as Hl.
  rewrite Hc in Hl. cbn [fst snd] in Hl. destruct Hl as [Hout Hiv'].
  unfold whole, encode. cbn [encoder codec mode encrypter].
  unfold len_, BlockSize. cbn [len]. rewrite !Hd.
  rewrite rem_of_blocks by lia. cbn [Z.eqb].
  codec_enc q data out iv' Hc. lnorm.
  destruct Hm as [-> | ->]; reflexivity.
Qed.

Lemma encode_aligned_CS3 iv data q cP cY cZ iv' :
  length iv = bsz -> length data = ((q + 2) * bsz)%nat ->
  length cP = (q * bsz)%nat -> length cY = bsz -> length cZ = bsz ->
  cbc_enc (q + 2) iv data = (cP ++ cY ++ cZ, iv') ->
  encode_ (encrypter CS3)
    (Slice 1 0 (length data) (length data)) (whole data)
    (State [data; Bytes.zeros (length data)] iv) =
  Ok tt (State [data; cP ++ cZ ++ cY; cY] iv').
Proof.
  intros Hiv Hd HP HY HZ Hc.
  unfold whole, encode. cbn [encoder codec mode encrypter].
  unfold len_, BlockSize. cbn [len]. rewrite !Hd.
  rewrite rem_of_blocks by lia. cbn [Z.eqb CS1 CS2 CS3 Pos.eqb orb].
  replace (Z.of_nat ((q + 2) * bsz) - 2 * Z.of_nat bsz)
    with (Z.of_nat (q * bsz)) by lia.
  replace (Z.of_nat ((q + 2) * bsz) - Z.of_nat bsz)
    with (Z.of_nat (q * bsz + bsz)) by lia.
  codec_enc (q + 2)%nat data (cP ++ cY ++ cZ) iv' Hc. lnorm.
  repeat step. reflexivity.
Qed.

Lemma encode_unaligned m iv P Y T q r c0 iv1 E iv2 :
  is_mode m ->
  length iv = bsz -> length P = (q * bsz)%nat -> length Y = bsz ->
  length T = r -> (0 < r < bsz)%nat ->
  cbc_enc q iv P = (c0, iv1) ->
  cbc_enc 2 iv1 (Y ++ T ++ Bytes.zeros (bsz - r)) = (E, iv2) ->
  encode_ (encrypter m)
    (Slice 1 0 (length (P ++ Y ++ T)) (length (P ++ Y ++ T)))
    (whole (P ++ Y ++ T))
    (State [P ++ Y ++ T; Bytes.zeros (length (P ++ Y ++ T))] iv) =
  Ok tt (State [P ++ Y ++ T;
                c0 ++ tail_layout m (take r E) (drop bsz E);
                E] iv2).
Proof.
  intros Hm Hiv HP HY HT Hr Hc HE.
  pose proof (cbc_encrypt_length q iv P Hiv HP) as Hlc.
  rewrite Hc in Hlc. cbn [fst snd] in Hlc. destruct Hlc as [Hc0 Hiv1].
  assert (Hpad : length (Y ++ T ++ Bytes.zeros (bsz - r)) = (2 * bsz)%nat)
    by len_solve.
  pose proof (cbc_encrypt_length 2 iv1 _ Hiv1 Hpad) as HlE.
  rewrite HE in HlE. cbn [fst snd] in HlE. destruct HlE as [HlE Hiv2].
  assert (Hn : length (P ++ Y ++ T) = ((q + 1) * bsz + r)%nat) by len_solve.
  unfold whole. rewrite !Hn.
  unfold encode. cbn [encoder codec mode encrypter].
  unfold len_, BlockSize. cbn [len].
  rewrite rem_of_nat by lia.
  replace (Z.of_nat r =? 0) with false by is_false.
  replace (Z.of_nat ((q + 1) * bsz + r) + (Z.of_nat bsz - Z.of_nat r)
           - 2 * Z.of_nat bsz) with (Z.of_nat (q * bsz)) by lia.
  replace (Z.of_nat ((q + 1) * bsz + r) + (Z.of_nat bsz - Z.of_nat r)
           - Z.of_nat bsz) with (Z.of_nat (q * bsz + bsz)) by lia.
  replace (Z.of_nat (q * bsz) <? 0) with false by is_false.
  replace (2 * Z.of_nat bsz) with (Z.of_nat (2 * bsz)) by lia.
  replace (Z.of_nat bsz + Z.of_nat r) with (Z.of_nat (bsz + r)) by lia.
  replace (Z.of_nat (q * bsz) + Z.of_nat r) with (Z.of_nat (q * bsz + r)) by lia.
  do 2 step.
  codec_enc q P c0 iv1 Hc. lnorm.
  do 4 step. len_simpl; len_hyps.
  replace (2 * bsz - (bsz + r))%nat with (bsz - r)%nat by lia.
  codec_enc 2%nat (Y ++ T ++ replicate (bsz - r) Bytes.zero) E iv2 HE. lnorm.
  unfold tail_layout.
  destruct Hm as [-> | [-> | ->]]; cbn [Z.eqb CS1 CS2 CS3 Pos.eqb orb];
    repeat step; reflexivity.
Qed.

Lemma decode_aligned_plain m iv data q out iv' :
  m = CS1 \/ m = CS2 ->
  length iv = bsz -> length data = (q * bsz)%nat ->
  cbc_dec q iv data = (out, iv') ->
  decode_ (decrypter m)
    (Slice 1 0 (length data) (length data)) (whole data)
    (State [data; Bytes.zeros (length data)] iv) =
  Ok tt (State [data; out] iv').
Proof.
  intros Hm Hiv Hd Hc.
  pose proof (cbc_decrypt_length q iv data Hiv Hd) as Hl.
  rewrite Hc in Hl. cbn [fst snd] in Hl. destruct Hl as [Hout Hiv'].
  unfold whole, decode. cbn [encoder codec mode decrypter].
  unfold len_, BlockSize. cbn [len]. rewrite !Hd.
  rewrite rem_of_blocks by lia. cbn [Z.eqb].
  replace ((m =? CS1) || (m =? CS2)) with true
    by (destruct Hm as [-> | ->]; reflexivity).
  as_bind.
  codec_dec q data out iv' Hc. lnorm. reflexivity.
Qed.

Lemma decode_aligned_CS3 iv P Y Z q out iv' :
  length iv = bsz ->
  length P = (q * bsz)%nat -> length Y = bsz -> length Z = bsz ->
  cbc_dec (q + 2) iv (P ++ Z ++ Y) = (out, iv') ->
  decode_ (decrypter CS3)
    (Slice 1 0 (length (P ++ Y ++ Z)) (length (P ++ Y ++ Z)))
    (whole (P ++ Y ++ Z))
    (State [P ++ Y ++ Z; Bytes.zeros (length (P ++ Y ++ Z))] iv) =
  Ok tt (State [P ++ Y ++ Z; out] iv').
Proof.
  intros Hiv HP HY HZ Hc.
  assert (Hs : length (P ++ Z ++ Y) = ((q + 2) * bsz)%nat) by len_solve.
  pose proof (cbc_decrypt_length (q + 2) iv _ Hiv Hs) as Hl.
  rewrite Hc in Hl. cbn [fst snd] in Hl. destruct Hl as [Hout Hiv'].
  assert (Hn : length (P ++ Y ++ Z) = ((q + 2) * bsz)%nat) by len_solve.
  unfold whole. rewrite !Hn.
  unfold decode. cbn [encoder codec mode decrypter].
  unfold len_, BlockSize. cbn [len].
  rewrite rem_of_blocks by lia. cbn [Z.eqb CS1 CS2 CS3 Pos.eqb orb].
  replace (Z.of_nat ((q + 2) * bsz) - 2 * Z.of_nat bsz)
    with (Z.of_nat (q * bsz)) by lia.
  replace (Z.of_nat ((q + 2) * bsz) - Z.of_nat bsz)
    with (Z.of_nat (q * bsz + bsz)) by lia.
  do 9 step.
  as_bind.
  codec_dec (q + 2)%nat (P ++ Z ++ Y) out iv' Hc. lnorm. reflexivity.
Qed.

Lemma bind_ok {A B} (m : M A) (k : A -> M B) st a st' :
  m st = Ok a st' -> bind m k st = k a st'.
Proof. intros H. unfold bind. rewrite H. reflexivity. Qed.

Lemma bind_panic {A B} (m : M A) (k : A -> M B) st e st' :
  m st = Panic e st' -> bind m k st = Panic e st'.
Proof. intros H. unfold bind. rewrite H. reflexivity. Qed.

Lemma length_tail_layout m H F :
  length (tail_layout m H F) = (length F + length H)%nat.
Proof. unfold tail_layout. destruct (m =? CS1); len_solve. Qed.

Lemma decode_scratch_run m iv P H F q r p0 iv1 :
  is_mode m ->
  length iv = bsz -> length P = (q * bsz)%nat ->
  length H = r -> length F = bsz -> (0 < r < bsz)%nat ->
  cbc_dec q iv P = (p0, iv1) ->
  decode_scratch bsz encb decb (decrypter m)
    (Slice 1 0 (length (P ++ tail_layout m H F)) (length (P ++ tail_layout m H F)))
    (whole (P ++ tail_layout m H F))
    (State [P ++ tail_layout m H F;
            Bytes.zeros (length (P ++ tail_layout m H F))] iv) =
  Ok (Slice 2 0 (2 * bsz) (2 * bsz))
     (State [P ++ tail_layout m H F;
             p0 ++ Bytes.zeros (bsz + r);
             H ++ drop r (decb F) ++ F;
             decb F] iv1).
Proof.
  intros Hm Hiv HP HH HF Hr Hc.
  pose proof (cbc_decrypt_length q iv P Hiv HP) as Hl.
  rewrite Hc in Hl. cbn [fst snd] in Hl. destruct Hl as [Hp0 Hiv1].
  pose proof (decb_length F HF) as HD.
  assert (Hn : length (P ++ tail_layout m H F) = ((q + 1) * bsz + r)%nat)
    by (rewrite length_app, length_tail_layout; lia).
  unfold whole. rewrite !Hn.
  unfold decode_scratch. cbn [encoder codec mode decrypter].
  unfold len_, BlockSize. cbn [len].
  rewrite rem_of_nat by lia.
  replace (Z.of_nat ((q + 1) * bsz + r) + (Z.of_nat bsz - Z.of_nat r)
           - 2 * Z.of_nat bsz) with (Z.of_nat (q * bsz)) by lia.
  replace (Z.of_nat ((q + 1) * bsz + r) + (Z.of_nat bsz - Z.of_nat r)
           - Z.of_nat bsz) with (Z.of_nat (q * bsz + bsz)) by lia.
  replace (Z.of_nat (q * bsz) <? 0) with false by is_false.
  replace (2 * Z.of_nat bsz) with (Z.of_nat (2 * bsz)) by lia.
  replace (Z.of_nat (q * bsz) + Z.of_nat r) with (Z.of_nat (q * bsz + r)) by lia.
  unfold tail_layout.
  do 2 step.
  destruct Hm as [-> | [-> | ->]]; cbn [Z.eqb CS1 CS2 CS3 Pos.eqb orb].
  all: codec_dec q P p0 iv1 Hc; lnorm.
  all: repeat step.
  all: rewrite block_Decrypt_bind by (cbn [len arr]; first [lia | discriminate]).
  all: mem_simpl; lnorm.
  all: unfold for_range;
       replace (Z.to_nat (Z.of_nat bsz - Z.of_nat r)) with (bsz - r)%nat by lia.
  all: erewrite bind_ok by (apply overlay_loop; len_solve).
  all: unfold ret; lnorm; len_simpl; len_hyps.
  all: replace ((q + 1) * bsz + r - q * bsz)%nat with (bsz + r)%nat by lia.
  all: reflexivity.
Qed.

Lemma decode_unaligned m iv P H F q r p0 iv1 X iv2 :
  is_mode m ->
  length iv = bsz -> length P = (q * bsz)%nat ->
  length H = r -> length F = bsz -> (0 < r < bsz)%nat ->
  cbc_dec q iv P = (p0, iv1) ->
  cbc_dec 2 iv1 (H ++ drop r (decb F) ++ F) = (X, iv2) ->
  decode_ (decrypter m)
    (Slice 1 0 (length (P ++ tail_layout m H F)) (length (P ++ tail_layout m H F)))
    (whole (P ++ tail_layout m H F))
    (State [P ++ tail_layout m H F;
            Bytes.zeros (length (P ++ tail_layout m H F))] iv) =
  Ok tt (State [P ++ tail_layout m H F;
                p0 ++ take (bsz + r) X;
                X;
                decb F] iv2).
Proof.
  intros Hm Hiv HP HH HF Hr Hc HX.
  pose proof (cbc_decrypt_length q iv P Hiv HP) as Hl.
  rewrite Hc in Hl. cbn [fst snd] in Hl. destruct Hl as [Hp0 Hiv1].
  pose proof (decb_length F HF) as HD.
  assert (Hs : length (H ++ drop r (decb F) ++ F) = (2 * bsz)%nat) by len_solve.
  pose proof (cbc_decrypt_length 2 iv1 _ Hiv1 Hs) as HlX.
  rewrite HX in HlX. cbn [fst snd] in HlX. destruct HlX as [HlX Hiv2].
  assert (Hn : length (P ++ tail_layout m H F) = ((q + 1) * bsz + r)%nat)
    by (rewrite length_app, length_tail_layout; lia).
  unfold decode. cbn [encoder codec mode decrypter].
  replace (Z.rem (len_ (whole (P ++ tail_layout m H F))) (BlockSize bsz))
    with (Z.of_nat r)
    by (unfold len_, whole, BlockSize; cbn [len]; rewrite Hn, rem_of_nat by lia;
        reflexivity).
  replace (Z.of_nat r =? 0) with false by is_false.
  replace (len_ (whole (P ++ tail_layout m H F)) + (BlockSize bsz - Z.of_nat r)
           - 2 * BlockSize bsz) with (Z.of_nat (q * bsz))
    by (unfold len_, whole, BlockSize; cbn [len]; lia).
  erewrite bind_ok by (eapply decode_scratch_run; eassumption).
  rewrite !Hn.
  codec_dec 2%nat (H ++ drop r (decb F) ++ F) X iv2 HX. lnorm.
  repeat step.
  replace ((q + 1) * bsz + r - q * bsz)%nat with (bsz + r)%nat by lia.
  reflexivity.
Qed.

(** *** From a run of [CryptBlocks] to the caller *)

Lemma process_ok cd iv data st' :
  CryptBlocks bsz encb decb cd
    (Slice 1 0 (length data) (length data)) (whole data)
    (State [data; Bytes.zeros (length data)] iv) = Ok tt st' ->
  process_ cd iv data = Ok (load st' (Slice 1 0 (length data) (length data))) st'.
Proof.
  intros H. unfold process. rewrite make_nat. cbn [mem civ length app].
  erewrite bind_ok by exact H. reflexivity.
Qed.

Lemma process_panic cd iv data e st' :
  CryptBlocks bsz encb decb cd
    (Slice 1 0 (length data) (length data)) (whole data)
    (State [data; Bytes.zeros (length data)] iv) = Panic e st' ->
  process_ cd iv data = Panic e st'.
Proof.
  intros H. unfold process. rewrite make_nat. cbn [mem civ length app].
  erewrite bind_panic by exact H. reflexivity.
Qed.

(** *** What [process] returns, path by path *)

Lemma whole_load data out rest iv :
  load (State (data :: out :: rest) iv)
       (Slice 1 0 (length out) (length out)) = out.
Proof. rewrite load_1, drop_0. apply take_ge. lia. Qed.

Lemma process_encrypt_aligned m iv data q c iv' :
  m = CS1 \/ m = CS2 ->
  length iv = bsz -> length data = (q * bsz)%nat ->
  cbc_enc q iv data = (c, iv') ->
  process_ (encrypter m) iv data = Ok c (State [data; c] iv').
Proof.
  intros Hm Hiv Hd Hc.
  pose proof (cbc_encrypt_length q iv data Hiv Hd) as Hl.
  rewrite Hc in Hl. cbn [fst snd] in Hl. destruct Hl as [Hout _].
  erewrite process_ok
    by (unfold CryptBlocks; cbn [encoder encrypter];
        apply (encode_aligned_plain m iv data q c iv'); assumption).
  rewrite Hd, <- Hout, whole_load. reflexivity.
Qed.

Lemma process_encrypt_aligned_CS3 iv data q c iv' :
  length iv = bsz -> length data = ((q + 2) * bsz)%nat ->
  cbc_enc (q + 2) iv data = (c, iv') ->
  exists st, process_ (encrypter CS3) iv data = Ok (swap_last_two bsz c) st
             /\ civ st = iv'.
Proof.
  intros Hiv Hd Hc.
  pose proof (cbc_encrypt_length (q + 2) iv data Hiv Hd) as Hl.
  rewrite Hc in Hl. cbn [fst snd] in Hl. destruct Hl as [Hout _].
  destruct (split_three c (q * bsz) bsz bsz ltac:(lia))
    as (cP & cY & cZ & -> & HP & HY & HZ).
  rewrite swap_last_two_app by assumption.
  eexists. split.
  - erewrite process_ok
      by (unfold CryptBlocks; cbn [encoder encrypter];
          apply (encode_aligned_CS3 iv data q cP cY cZ iv'); assumption).
    f_equal. rewrite load_1. lnorm. reflexivity.
  - reflexivity.
Qed.

Lemma process_encrypt_unaligned m iv P Y T q r c0 iv1 E iv2 :
  is_mode m ->
  length iv = bsz -> length P = (q * bsz)%nat -> length Y = bsz ->
  length T = r -> (0 < r < bsz)%nat ->
  cbc_enc q iv P = (c0, iv1) ->
  cbc_enc 2 iv1 (Y ++ T ++ Bytes.zeros (bsz - r)) = (E, iv2) ->
  exists st,
    process_ (encrypter m) iv (P ++ Y ++ T) =
      Ok (c0 ++ tail_layout m (take r E) (drop bsz E)) st
    /\ civ st = iv2.
Proof.
  intros Hm Hiv HP HY HT Hr Hc HE.
  pose proof (cbc_encrypt_length q iv P Hiv HP) as Hlc.
  rewrite Hc in Hlc. cbn [fst snd] in Hlc. destruct Hlc as [Hc0 Hiv1].
  assert (Hpad : length (Y ++ T ++ Bytes.zeros (bsz - r)) = (2 * bsz)%nat)
    by len_solve.
  pose proof (cbc_encrypt_length 2 iv1 _ Hiv1 Hpad) as HlE.
  rewrite HE in HlE. cbn [fst snd] in HlE. destruct HlE as [HlE _].
  eexists. split.
  - erewrite process_ok
      by (unfold CryptBlocks; cbn [encoder encrypter];
          apply (encode_unaligned m iv P Y T q r c0 iv1 E iv2); assumption).
    f_equal. rewrite load_1, drop_0. apply take_ge.
    rewrite !length_app, length_tail_layout. len_solve.
  - reflexivity.
Qed.

Lemma process_decrypt_aligned m iv data q p iv' :
  m = CS1 \/ m = CS2 ->
  length iv = bsz -> length data = (q * bsz)%nat ->
  cbc_dec q iv data = (p, iv') ->
  process_ (decrypter m) iv data = Ok p (State [data; p] iv').
Proof.
  intros Hm Hiv Hd Hc.
  pose proof (cbc_decrypt_length q iv data Hiv Hd) as Hl.
  rewrite Hc in Hl. cbn [fst snd] in Hl. destruct Hl as [Hout _].
  erewrite process_ok
    by (unfold CryptBlocks; cbn [encoder decrypter];
        apply (decode_aligned_plain m iv data q p iv'); assumption).
  rewrite Hd, <- Hout, whole_load. reflexivity.
Qed.

Lemma process_decrypt_aligned_CS3 iv data q p iv' :
  length iv = bsz -> length data = ((q + 2) * bsz)%nat ->
  cbc_dec (q + 2) iv (swap_last_two bsz data) = (p, iv') ->
  process_ (decrypter CS3) iv data = Ok p (State [data; p] iv').
Proof.
  intros Hiv Hd Hc.
  destruct (split_three data (q * bsz) bsz bsz ltac:(lia))
    as (P & Y & Z & -> & HP & HY & HZ).
  rewrite swap_last_two_app in Hc by assumption.
  assert (Hs : length (P ++ Z ++ Y) = ((q + 2) * bsz)%nat) by len_solve.
  pose proof (cbc_decrypt_length (q + 2) iv _ Hiv Hs) as Hl.
  rewrite Hc in Hl. cbn [fst snd] in Hl. destruct Hl as [Hout _].
  erewrite process_ok
    by (unfold CryptBlocks; cbn [encoder decrypter];
        apply (decode_aligned_CS3 iv P Y Z q p iv'); assumption).
  rewrite Hd, <- Hout, whole_load. reflexivity.
Qed.

Lemma process_decrypt_unaligned m iv P H F q r p0 iv1 X iv2 :
  is_mode m ->
  length iv = bsz -> length P = (q * bsz)%nat ->
  length H = r -> length F = bsz -> (0 < r < bsz)%nat ->
  cbc_dec q iv P = (p0, iv1) ->
  cbc_dec 2 iv1 (H ++ drop r (decb F) ++ F) = (X, iv2) ->
  exists st,
    process_ (decrypter m) iv (P ++ tail_layout m H F) =
      Ok (p0 ++ take (bsz + r) X) st
    /\ civ st = iv2.
Proof.
  intros Hm Hiv HP HH HF Hr Hc HX.
  pose proof (cbc_decrypt_length q iv P Hiv HP) as Hl.
  rewrite Hc in Hl. cbn [fst snd] in Hl. destruct Hl as [Hp0 Hiv1].
  pose proof (decb_length F HF) as HD.
  assert (Hs : length (H ++ drop r (decb F) ++ F) = (2 * bsz)%nat) by len_solve.
  pose proof (cbc_decrypt_length 2 iv1 _ Hiv1 Hs) as HlX.
  rewrite HX in HlX. cbn [fst snd] in HlX. destruct HlX as [HlX _].
  eexists. split.
  - erewrite process_ok
      by (unfold CryptBlocks; cbn [encoder decrypter];
          apply (decode_unaligned m iv P H F q r p0 iv1 X iv2); assumption).
    f_equal. rewrite load_1, drop_0. apply take_ge.
    rewrite !length_app, length_tail_layout. len_solve.
  - reflexivity.
Qed.

(** *** The stolen bytes *)

(** The tail of the encoder is two chained blocks [E1 ++ E2]; only the
    first [r] bytes of [E1] travel.  The other bytes of [E1] are the last
    bytes of the single-block decryption of [E2], because the plaintext
    chained into [E2] was padded with zeros. *)
Lemma stolen_bytes_recovered iv1 Y T r E iv2 :
  length iv1 = bsz -> length Y = bsz -> length T = r -> (0 < r < bsz)%nat ->
  cbc_enc 2 iv1 (Y ++ T ++ Bytes.zeros (bsz - r)) = (E, iv2) ->
  take bsz E = encb (Bytes.xorBytes Y iv1) /\
  drop r (decb (drop bsz E)) = drop r (take bsz E) /\
  take r E ++ drop r (decb (drop bsz E)) ++ drop bsz E = E.
Proof.
  intros Hiv1 HY HT Hr HE.
  assert (HZ : length (T ++ Bytes.zeros (bsz - r)) = bsz) by len_solve.
  rewrite (cbc_encrypt_two iv1 Y (T ++ Bytes.zeros (bsz - r)) HY HZ) in HE.
  injection HE as <- _.
  set (E1 := encb (Bytes.xorBytes Y iv1)).
  assert (HE1 : length E1 = bsz)
    by (apply encb_length; rewrite length_xorBytes; lia).
  set (E2 := encb (Bytes.xorBytes (T ++ Bytes.zeros (bsz - r)) E1)).
  assert (Hx : length (Bytes.xorBytes (T ++ Bytes.zeros (bsz - r)) E1) = bsz)
    by (rewrite length_xorBytes; lia).
  assert (Hrec : drop r (decb E2) = drop r E1).
  { unfold E2. rewrite decb_encb by exact Hx.
    rewrite drop_xorBytes, drop_app_length' by (symmetry; exact HT).
    unfold Bytes.zeros. rewrite xorBytes_replicate_zero by len_solve.
    apply take_ge. len_solve. }
  rewrite take_app_length', drop_app_length' by (symmetry; exact HE1).
  split; [reflexivity|]. split; [exact Hrec|].
  rewrite Hrec, take_app_le by lia.
  rewrite app_assoc, take_drop. reflexivity.
Qed.



(** ** The claims *)

Lemma encrypt_fresh_process iv m data :
  is_mode m -> length iv = bsz ->
  encrypt_fresh bsz encb decb iv m data = process_ (encrypter m) iv data.
Proof.
  intros Hm Hiv. unfold encrypt_fresh, process, NewCBCCTSEncrypter.
  unfold bind at 1.
  replace ((m <? CS1) || (m >? CS3)) with false
    by (destruct Hm as [-> | [-> | ->]]; reflexivity).
  rewrite Hiv, Nat.eqb_refl. reflexivity.
Qed.

Lemma decrypt_fresh_process iv m data :
  is_mode m -> length iv = bsz ->
  decrypt_fresh bsz encb decb iv m data = process_ (decrypter m) iv data.
Proof.
  intros Hm Hiv. unfold decrypt_fresh, process, NewCBCCTSDecrypter.
  unfold bind at 1.
  replace ((m <? CS1) || (m >? CS3)) with false
    by (destruct Hm as [-> | [-> | ->]]; reflexivity).
  rewrite Hiv, Nat.eqb_refl. reflexivity.
Qed.

Lemma length_swap_last_two c :
  (2 * bsz <= length c)%nat -> length (swap_last_two bsz c) = length c.
Proof. intros H. unfold swap_last_two. len_solve. Qed.

Lemma swap_last_two_involutive c :
  (2 * bsz <= length c)%nat -> swap_last_two bsz (swap_last_two bsz c) = c.
Proof.
  intros H.
  destruct (split_three c (length c - 2 * bsz) bsz bsz ltac:(lia))
    as (P & Y & Z & -> & HP & HY & HZ).
  rewrite !swap_last_two_app by assumption. reflexivity.
Qed.

Lemma mode_not_CS3 m : is_mode m -> m <> CS3 -> m = CS1 \/ m = CS2.
Proof. intros [-> | [-> | ->]] H; auto. contradiction. Qed.

Lemma round_trip_unaligned iv m data :
  length iv = bsz -> is_mode m -> unaligned_length bsz (length data) ->
  exists c st st',
    process_ (encrypter m) iv data = Ok c st /\
    process_ (decrypter m) iv c = Ok data st'.
Proof.
  intros Hiv Hm Hu.
  destruct (unaligned_length_split bsz _ bsz_pos Hu) as (q & r & Hn & Hr).
  destruct (split_three data (q * bsz) bsz r Hn)
    as (P & Y & T & -> & HP & HY & HT).
  destruct (cbc_enc q iv P) as [c0 iv1] eqn:Hc.
  destruct (cbc_enc 2 iv1 (Y ++ T ++ Bytes.zeros (bsz - r))) as [E iv2] eqn:HE.
  pose proof (cbc_encrypt_length q iv P Hiv HP) as Hl.
  rewrite Hc in Hl. cbn [fst snd] in Hl. destruct Hl as [Hc0 Hiv1].
  assert (Hpad : length (Y ++ T ++ Bytes.zeros (bsz - r)) = (2 * bsz)%nat)
    by len_solve.
  pose proof (cbc_encrypt_length 2 iv1 _ Hiv1 Hpad) as HlE.
  rewrite HE in HlE. cbn [fst snd] in HlE. destruct HlE as [HlE _].
  destruct (process_encrypt_unaligned m iv P Y T q r c0 iv1 E iv2)
    as (st & Henc & _); try assumption.
  destruct (stolen_bytes_recovered iv1 Y T r E iv2) as (_ & _ & Hrec);
    try assumption.
  pose proof (cbc_decrypt_encrypt q iv P Hiv HP) as Hd1.
  rewrite Hc in Hd1. cbn [fst snd] in Hd1.
  pose proof (cbc_decrypt_encrypt 2 iv1 _ Hiv1 Hpad) as Hd2.
  rewrite HE in Hd2. cbn [fst snd] in Hd2.
  destruct (process_decrypt_unaligned m iv c0 (take r E) (drop bsz E) q r
              P iv1 (Y ++ T ++ Bytes.zeros (bsz - r)) iv2)
    as (st' & Hdec & _); try assumption; try len_solve.
  { rewrite Hrec. exact Hd2. }
  exists (c0 ++ tail_layout m (take r E) (drop bsz E)), st, st'.
  split; [exact Henc|]. rewrite Hdec. lnorm. reflexivity.
Qed.

Lemma round_trip_aligned iv m data :
  length iv = bsz -> is_mode m ->
  aligned_length bsz (length data) ->
  (m = CS3 -> 2 * bsz <= length data)%nat ->
  exists c st st',
    process_ (encrypter m) iv data = Ok c st /\
    process_ (decrypter m) iv c = Ok data st'.
Proof.
  intros Hiv Hm Ha H3.
  destruct (aligned_length_split bsz _ bsz_pos Ha) as (q & Hn).
  destruct (Z.eq_dec m CS3) as [-> | Hne].
  - specialize (H3 eq_refl).
    destruct q as [|q]; [lia|].
    replace (S (S q) * bsz)%nat with ((q + 2) * bsz)%nat in Hn by lia.
    destruct (cbc_enc (q + 2) iv data) as [c iv'] eqn:Hc.
    pose proof (cbc_encrypt_length (q + 2) iv data Hiv Hn) as Hl.
    rewrite Hc in Hl. cbn [fst snd] in Hl. destruct Hl as [Hlc _].
    destruct (process_encrypt_aligned_CS3 iv data q c iv' Hiv Hn Hc)
      as (st & Henc & _).
    pose proof (cbc_decrypt_encrypt (q + 2) iv data Hiv Hn) as Hd.
    rewrite Hc in Hd. cbn [fst snd] in Hd.
    exists (swap_last_two bsz c), st. eexists. split; [exact Henc|].
    apply (process_decrypt_aligned_CS3 iv _ q data iv' Hiv).
    + rewrite length_swap_last_two by lia. exact Hlc.
    + rewrite swap_last_two_involutive by lia. exact Hd.
  - pose proof (mode_not_CS3 m Hm Hne) as Hm'.
    destruct (cbc_enc (S q) iv data) as [c iv'] eqn:Hc.
    pose proof (cbc_encrypt_length (S q) iv data Hiv Hn) as Hl.
    rewrite Hc in Hl. cbn [fst snd] in Hl. destruct Hl as [Hlc _].
    pose proof (cbc_decrypt_encrypt (S q) iv data Hiv Hn) as Hd.
    rewrite Hc in Hd. cbn [fst snd] in Hd.
    exists c. do 2 eexists. split.
    + apply (process_encrypt_aligned m iv data (S q) c iv'); assumption.
    + apply (process_decrypt_aligned m iv c (S q) data iv'); assumption.
Qed.

(** C1, on the lengths the code accepts.  Round trip: for every block cipher, every IV of block
    length, every policy among CS1, CS2 and CS3 and every input whose
    length is unaligned and at least [b+1], or a positive multiple of [b]
    that is at least [2b] when the policy is CS3, decoding with a fresh
    decrypter what a fresh encrypter produced gives the input back. *)
Theorem C1_round_trip iv m data :
  length iv = bsz -> is_mode m ->
  accepted_length bsz m (length data) ->
  round_trip bsz encb decb iv m data.
Proof.
  intros Hiv Hm Hlen. unfold round_trip.
  rewrite encrypt_fresh_process by assumption.
  destruct Hlen as [Hu | [Ha H3]].
  - destruct (round_trip_unaligned iv m data Hiv Hm Hu) as (c & st & st' & He & Hd).
    exists c. rewrite decrypt_fresh_process, He, Hd by assumption.
    split; reflexivity.
  - destruct (round_trip_aligned iv m data Hiv Hm Ha H3) as (c & st & st' & He & Hd).
    exists c. rewrite decrypt_fresh_process, He, Hd by assumption.
    split; reflexivity.
Qed.



(** Inputs of an accepted length, cut as the two paths cut them. *)
Lemma split_for_mode m (data : list byte) q r :
  length data = (q * bsz + bsz + r)%nat ->
  exists P H F, data = P ++ tail_layout m H F /\
                length P = (q * bsz)%nat /\ length H = r /\ length F = bsz.
Proof.
  intros Hn. unfold tail_layout. destruct (m =? CS1).
  - destruct (split_three data (q * bsz) r bsz ltac:(lia))
      as (P & H & F & -> & HP & HH & HF).
    exists P, H, F. auto.
  - destruct (split_three data (q * bsz) bsz r ltac:(lia))
      as (P & F & H & -> & HP & HF & HH).
    exists P, H, F. auto.
Qed.

Lemma process_encrypt_total iv m data :
  length iv = bsz -> is_mode m -> accepted_length bsz m (length data) ->
  exists out st,
    process_ (encrypter m) iv data = Ok out st /\ length out = length data.
Proof.
  intros Hiv Hm [Hu | [Ha H3]].
  - destruct (unaligned_length_split bsz _ bsz_pos Hu) as (q & r & Hn & Hr).
    destruct (split_three data (q * bsz) bsz r Hn)
      as (P & Y & T & -> & HP & HY & HT).
    destruct (cbc_enc q iv P) as [c0 iv1] eqn:Hc.
    destruct (cbc_enc 2 iv1 (Y ++ T ++ Bytes.zeros (bsz - r))) as [E iv2] eqn:HE.
    pose proof (cbc_encrypt_length q iv P Hiv HP) as Hl.
    rewrite Hc in Hl. cbn [fst snd] in Hl. destruct Hl as [Hc0 Hiv1].
    assert (Hpad : length (Y ++ T ++ Bytes.zeros (bsz - r)) = (2 * bsz)%nat)
      by len_solve.
    pose proof (cbc_encrypt_length 2 iv1 _ Hiv1 Hpad) as HlE.
    rewrite HE in HlE. cbn [fst snd] in HlE. destruct HlE as [HlE _].
    destruct (process_encrypt_unaligned m iv P Y T q r c0 iv1 E iv2)
      as (st & Henc & _); try assumption.
    exists (c0 ++ tail_layout m (take r E) (drop bsz E)), st.
    split; [exact Henc|].
    rewrite !length_app, length_tail_layout. len_solve.
  - destruct (aligned_length_split bsz _ bsz_pos Ha) as (q & Hn).
    destruct (Z.eq_dec m CS3) as [-> | Hne].
    + specialize (H3 eq_refl). destruct q as [|q]; [lia|].
      replace (S (S q) * bsz)%nat with ((q + 2) * bsz)%nat in Hn by lia.
      destruct (cbc_enc (q + 2) iv data) as [c' iv'] eqn:Hc.
      pose proof (cbc_encrypt_length (q + 2) iv data Hiv Hn) as Hl.
      rewrite Hc in Hl. cbn [fst snd] in Hl. destruct Hl as [Hlc _].
      destruct (process_encrypt_aligned_CS3 iv data q c' iv' Hiv Hn Hc)
        as (st & Henc & _).
      exists (swap_last_two bsz c'), st. split; [exact Henc|].
      rewrite length_swap_last_two by lia. lia.
    + pose proof (mode_not_CS3 m Hm Hne) as Hm'.
      destruct (cbc_enc (S q) iv data) as [c' iv'] eqn:Hc.
      pose proof (cbc_encrypt_length (S q) iv data Hiv Hn) as Hl.
      rewrite Hc in Hl. cbn [fst snd] in Hl. destruct Hl as [Hlc _].
      exists c'. eexists. split.
      * apply (process_encrypt_aligned m iv data (S q) c' iv'); assumption.
      * lia.
Qed.

Lemma process_decrypt_total iv m data :
  length iv = bsz -> is_mode m -> accepted_length bsz m (length data) ->
  exists out st,
    process_ (decrypter m) iv data = Ok out st /\ length out = length data.
Proof.
  intros Hiv Hm [Hu | [Ha H3]].
  - destruct (unaligned_length_split bsz _ bsz_pos Hu) as (q & r & Hn & Hr).
    destruct (split_for_mode m data q r Hn) as (P & H & F & -> & HP & HH & HF).
    destruct (cbc_dec q iv P) as [p0 iv1] eqn:Hc.
    destruct (cbc_dec 2 iv1 (H ++ drop r (decb F) ++ F)) as [X iv2] eqn:HX.
    pose proof (cbc_decrypt_length q iv P Hiv HP) as Hl.
    rewrite Hc in Hl. cbn [fst snd] in Hl. destruct Hl as [Hp0 Hiv1].
    pose proof (decb_length F HF) as HD.
    assert (Hs : length (H ++ drop r (decb F) ++ F) = (2 * bsz)%nat)
      by len_solve.
    pose proof (cbc_decrypt_length 2 iv1 _ Hiv1 Hs) as HlX.
    rewrite HX in HlX. cbn [fst snd] in HlX. destruct HlX as [HlX _].
    destruct (process_decrypt_unaligned m iv P H F q r p0 iv1 X iv2)
      as (st & Hdec & _); try assumption.
    exists (p0 ++ take (bsz + r) X), st. split; [exact Hdec|].
    rewrite !length_app, length_tail_layout. len_solve.
  - destruct (aligned_length_split bsz _ bsz_pos Ha) as (q & Hn).
    destruct (Z.eq_dec m CS3) as [-> | Hne].
    + specialize (H3 eq_refl). destruct q as [|q]; [lia|].
      replace (S (S q) * bsz)%nat with ((q + 2) * bsz)%nat in Hn by lia.
      destruct (cbc_dec (q + 2) iv (swap_last_two bsz data)) as [p iv'] eqn:Hc.
      pose proof (cbc_decrypt_length (q + 2) iv (swap_last_two bsz data) Hiv) as Hl.
      rewrite Hc, length_swap_last_two in Hl by lia.
      cbn [fst snd] in Hl. destruct (Hl Hn) as [Hlp _].
      exists p. eexists. split.
      * apply (process_decrypt_aligned_CS3 iv data q p iv'); assumption.
      * lia.
    + pose proof (mode_not_CS3 m Hm Hne) as Hm'.
      destruct (cbc_dec (S q) iv data) as [p iv'] eqn:Hc.
      pose proof (cbc_decrypt_length (S q) iv data Hiv Hn) as Hl.
      rewrite Hc in Hl. cbn [fst snd] in Hl. destruct Hl as [Hlp _].
      exists p. eexists. split.
      * apply (process_decrypt_aligned m iv data (S q) p iv'); assumption.
      * lia.
Qed.

Lemma plain_cbc_encrypt_run iv data q c iv' :
  length iv = bsz -> length data = (q * bsz)%nat ->
  cbc_enc q iv data = (c, iv') ->
  plain_cbc_encrypt bsz encb decb iv data = Ok c (State [data; c] iv').
Proof.
  intros Hiv Hd Hc.
  pose proof (cbc_encrypt_length q iv data Hiv Hd) as Hl.
  rewrite Hc in Hl. cbn [fst snd] in Hl. destruct Hl as [Hout _].
  unfold plain_cbc_encrypt, whole. rewrite make_nat. cbn [mem civ length app].
  rewrite Hd.
  codec_enc q data c iv' Hc. lnorm.
  unfold read. mem_simpl. lnorm. reflexivity.
Qed.

(** C6.  Plain chaining on aligned input: for an input of at least two
    whole blocks, the CS1 and the CS2 encoder produce what a plain chained
    encrypter with the same key and IV produces, and the CS3 encoder
    produces that ciphertext with its last two blocks exchanged. *)
Theorem C6_plain_cbc_on_aligned iv data :
  length iv = bsz ->
  (length data mod bsz = 0)%nat -> (2 * bsz <= length data)%nat ->
  process_ (encrypter CS1) iv data = plain_cbc_encrypt bsz encb decb iv data /\
  process_ (encrypter CS2) iv data = plain_cbc_encrypt bsz encb decb iv data /\
  exists c,
    value (plain_cbc_encrypt bsz encb decb iv data) = Some c /\
    value (process_ (encrypter CS3) iv data) = Some (swap_last_two bsz c).
Proof.
  intros Hiv Hmod Hlen.
  destruct (aligned_length_split bsz (length data) bsz_pos) as (q & Hn).
  { split; [lia | exact Hmod]. }
  destruct q as [|q]; [lia|].
  destruct (cbc_enc (S (S q)) iv data) as [c iv'] eqn:Hc.
  rewrite (plain_cbc_encrypt_run iv data (S (S q)) c iv') by assumption.
  rewrite !(process_encrypt_aligned _ iv data (S (S q)) c iv') by auto.
  split; [reflexivity|]. split; [reflexivity|].
  exists c. split; [reflexivity|].
  replace (S (S q)) with (q + 2)%nat in * by lia.
  destruct (process_encrypt_aligned_CS3 iv data q c iv' Hiv Hn Hc)
    as (st & -> & _).
  reflexivity.
Qed.



(** *** Continuation across calls *)

Lemma continues_encrypt iv m p s :
  length iv = bsz -> m = CS1 \/ m = CS2 ->
  aligned_length bsz (length p) -> stated_length bsz (length s) ->
  continues bsz encb decb (encrypter m) iv p s.
Proof.
  intros Hiv Hm Hp Hs.
  assert (Hmode : is_mode m) by (destruct Hm; [left | right; left]; assumption).
  destruct (aligned_length_split bsz _ bsz_pos Hp) as (q1 & Hn1).
  destruct (cbc_enc (S q1) iv p) as [o1 iv1] eqn:Hc1.
  pose proof (cbc_encrypt_length (S q1) iv p Hiv Hn1) as Hl.
  rewrite Hc1 in Hl. cbn [fst snd] in Hl. destruct Hl as [Ho1 Hiv1].
  pose proof (process_encrypt_aligned m iv p (S q1) o1 iv1 Hm Hiv Hn1 Hc1) as H1.
  unfold continues. exists o1, (State [p; o1] iv1). cbn [civ].
  destruct Hs as [Hu | Ha].
  - destruct (unaligned_length_split bsz _ bsz_pos Hu) as (q & r & Hn & Hr).
    destruct (split_three s (q * bsz) bsz r Hn)
      as (P & Y & T & -> & HP & HY & HT).
    destruct (cbc_enc q iv1 P) as [c0 iv2] eqn:Hc.
    destruct (cbc_enc 2 iv2 (Y ++ T ++ Bytes.zeros (bsz - r))) as [E iv3] eqn:HE.
    destruct (process_encrypt_unaligned m iv1 P Y T q r c0 iv2 E iv3)
      as (st2 & H2 & Hiv3); try assumption.
    assert (Happ : cbc_enc (S q1 + q) iv (p ++ P) = (o1 ++ c0, iv2)).
    { rewrite cbc_encrypt_app by exact Hn1. rewrite Hc1, Hc. reflexivity. }
    destruct (process_encrypt_unaligned m iv (p ++ P) Y T (S q1 + q) r
                (o1 ++ c0) iv2 E iv3)
      as (st & H & Hiv3'); try assumption; try len_solve.
    exists (c0 ++ tail_layout m (take r E) (drop bsz E)), st2, st.
    split; [exact H1|]. split; [exact H2|]. split.
    + rewrite <- !app_assoc in H. exact H.
    + congruence.
  - destruct (aligned_length_split bsz _ bsz_pos Ha) as (q2 & Hn2).
    destruct (cbc_enc (S q2) iv1 s) as [o2 iv2] eqn:Hc2.
    assert (Happ : cbc_enc (S q1 + S q2) iv (p ++ s) = (o1 ++ o2, iv2)).
    { rewrite cbc_encrypt_app by exact Hn1. rewrite Hc1, Hc2. reflexivity. }
    exists o2, (State [s; o2] iv2), (State [p ++ s; o1 ++ o2] iv2).
    split; [exact H1|]. split; [|split; [|reflexivity]].
    + apply (process_encrypt_aligned m iv1 s (S q2) o2 iv2); assumption.
    + apply (process_encrypt_aligned m iv (p ++ s) (S q1 + S q2) (o1 ++ o2) iv2);
        try assumption. len_solve.
Qed.

Lemma continues_decrypt iv m p s :
  length iv = bsz -> m = CS1 \/ m = CS2 ->
  aligned_length bsz (length p) -> stated_length bsz (length s) ->
  continues bsz encb decb (decrypter m) iv p s.
Proof.
  intros Hiv Hm Hp Hs.
  assert (Hmode : is_mode m) by (destruct Hm; [left | right; left]; assumption).
  destruct (aligned_length_split bsz _ bsz_pos Hp) as (q1 & Hn1).
  destruct (cbc_dec (S q1) iv p) as [o1 iv1] eqn:Hc1.
  pose proof (cbc_decrypt_length (S q1) iv p Hiv Hn1) as Hl.
  rewrite Hc1 in Hl. cbn [fst snd] in Hl. destruct Hl as [Ho1 Hiv1].
  pose proof (process_decrypt_aligned m iv p (S q1) o1 iv1 Hm Hiv Hn1 Hc1) as H1.
  unfold continues. exists o1, (State [p; o1] iv1). cbn [civ].
  destruct Hs as [Hu | Ha].
  - destruct (unaligned_length_split bsz _ bsz_pos Hu) as (q & r & Hn & Hr).
    destruct (split_for_mode m s q r Hn) as (P & H & F & -> & HP & HH & HF).
    destruct (cbc_dec q iv1 P) as [p0 iv2] eqn:Hc.
    destruct (cbc_dec 2 iv2 (H ++ drop r (decb F) ++ F)) as [X iv3] eqn:HX.
    destruct (process_decrypt_unaligned m iv1 P H F q r p0 iv2 X iv3)
      as (st2 & H2 & Hiv3); try assumption.
    assert (Happ : cbc_dec (S q1 + q) iv (p ++ P) = (o1 ++ p0, iv2)).
    { rewrite cbc_decrypt_app by exact Hn1. rewrite Hc1, Hc. reflexivity. }
    destruct (process_decrypt_unaligned m iv (p ++ P) H F (S q1 + q) r
                (o1 ++ p0) iv2 X iv3)
      as (st & H0 & Hiv3'); try assumption; try len_solve.
    exists (p0 ++ take (bsz + r) X), st2, st.
    split; [exact H1|]. split; [exact H2|]. split.
    + rewrite <- !app_assoc in H0. exact H0.
    + congruence.
  - destruct (aligned_length_split bsz _ bsz_pos Ha) as (q2 & Hn2).
    destruct (cbc_dec (S q2) iv1 s) as [o2 iv2] eqn:Hc2.
    assert (Happ : cbc_dec (S q1 + S q2) iv (p ++ s) = (o1 ++ o2, iv2)).
    { rewrite cbc_decrypt_app by exact Hn1. rewrite Hc1, Hc2. reflexivity. }
    exists o2, (State [s; o2] iv2), (State [p ++ s; o1 ++ o2] iv2).
    split; [exact H1|]. split; [|split; [|reflexivity]].
    + apply (process_decrypt_aligned m iv1 s (S q2) o2 iv2); assumption.
    + apply (process_decrypt_aligned m iv (p ++ s) (S q1 + S q2) (o1 ++ o2) iv2);
        try assumption. len_solve.
Qed.

(** C4, for CS1 and CS2.  Streaming continuation, in both directions: for every split of an input into a non-empty block-aligned
    prefix [p] and a remainder [s] of a valid length, running the transform
    on [p] and then, with the chaining value it left, on [s] produces the
    concatenation that one run on [p ++ s] produces, and leaves the same
    chaining value. *)
Theorem C4_streaming_continuation iv m p s :
  length iv = bsz -> m = CS1 \/ m = CS2 ->
  aligned_length bsz (length p) -> stated_length bsz (length s) ->
  continues bsz encb decb (encrypter m) iv p s /\
  continues bsz encb decb (decrypter m) iv p s.
Proof.
  intros Hiv Hm Hp Hs. split.
  - apply continues_encrypt; assumption.
  - apply continues_decrypt; assumption.
Qed.

(** C8.  Recovery of the stolen bytes.  For an unaligned input [P ++ Y ++ T]
    ([P] whole blocks, [Y] the last full block, [T] the [r] remaining bytes)
    encoded under any policy, the scratch buffer of the decoder, just before
    its final chained decryption, is made of: the [r] transmitted bytes of
    the partial block, untouched; bytes [r, b) of the single-block
    decryption of the transmitted full block; and that full block.  Its
    first block is then the whole chained ciphertext of [Y], of which the
    encoder had sent the first [r] bytes only. *)
Theorem C8_stolen_bytes_recovered iv m P Y T q r :
  length iv = bsz -> is_mode m ->
  length P = (q * bsz)%nat -> length Y = bsz -> length T = r ->
  (0 < r < bsz)%nat ->
  exists c st tmp st',
    process_ (encrypter m) iv (P ++ Y ++ T) = Ok c st /\
    scratch_before_final bsz encb decb (decrypter m) iv c = Ok tmp st' /\
    length tmp = (2 * bsz)%nat /\
    take r tmp =
      take r (drop (q * bsz + (if m =? CS1 then 0 else bsz)) c) /\
    drop bsz tmp =
      take bsz (drop (q * bsz + (if m =? CS1 then r else 0)) c) /\
    drop r (take bsz tmp) = drop r (decb (drop bsz tmp)) /\
    take bsz tmp = encb (Bytes.xorBytes Y (cbc_enc q iv P).2).
Proof.
  intros Hiv Hm HP HY HT Hr.
  destruct (cbc_enc q iv P) as [c0 iv1] eqn:Hc.
  destruct (cbc_enc 2 iv1 (Y ++ T ++ Bytes.zeros (bsz - r))) as [E iv2] eqn:HE.
  pose proof (cbc_encrypt_length q iv P Hiv HP) as Hl.
  rewrite Hc in Hl. cbn [fst snd] in Hl. destruct Hl as [Hc0 Hiv1].
  assert (Hpad : length (Y ++ T ++ Bytes.zeros (bsz - r)) = (2 * bsz)%nat)
    by len_solve.
  pose proof (cbc_encrypt_length 2 iv1 _ Hiv1 Hpad) as HlE.
  rewrite HE in HlE. cbn [fst snd] in HlE. destruct HlE as [HlE _].
  destruct (process_encrypt_unaligned m iv P Y T q r c0 iv1 E iv2)
    as (st & Henc & _); try assumption.
  destruct (stolen_bytes_recovered iv1 Y T r E iv2)
    as (Hfirst & Hrec & Hwhole); try assumption.
  pose proof (cbc_decrypt_encrypt q iv P Hiv HP) as Hd1.
  rewrite Hc in Hd1. cbn [fst snd] in Hd1.
  exists (c0 ++ tail_layout m (take r E) (drop bsz E)), st, E.
  eexists. split; [exact Henc|]. split.
  - unfold scratch_before_final. rewrite make_nat. cbn [mem civ length app].
    erewrite bind_ok
      by (apply (decode_scratch_run m iv c0 (take r E) (drop bsz E) q r P iv1);
          try assumption; len_solve).
    pose proof (decb_length (drop bsz E) ltac:(len_solve)) as HD.
    unfold read. mem_simpl. lnorm. rewrite Hwhole. reflexivity.
  - split; [exact HlE|]. cbn [snd]. unfold tail_layout.
    destruct Hm as [-> | [-> | ->]]; cbn [Z.eqb CS1 CS2 CS3 Pos.eqb];
      (split; [lnorm; reflexivity|]);
      (split; [lnorm; reflexivity|]);
      (split; [symmetry; exact Hrec | exact Hfirst]).
Qed.



(** *** Where the data-size panic can come from *)

Lemma nd_bind {A B} (m : M A) (k : A -> M B) :
  never_datasize m -> (forall a, never_datasize (k a)) ->
  never_datasize (bind m k).
Proof.
  intros Hm Hk st st'. unfold bind. destruct (m st) as [a s1 | e s1] eqn:E.
  - apply Hk.
  - intros Heq. injection Heq as -> ->. exact (Hm _ _ E).
Qed.

Lemma nd_ret {A} (a : A) : never_datasize (ret a).
Proof. intros st st'. discriminate. Qed.

Lemma nd_panic {A} e : e <> ErrDataSize -> never_datasize (@panic A e).
Proof. intros He st st' Heq. injection Heq as -> _. contradiction. Qed.

Lemma nd_slice3 s lo hi : never_datasize (slice3 s lo hi).
Proof. intros st st'. unfold slice3. destruct (_ && _); discriminate. Qed.

Lemma nd_make n : never_datasize (make n).
Proof. intros st st'. unfold make. destruct (n <? 0); discriminate. Qed.

Lemma nd_copy d s : never_datasize (copy d s).
Proof. intros st st'. discriminate. Qed.

Lemma nd_index s i : never_datasize (index s i).
Proof. intros st st'. unfold index. destruct (_ && _); discriminate. Qed.

Lemma nd_set_index s i v : never_datasize (set_index s i v).
Proof. intros st st'. unfold set_index. destruct (_ && _); discriminate. Qed.

Lemma nd_codec kind d s : never_datasize (codec_run kind d s).
Proof.
  intros st st'. unfold codec_CryptBlocks.
  destruct (negb _); [discriminate|].
  destruct (_ <? _); [discriminate|].
  destruct (inexact_overlap _ _); [discriminate|].
  destruct (cbc _ _ _ _ _ _); discriminate.
Qed.

Lemma nd_block d s : never_datasize (block_Decrypt bsz decb d s).
Proof.
  intros st st'. unfold block_Decrypt.
  destruct (_ <? _); [discriminate|].
  destruct (_ <? _); [discriminate|].
  destruct (inexact_overlap _ _); discriminate.
Qed.

Lemma nd_for_up k : forall i body,
  (forall j, never_datasize (body j)) -> never_datasize (for_up k i body).
Proof.
  induction k as [|k IH]; intros i body Hb; cbn [for_up].
  - apply nd_ret.
  - apply nd_bind; [apply Hb | intros _; apply IH; exact Hb].
Qed.

Ltac nd :=
  unfold slice_to, slice_from, for_range;
  repeat first
    [ apply nd_ret | apply nd_slice3 | apply nd_make | apply nd_copy
    | apply nd_codec | apply nd_block | apply nd_index | apply nd_set_index
    | apply nd_panic; discriminate
    | apply nd_for_up; intros ?
    | apply nd_bind; [|intros ?]
    | match goal with
      | |- never_datasize (if ?c then _ else _) => destruct c
      end ].

Lemma rem_small_nat (n : nat) :
  (n < bsz)%nat -> Z.rem (Z.of_nat n) (Z.of_nat bsz) = Z.of_nat n.
Proof. intros H. apply Z.rem_small. lia. Qed.

(** C7.  The minimum size of unaligned input.  Whatever the policy and the
    direction, an input that is not a whole number of blocks and is shorter
    than a block makes the transform raise the data-size panic with the
    memory and the chaining value untouched; an unaligned input of at least
    [b+1] bytes never raises that panic; and being shorter than a block is,
    for unaligned input, the same as [n - b - r] being negative. *)
Theorem C7_minimum_size cd dst src st :
  (len src mod bsz <> 0)%nat ->
  ((len src < bsz)%nat ->
     CryptBlocks bsz encb decb cd dst src st = Panic ErrDataSize st) /\
  ((bsz + 1 <= len src)%nat ->
     forall st', CryptBlocks bsz encb decb cd dst src st <> Panic ErrDataSize st') /\
  ((len src < bsz)%nat <->
     len_ src - BlockSize bsz - Z.rem (len_ src) (BlockSize bsz) < 0).
Proof.
  intros Hmod. split; [|split].
  - intros Hlt.
    assert (Hn0 : len src <> 0%nat).
    { intros H0. apply Hmod. rewrite H0. apply Nat.Div0.mod_0_l. }
    unfold CryptBlocks, encode, decode, decode_scratch, len_, BlockSize.
    rewrite rem_small_nat by exact Hlt.
    replace (Z.of_nat (len src) =? 0) with false by is_false.
    replace (Z.of_nat (len src) + (Z.of_nat bsz - Z.of_nat (len src))
             - 2 * Z.of_nat bsz <? 0) with true
      by (symmetry; apply Z.ltb_lt; lia).
    destruct (encoder cd); reflexivity.
  - intros Hge.
    destruct (unaligned_length_split bsz (len src) bsz_pos (conj Hmod Hge))
      as (q & r & Hn & Hr).
    assert (Hrem : Z.rem (Z.of_nat (len src)) (Z.of_nat bsz) = Z.of_nat r).
    { rewrite Hn. replace (q * bsz + bsz + r)%nat with ((q + 1) * bsz + r)%nat
        by lia. apply rem_of_nat. lia. }
    cut (never_datasize (CryptBlocks bsz encb decb cd dst src)).
    { intros H st'. apply H. }
    unfold CryptBlocks, encode, decode, decode_scratch, len_, BlockSize.
    rewrite Hrem.
    replace (Z.of_nat r =? 0) with false by is_false.
    replace (Z.of_nat (len src) + (Z.of_nat bsz - Z.of_nat r)
             - 2 * Z.of_nat bsz <? 0) with false by is_false.
    destruct (encoder cd); nd.
  - unfold len_, BlockSize. split.
    + intros Hlt. rewrite rem_small_nat by exact Hlt. lia.
    + intros Hneg.
      destruct (Nat.lt_ge_cases (len src) bsz) as [Hlt | Hge]; [exact Hlt|].
      exfalso.
      assert (Hge' : (bsz + 1 <= len src)%nat).
      { destruct (Nat.eq_dec (len src) bsz) as [He | Hne]; [|lia].
        exfalso. apply Hmod. rewrite He. apply Nat.Div0.mod_same. }
      destruct (unaligned_length_split bsz (len src) bsz_pos (conj Hmod Hge'))
        as (q & r & Hn & Hr).
      rewrite Hn in Hneg.
      replace (q * bsz + bsz + r)%nat with ((q + 1) * bsz + r)%nat in Hneg
        by lia.
      rewrite rem_of_nat in Hneg by lia. lia.
Qed.

(** C10.  Empty input.  On an empty source, the encoder and the decoder
    under CS1 and CS2 return, produce no byte and leave the chaining value
    as it was; under CS3 the empty source takes the aligned path, which
    wants two blocks, and stops on a slice out of range. *)
Theorem C10_empty_input iv m :
  (m = CS1 \/ m = CS2 ->
     process_ (encrypter m) iv [] = Ok [] (State [[]; []] iv) /\
     process_ (decrypter m) iv [] = Ok [] (State [[]; []] iv)) /\
  process_ (encrypter CS3) iv [] =
    Panic ErrBounds (State [[]; []; Bytes.zeros bsz] iv) /\
  process_ (decrypter CS3) iv [] = Panic ErrBounds (State [[]; []] iv).
Proof.
  assert (He : cbc_enc 0 iv [] = ([], iv)) by reflexivity.
  assert (Hd : cbc_dec 0 iv [] = ([], iv)) by reflexivity.
  split; [|split].
  - intros Hm. split.
    + unfold process. change (Z.of_nat (length [])) with (Z.of_nat 0).
      rewrite make_nat. cbn [mem civ length app].
      unfold CryptBlocks, encode, whole, len_, encrypter. cbn [encoder len length].
      change (Z.of_nat 0) with 0. change (Z.rem 0 (BlockSize bsz)) with 0.
      cbn [Z.eqb codec mode].
      rewrite bind_assoc.
      rewrite (codec_enc_bind _ _ 0%nat (@nil byte) (@nil byte) iv)
        by first [ exact He | reflexivity | cbn [len]; lia | left; discriminate ].
      destruct Hm as [-> | ->]; reflexivity.
    + unfold process. change (Z.of_nat (length [])) with (Z.of_nat 0).
      rewrite make_nat. cbn [mem civ length app].
      unfold CryptBlocks, decode, whole, len_, decrypter. cbn [encoder len length].
      change (Z.of_nat 0) with 0. change (Z.rem 0 (BlockSize bsz)) with 0.
      cbn [Z.eqb codec mode].
      replace ((m =? CS1) || (m =? CS2)) with true
        by (destruct Hm as [-> | ->]; reflexivity).
      rewrite (codec_dec_bind _ _ 0%nat (@nil byte) (@nil byte) iv)
        by first [ exact Hd | reflexivity | cbn [len]; lia | left; discriminate ].
      reflexivity.
  - unfold process. change (Z.of_nat (length [])) with (Z.of_nat 0).
    rewrite make_nat. cbn [mem civ length app].
    unfold CryptBlocks, encode, whole, len_, encrypter. cbn [encoder len length].
    change (Z.of_nat 0) with 0. change (Z.rem 0 (BlockSize bsz)) with 0.
    cbn [Z.eqb codec mode CS1 CS2 CS3 Pos.eqb orb].
    rewrite bind_assoc.
    rewrite (codec_enc_bind _ _ 0%nat (@nil byte) (@nil byte) iv)
        by first [ exact He | reflexivity | cbn [len]; lia | left; discriminate ].
    rewrite bind_assoc. unfold BlockSize. rewrite make_nat.
    cbn [mem civ length app].
    rewrite bind_assoc, slice3_negative by lia. reflexivity.
  - unfold process. change (Z.of_nat (length [])) with (Z.of_nat 0).
    rewrite make_nat. cbn [mem civ length app].
    unfold CryptBlocks, decode, whole, len_, decrypter. cbn [encoder len length].
    change (Z.of_nat 0) with 0. change (Z.rem 0 (BlockSize bsz)) with 0.
    cbn [Z.eqb codec mode CS1 CS2 CS3 Pos.eqb orb].
    rewrite bind_assoc, slice_to_negative by (unfold BlockSize; lia).
    reflexivity.
Qed.



(** C5.  CS2 is adaptive: on a block-aligned source a CS2 transform does,
    byte for byte and panic for panic, what the CS1 transform does, and on
    an unaligned source what the CS3 transform does.  This holds for the
    encoder and the decoder, on any two windows and from any state, hence
    also for a caller with a fresh output buffer. *)
Theorem C5_CS2_adaptive (e : bool) (k : codec_kind) :
  (forall dst src st,
     CryptBlocks bsz encb decb (Cbccts e k CS2) dst src st =
     CryptBlocks bsz encb decb
       (Cbccts e k (if (len src mod bsz =? 0)%nat then CS1 else CS3))
       dst src st) /\
  (forall chain data,
     process_ (Cbccts e k CS2) chain data =
     process_ (Cbccts e k (if (length data mod bsz =? 0)%nat then CS1 else CS3))
       chain data).
Proof.
  assert (H : forall dst src st,
     CryptBlocks bsz encb decb (Cbccts e k CS2) dst src st =
     CryptBlocks bsz encb decb
       (Cbccts e k (if (len src mod bsz =? 0)%nat then CS1 else CS3))
       dst src st).
  { intros dst src st.
    unfold CryptBlocks, encode, decode, decode_scratch, len_, BlockSize.
    cbn [encoder codec mode].
    rewrite rem_eqb_nat.
    destruct (len src mod bsz =? 0)%nat; cbn [mode]; reflexivity. }
  split; [exact H|].
  intros chain data. unfold process, bind, whole.
  destruct (make _ _) as [out st | e0 st]; [|reflexivity].
  rewrite H. reflexivity.
Qed.

(** C3.  CS3 on one aligned block: the code does not raise the data-size
    panic.  The encoder chains the block into the output buffer, advances
    the chaining value, and then stops on a slice out of range; the decoder
    stops on a slice out of range before writing anything. *)
Theorem C3_CS3_single_block iv data :
  length iv = bsz ->
  (0 < length data < 2 * bsz)%nat -> (length data mod bsz = 0)%nat ->
  process_ (encrypter CS3) iv data =
    Panic ErrBounds
      (State [data; encb (Bytes.xorBytes data iv); Bytes.zeros bsz]
             (encb (Bytes.xorBytes data iv))) /\
  process_ (decrypter CS3) iv data =
    Panic ErrBounds (State [data; Bytes.zeros bsz] iv).
Proof.
  intros Hiv Hlen Hmod.
  destruct (aligned_length_split bsz (length data) bsz_pos) as (q & Hn).
  { split; [lia | exact Hmod]. }
  assert (Hq : q = 0%nat) by nia. subst q.
  assert (Hd : length data = bsz) by lia.
  assert (Hx : length (encb (Bytes.xorBytes data iv)) = bsz)
    by (apply encb_length; rewrite length_xorBytes; lia).
  assert (Hc : cbc_enc 1 iv data =
               (encb (Bytes.xorBytes data iv), encb (Bytes.xorBytes data iv))).
  { cbn [cbc_encrypt]. rewrite take_ge, app_nil_r by lia. reflexivity. }
  split.
  - apply process_panic.
    unfold CryptBlocks, encode, whole, len_, BlockSize, encrypter.
    cbn [encoder codec mode len]. rewrite !Hd.
    rewrite Z.rem_same by lia.
    cbn [Z.eqb CS1 CS2 CS3 Pos.eqb orb].
    codec_enc 1%nat data (encb (Bytes.xorBytes data iv))
              (encb (Bytes.xorBytes data iv)) Hc.
    lnorm. step.
    rewrite slice3_negative by lia. reflexivity.
  - apply process_panic.
    unfold CryptBlocks, decode, whole, len_, BlockSize, decrypter.
    cbn [encoder codec mode len]. rewrite !Hd.
    rewrite Z.rem_same by lia.
    cbn [Z.eqb CS1 CS2 CS3 Pos.eqb orb].
    rewrite slice_to_negative by lia. reflexivity.
Qed.

(** *** Runs in place: destination and source are the same buffer *)

Lemma overlay_loop_inplace k : forall i a0 Ta Da iv,
  (i + k = bsz)%nat -> length Ta = (2 * bsz)%nat -> length Da = bsz ->
  for_up k (Z.of_nat i)
    (fun j => v <- index (Slice 2 0 bsz bsz) j ;;
              set_index (Slice 1 0 (2 * bsz) (2 * bsz)) j v)
    (State [a0; Ta; Da] iv) =
  Ok tt (State [a0; take i Ta ++ drop i Da ++ drop bsz Ta; Da] iv).
Proof.
  induction k as [|k IH]; intros i a0 Ta Da iv Hi HT HD; cbn [for_up].
  - replace i with bsz by lia.
    rewrite (drop_ge Da) by lia. cbn [app]. rewrite take_drop. reflexivity.
  - rewrite bind_assoc, index_nat by (cbn [len]; lia).
    rewrite set_index_nat by (cbn [len]; lia).
    mem_simpl. lnorm. cbn [length].
    replace (Z.of_nat i + 1) with (Z.of_nat (i + 1)) by lia.
    rewrite IH by (len_simpl; cbn [length]; lia).
    destruct (lookup_lt_is_Some_2 Da i ltac:(lia)) as [x Hx].
    rewrite (nth_lookup_Some _ _ _ _ Hx), (drop_S _ _ _ Hx).
    assert (Hl : length (take i Ta ++ [x]) = (i + 1)%nat)
      by (len_simpl; cbn [length]; lia).
    rewrite (app_assoc (take i Ta) [x]).
    rewrite take_app_length' by (symmetry; exact Hl).
    rewrite drop_app_ge by lia.
    rewrite Hl, drop_drop, <- app_assoc.
    replace (i + 1 + (bsz - (i + 1)))%nat with bsz by lia.
    replace (i + 1)%nat with (S i) by lia. reflexivity.
Qed.

Lemma encode_inplace_aligned m iv data q out iv' :
  m = CS1 \/ m = CS2 ->
  length iv = bsz -> length data = (q * bsz)%nat ->
  cbc_enc q iv data = (out, iv') ->
  encode_ (encrypter m) (whole data) (whole data) (State [data] iv) =
  Ok tt (State [out] iv').
Proof.
  intros Hm Hiv Hd Hc.
  pose proof (cbc_encrypt_length q iv data Hiv Hd) as Hl.
  rewrite Hc in Hl. cbn [fst snd] in Hl. destruct Hl as [Hout Hiv'].
  unfold whole, encode. cbn [encoder codec mode encrypter].
  unfold len_, BlockSize. cbn [len]. rewrite !Hd.
  rewrite rem_of_blocks by lia. cbn [Z.eqb].
  codec_enc q data out iv' Hc. lnorm.
  destruct Hm as [-> | ->]; reflexivity.
Qed.

Lemma encode_inplace_aligned_CS3 iv data q cP cY cZ iv' :
  length iv = bsz -> length data = ((q + 2) * bsz)%nat ->
  length cP = (q * bsz)%nat -> length cY = bsz -> length cZ = bsz ->
  cbc_enc (q + 2) iv data = (cP ++ cY ++ cZ, iv') ->
  encode_ (encrypter CS3) (whole data) (whole data) (State [data] iv) =
  Ok tt (State [cP ++ cZ ++ cY; cY] iv').
Proof.
  intros Hiv Hd HP HY HZ Hc.
  unfold whole, encode. cbn [encoder codec mode encrypter].
  unfold len_, BlockSize. cbn [len]. rewrite !Hd.
  rewrite rem_of_blocks by lia. cbn [Z.eqb CS1 CS2 CS3 Pos.eqb orb].
  replace (Z.of_nat ((q + 2) * bsz) - 2 * Z.of_nat bsz)
    with (Z.of_nat (q * bsz)) by lia.
  replace (Z.of_nat ((q + 2) * bsz) - Z.of_nat bsz)
    with (Z.of_nat (q * bsz + bsz)) by lia.
  codec_enc (q + 2)%nat data (cP ++ cY ++ cZ) iv' Hc. lnorm.
  repeat step. reflexivity.
Qed.

Lemma encode_inplace_unaligned m iv P Y T q r c0 iv1 E iv2 :
  is_mode m ->
  length iv = bsz -> length P = (q * bsz)%nat -> length Y = bsz ->
  length T = r -> (0 < r < bsz)%nat ->
  cbc_enc q iv P = (c0, iv1) ->
  cbc_enc 2 iv1 (Y ++ T ++ Bytes.zeros (bsz - r)) = (E, iv2) ->
  encode_ (encrypter m) (whole (P ++ Y ++ T)) (whole (P ++ Y ++ T))
    (State [P ++ Y ++ T] iv) =
  Ok tt (State [c0 ++ tail_layout m (take r E) (drop bsz E); E] iv2).
Proof.
  intros Hm Hiv HP HY HT Hr Hc HE.
  pose proof (cbc_encrypt_length q iv P Hiv HP) as Hlc.
  rewrite Hc in Hlc. cbn [fst snd] in Hlc. destruct Hlc as [Hc0 Hiv1].
  assert (Hpad : length (Y ++ T ++ Bytes.zeros (bsz - r)) = (2 * bsz)%nat)
    by len_solve.
  pose proof (cbc_encrypt_length 2 iv1 _ Hiv1 Hpad) as HlE.
  rewrite HE in HlE. cbn [fst snd] in HlE. destruct HlE as [HlE Hiv2].
  assert (Hn : length (P ++ Y ++ T) = ((q + 1) * bsz + r)%nat) by len_solve.
  unfold whole. rewrite !Hn.
  unfold encode. cbn [encoder codec mode encrypter].
  unfold len_, BlockSize. cbn [len].
  rewrite rem_of_nat by lia.
  replace (Z.of_nat r =? 0) with false by is_false.
  replace (Z.of_nat ((q + 1) * bsz + r) + (Z.of_nat bsz - Z.of_nat r)
           - 2 * Z.of_nat bsz) with (Z.of_nat (q * bsz)) by lia.
  replace (Z.of_nat ((q + 1) * bsz + r) + (Z.of_nat bsz - Z.of_nat r)
           - Z.of_nat bsz) with (Z.of_nat (q * bsz + bsz)) by lia.
  replace (Z.of_nat (q * bsz) <? 0) with false by is_false.
  replace (2 * Z.of_nat bsz) with (Z.of_nat (2 * bsz)) by lia.
  replace (Z.of_nat bsz + Z.of_nat r) with (Z.of_nat (bsz + r)) by lia.
  replace (Z.of_nat (q * bsz) + Z.of_nat r) with (Z.of_nat (q * bsz + r)) by lia.
  do 2 step.
  codec_enc q P c0 iv1 Hc. lnorm.
  do 4 step. len_simpl; len_hyps.
  replace (2 * bsz - (bsz + r))%nat with (bsz - r)%nat by lia.
  codec_enc 2%nat (Y ++ T ++ replicate (bsz - r) Bytes.zero) E iv2 HE. lnorm.
  unfold tail_layout.
  destruct Hm as [-> | [-> | ->]]; cbn [Z.eqb CS1 CS2 CS3 Pos.eqb orb];
    repeat step; reflexivity.
Qed.

Lemma decode_inplace_aligned m iv data q out iv' :
  m = CS1 \/ m = CS2 ->
  length iv = bsz -> length data = (q * bsz)%nat ->
  cbc_dec q iv data = (out, iv') ->
  decode_ (decrypter m) (whole data) (whole data) (State [data] iv) =
  Ok tt (State [out] iv').
Proof.
  intros Hm Hiv Hd Hc.
  pose proof (cbc_decrypt_length q iv data Hiv Hd) as Hl.
  rewrite Hc in Hl. cbn [fst snd] in Hl. destruct Hl as [Hout Hiv'].
  unfold whole, decode. cbn [encoder codec mode decrypter].
  unfold len_, BlockSize. cbn [len]. rewrite !Hd.
  rewrite rem_of_blocks by lia. cbn [Z.eqb].
  replace ((m =? CS1) || (m =? CS2)) with true
    by (destruct Hm as [-> | ->]; reflexivity).
  as_bind.
  codec_dec q data out iv' Hc. lnorm. reflexivity.
Qed.

(** In place, the swap of the CS3 decoder loses the block before the last:
    what is decrypted is [P ++ Z ++ Z], not [P ++ Z ++ Y]. *)
Lemma decode_inplace_aligned_CS3 iv P Y Z q out iv' :
  length iv = bsz ->
  length P = (q * bsz)%nat -> length Y = bsz -> length Z = bsz ->
  cbc_dec (q + 2) iv (P ++ Z ++ Z) = (out, iv') ->
  decode_ (decrypter CS3) (whole (P ++ Y ++ Z)) (whole (P ++ Y ++ Z))
    (State [P ++ Y ++ Z] iv) =
  Ok tt (State [out] iv').
Proof.
  intros Hiv HP HY HZ Hc.
  assert (Hs : length (P ++ Z ++ Z) = ((q + 2) * bsz)%nat) by len_solve.
  pose proof (cbc_decrypt_length (q + 2) iv _ Hiv Hs) as Hl.
  rewrite Hc in Hl. cbn [fst snd] in Hl. destruct Hl as [Hout Hiv'].
  assert (Hn : length (P ++ Y ++ Z) = ((q + 2) * bsz)%nat) by len_solve.
  unfold whole. rewrite !Hn.
  unfold decode. cbn [encoder codec mode decrypter].
  unfold len_, BlockSize. cbn [len].
  rewrite rem_of_blocks by lia. cbn [Z.eqb CS1 CS2 CS3 Pos.eqb orb].
  replace (Z.of_nat ((q + 2) * bsz) - 2 * Z.of_nat bsz)
    with (Z.of_nat (q * bsz)) by lia.
  replace (Z.of_nat ((q + 2) * bsz) - Z.of_nat bsz)
    with (Z.of_nat (q * bsz + bsz)) by lia.
  do 9 step.
  as_bind.
  codec_dec (q + 2)%nat (P ++ Z ++ Z) out iv' Hc. lnorm. reflexivity.
Qed.

Lemma decode_inplace_unaligned m iv P H F q r p0 iv1 X iv2 :
  is_mode m ->
  length iv = bsz -> length P = (q * bsz)%nat ->
  length H = r -> length F = bsz -> (0 < r < bsz)%nat ->
  cbc_dec q iv P = (p0, iv1) ->
  cbc_dec 2 iv1 (H ++ drop r (decb F) ++ F) = (X, iv2) ->
  decode_ (decrypter m)
    (whole (P ++ tail_layout m H F)) (whole (P ++ tail_layout m H F))
    (State [P ++ tail_layout m H F] iv) =
  Ok tt (State [p0 ++ take (bsz + r) X; X; decb F] iv2).
Proof.
  intros Hm Hiv HP HH HF Hr Hc HX.
  pose proof (cbc_decrypt_length q iv P Hiv HP) as Hl.
  rewrite Hc in Hl. cbn [fst snd] in Hl. destruct Hl as [Hp0 Hiv1].
  pose proof (decb_length F HF) as HD.
  assert (Hs : length (H ++ drop r (decb F) ++ F) = (2 * bsz)%nat) by len_solve.
  pose proof (cbc_decrypt_length 2 iv1 _ Hiv1 Hs) as HlX.
  rewrite HX in HlX. cbn [fst snd] in HlX. destruct HlX as [HlX Hiv2].
  assert (Hn : length (P ++ tail_layout m H F) = ((q + 1) * bsz + r)%nat)
    by (rewrite length_app, length_tail_layout; lia).
  unfold whole. rewrite !Hn.
  unfold decode, decode_scratch. cbn [encoder codec mode decrypter].
  unfold len_, BlockSize. cbn [len].
  rewrite rem_of_nat by lia.
  replace (Z.of_nat r =? 0) with false by is_false.
  replace (Z.of_nat ((q + 1) * bsz + r) + (Z.of_nat bsz - Z.of_nat r)
           - 2 * Z.of_nat bsz) with (Z.of_nat (q * bsz)) by lia.
  replace (Z.of_nat ((q + 1) * bsz + r) + (Z.of_nat bsz - Z.of_nat r)
           - Z.of_nat bsz) with (Z.of_nat (q * bsz + bsz)) by lia.
  replace (Z.of_nat (q * bsz) <? 0) with false by is_false.
  replace (2 * Z.of_nat bsz) with (Z.of_nat (2 * bsz)) by lia.
  replace (Z.of_nat (q * bsz) + Z.of_nat r) with (Z.of_nat (q * bsz + r)) by lia.
  unfold tail_layout.
  repeat step.
  destruct Hm as [-> | [-> | ->]]; cbn [Z.eqb CS1 CS2 CS3 Pos.eqb orb].
  all: codec_dec q P p0 iv1 Hc; lnorm.
  all: repeat step.
  all: rewrite block_Decrypt_bind by (cbn [len arr]; first [lia | discriminate]).
  all: mem_simpl; lnorm.
  all: unfold for_range;
       replace (Z.to_nat (Z.of_nat bsz - Z.of_nat r)) with (bsz - r)%nat by lia.
  all: rewrite bind_assoc.
  all: erewrite bind_ok by (apply overlay_loop_inplace; len_solve).
  all: rewrite ret_bind; lnorm.
  all: codec_dec 2%nat (H ++ drop r (decb F) ++ F) X iv2 HX; lnorm.
  all: repeat step.
  all: replace ((q + 1) * bsz + r - q * bsz)%nat with (bsz + r)%nat by lia.
  all: reflexivity.
Qed.

Lemma process_inplace_ok cd iv data st' :
  CryptBlocks bsz encb decb cd (whole data) (whole data) (State [data] iv)
    = Ok tt st' ->
  process_inplace bsz encb decb cd iv data = Ok (load st' (whole data)) st'.
Proof.
  intros H. unfold process_inplace.
  erewrite bind_ok by exact H. reflexivity.
Qed.

Lemma whole_load_inplace data out rest iv :
  length out = length data ->
  load (State (out :: rest) iv) (whole data) = out.
Proof.
  intros H. unfold whole. rewrite load_0, drop_0. apply take_ge. lia.
Qed.

(** X1.  The encoder gives the same bytes in place as into a separate buffer,
    under every policy. *)
Lemma inplace_agrees_encrypt iv m data :
  length iv = bsz -> is_mode m -> accepted_length bsz m (length data) ->
  exists out st st',
    process_ (encrypter m) iv data = Ok out st /\
    process_inplace bsz encb decb (encrypter m) iv data = Ok out st' /\
    civ st = civ st'.
Proof.
  intros Hiv Hm [Hu | [Ha H3]].
  - destruct (unaligned_length_split bsz _ bsz_pos Hu) as (q & r & Hn & Hr).
    destruct (split_three data (q * bsz) bsz r Hn)
      as (P & Y & T & -> & HP & HY & HT).
    destruct (cbc_enc q iv P) as [c0 iv1] eqn:Hc.
    destruct (cbc_enc 2 iv1 (Y ++ T ++ Bytes.zeros (bsz - r))) as [E iv2] eqn:HE.
    pose proof (cbc_encrypt_length q iv P Hiv HP) as Hl.
    rewrite Hc in Hl. cbn [fst snd] in Hl. destruct Hl as [Hc0 Hiv1].
    assert (Hpad : length (Y ++ T ++ Bytes.zeros (bsz - r)) = (2 * bsz)%nat)
      by len_solve.
    pose proof (cbc_encrypt_length 2 iv1 _ Hiv1 Hpad) as HlE.
    rewrite HE in HlE. cbn [fst snd] in HlE. destruct HlE as [HlE _].
    destruct (process_encrypt_unaligned m iv P Y T q r c0 iv1 E iv2)
      as (st & Henc & Hciv); try assumption.
    exists (c0 ++ tail_layout m (take r E) (drop bsz E)), st. eexists.
    split; [exact Henc|]. split.
    + erewrite process_inplace_ok
        by (unfold CryptBlocks; cbn [encoder encrypter];
            apply (encode_inplace_unaligned m iv P Y T q r c0 iv1 E iv2);
            assumption).
      rewrite whole_load_inplace; [reflexivity|].
      rewrite !length_app, length_tail_layout. len_solve.
    + exact Hciv.
  - destruct (aligned_length_split bsz _ bsz_pos Ha) as (q & Hn).
    destruct (Z.eq_dec m CS3) as [-> | Hne].
    + specialize (H3 eq_refl). destruct q as [|q]; [lia|].
      replace (S (S q) * bsz)%nat with ((q + 2) * bsz)%nat in Hn by lia.
      destruct (cbc_enc (q + 2) iv data) as [c iv'] eqn:Hc.
      pose proof (cbc_encrypt_length (q + 2) iv data Hiv Hn) as Hl.
      rewrite Hc in Hl. cbn [fst snd] in Hl. destruct Hl as [Hlc _].
      destruct (process_encrypt_aligned_CS3 iv data q c iv' Hiv Hn Hc)
        as (st & Henc & Hciv).
      destruct (split_three c (q * bsz) bsz bsz ltac:(lia))
        as (cP & cY & cZ & -> & HP & HY & HZ).
      exists (swap_last_two bsz (cP ++ cY ++ cZ)), st. eexists.
      split; [exact Henc|].
      split.
      * erewrite process_inplace_ok
          by (unfold CryptBlocks; cbn [encoder encrypter];
              apply (encode_inplace_aligned_CS3 iv data q cP cY cZ iv');
              assumption).
        rewrite whole_load_inplace by len_solve.
        rewrite swap_last_two_app by assumption. reflexivity.
      * exact Hciv.
    + pose proof (mode_not_CS3 m Hm Hne) as Hm'.
      destruct (cbc_enc (S q) iv data) as [c iv'] eqn:Hc.
      pose proof (cbc_encrypt_length (S q) iv data Hiv Hn) as Hl.
      rewrite Hc in Hl. cbn [fst snd] in Hl. destruct Hl as [Hlc _].
      exists c. do 2 eexists. split; [|split].
      * apply (process_encrypt_aligned m iv data (S q) c iv'); assumption.
      * erewrite process_inplace_ok
          by (unfold CryptBlocks; cbn [encoder encrypter];
              apply (encode_inplace_aligned m iv data (S q) c iv');
              assumption).
        rewrite whole_load_inplace by lia. reflexivity.
      * reflexivity.
Qed.

(** X2.  So does the decoder, on unaligned input under every policy and on
    aligned input under CS1 and CS2. *)
Lemma inplace_agrees_decrypt iv m data :
  length iv = bsz -> is_mode m ->
  unaligned_length bsz (length data) \/
  (aligned_length bsz (length data) /\ m <> CS3) ->
  exists out st st',
    process_ (decrypter m) iv data = Ok out st /\
    process_inplace bsz encb decb (decrypter m) iv data = Ok out st' /\
    civ st = civ st'.
Proof.
  intros Hiv Hm [Hu | [Ha Hne]].
  - destruct (unaligned_length_split bsz _ bsz_pos Hu) as (q & r & Hn & Hr).
    destruct (split_for_mode m data q r Hn) as (P & H & F & -> & HP & HH & HF).
    destruct (cbc_dec q iv P) as [p0 iv1] eqn:Hc.
    destruct (cbc_dec 2 iv1 (H ++ drop r (decb F) ++ F)) as [X iv2] eqn:HX.
    pose proof (cbc_decrypt_length q iv P Hiv HP) as Hl.
    rewrite Hc in Hl. cbn [fst snd] in Hl. destruct Hl as [Hp0 Hiv1].
    pose proof (decb_length F HF) as HD.
    assert (Hs : length (H ++ drop r (decb F) ++ F) = (2 * bsz)%nat)
      by len_solve.
    pose proof (cbc_decrypt_length 2 iv1 _ Hiv1 Hs) as HlX.
    rewrite HX in HlX. cbn [fst snd] in HlX. destruct HlX as [HlX _].
    destruct (process_decrypt_unaligned m iv P H F q r p0 iv1 X iv2)
      as (st & Hdec & Hciv); try assumption.
    exists (p0 ++ take (bsz + r) X), st. eexists.
    split; [exact Hdec|]. split.
    + erewrite process_inplace_ok
        by (unfold CryptBlocks; cbn [encoder decrypter];
            apply (decode_inplace_unaligned m iv P H F q r p0 iv1 X iv2);
            assumption).
      rewrite whole_load_inplace; [reflexivity|].
      rewrite !length_app, length_tail_layout. len_solve.
    + exact Hciv.
  - destruct (aligned_length_split bsz _ bsz_pos Ha) as (q & Hn).
    pose proof (mode_not_CS3 m Hm Hne) as Hm'.
    destruct (cbc_dec (S q) iv data) as [p iv'] eqn:Hc.
    pose proof (cbc_decrypt_length (S q) iv data Hiv Hn) as Hl.
    rewrite Hc in Hl. cbn [fst snd] in Hl. destruct Hl as [Hlp _].
    exists p. do 2 eexists. split; [|split].
    + apply (process_decrypt_aligned m iv data (S q) p iv'); assumption.
    + erewrite process_inplace_ok
        by (unfold CryptBlocks; cbn [encoder decrypter];
            apply (decode_inplace_aligned m iv data (S q) p iv');
            assumption).
      rewrite whole_load_inplace by lia. reflexivity.
    + reflexivity.
Qed.

(** X3.  The CS3 decoder on aligned input: into a separate buffer it decrypts the
    input with its last two blocks exchanged; in place it decrypts the input
    with its last block written twice. *)
Lemma inplace_differs_decrypt_CS3 iv P Y Z q :
  length iv = bsz ->
  length P = (q * bsz)%nat -> length Y = bsz -> length Z = bsz ->
  value (process_ (decrypter CS3) iv (P ++ Y ++ Z)) =
    Some (cbc_dec (q + 2) iv (P ++ Z ++ Y)).1 /\
  value (process_inplace bsz encb decb (decrypter CS3) iv (P ++ Y ++ Z)) =
    Some (cbc_dec (q + 2) iv (P ++ Z ++ Z)).1.
Proof.
  intros Hiv HP HY HZ.
  assert (Hn : length (P ++ Y ++ Z) = ((q + 2) * bsz)%nat) by len_solve.
  split.
  - destruct (cbc_dec (q + 2) iv (P ++ Z ++ Y)) as [p iv'] eqn:Hc.
    rewrite (process_decrypt_aligned_CS3 iv (P ++ Y ++ Z) q p iv' Hiv Hn).
    + reflexivity.
    + rewrite swap_last_two_app by assumption. exact Hc.
  - destruct (cbc_dec (q + 2) iv (P ++ Z ++ Z)) as [p iv'] eqn:Hc.
    assert (Hs : length (P ++ Z ++ Z) = ((q + 2) * bsz)%nat) by len_solve.
    pose proof (cbc_decrypt_length (q + 2) iv _ Hiv Hs) as Hl.
    rewrite Hc in Hl. cbn [fst snd] in Hl. destruct Hl as [Hlp _].
    erewrite process_inplace_ok
      by (unfold CryptBlocks; cbn [encoder decrypter];
          apply (decode_inplace_aligned_CS3 iv P Y Z q p iv'); assumption).
    rewrite whole_load_inplace by lia. reflexivity.
Qed.

(** ** Further properties of the transform *)

(** *** Which lengths fail, and how *)

Lemma CryptBlocks_short_unaligned cd dst src st :
  (len src mod bsz <> 0)%nat -> (len src < bsz)%nat ->
  CryptBlocks bsz encb decb cd dst src st = Panic ErrDataSize st.
Proof.
  intros Hmod Hlt.
  assert (Hn0 : len src <> 0%nat).
  { intros H0. apply Hmod. rewrite H0. apply Nat.Div0.mod_0_l. }
  unfold CryptBlocks, encode, decode, decode_scratch, len_, BlockSize.
  rewrite Z.rem_small by lia.
  replace (Z.of_nat (len src) =? 0) with false by is_false.
  replace (Z.of_nat (len src) + (Z.of_nat bsz - Z.of_nat (len src))
           - 2 * Z.of_nat bsz <? 0) with true
    by (symmetry; apply Z.ltb_lt; lia).
  destruct (encoder cd); reflexivity.
Qed.

(** *** Encoder and decoder stay in step *)

Lemma tail_layout_same m m' (H F : list byte) :
  (m =? CS1) = (m' =? CS1) -> tail_layout m H F = tail_layout m' H F.
Proof. intros E. unfold tail_layout. rewrite E. reflexivity. Qed.

Lemma decode_of_encode_unaligned iv m m' data :
  length iv = bsz -> is_mode m -> is_mode m' -> (m =? CS1) = (m' =? CS1) ->
  unaligned_length bsz (length data) ->
  exists c st st',
    process_ (encrypter m) iv data = Ok c st /\
    process_ (decrypter m') iv c = Ok data st' /\
    civ st' = civ st /\ length (civ st) = bsz.
Proof.
  intros Hiv Hm Hm' Hlay Hu.
  destruct (unaligned_length_split bsz _ bsz_pos Hu) as (q & r & Hn & Hr).
  destruct (split_three data (q * bsz) bsz r Hn)
    as (P & Y & T & -> & HP & HY & HT).
  destruct (cbc_enc q iv P) as [c0 iv1] eqn:Hc.
  destruct (cbc_enc 2 iv1 (Y ++ T ++ Bytes.zeros (bsz - r))) as [E iv2] eqn:HE.
  pose proof (cbc_encrypt_length q iv P Hiv HP) as Hl.
  rewrite Hc in Hl. cbn [fst snd] in Hl. destruct Hl as [Hc0 Hiv1].
  assert (Hpad : length (Y ++ T ++ Bytes.zeros (bsz - r)) = (2 * bsz)%nat)
    by len_solve.
  pose proof (cbc_encrypt_length 2 iv1 _ Hiv1 Hpad) as HlE.
  rewrite HE in HlE. cbn [fst snd] in HlE. destruct HlE as [HlE Hiv2].
  destruct (process_encrypt_unaligned m iv P Y T q r c0 iv1 E iv2)
    as (st & Henc & Hst); try assumption.
  destruct (stolen_bytes_recovered iv1 Y T r E iv2) as (_ & _ & Hrec);
    try assumption.
  pose proof (cbc_decrypt_encrypt q iv P Hiv HP) as Hd1.
  rewrite Hc in Hd1. cbn [fst snd] in Hd1.
  pose proof (cbc_decrypt_encrypt 2 iv1 _ Hiv1 Hpad) as Hd2.
  rewrite HE in Hd2. cbn [fst snd] in Hd2.
  destruct (process_decrypt_unaligned m' iv c0 (take r E) (drop bsz E) q r
              P iv1 (Y ++ T ++ Bytes.zeros (bsz - r)) iv2)
    as (st' & Hdec & Hst'); try assumption; try len_solve.
  { rewrite Hrec. exact Hd2. }
  exists (c0 ++ tail_layout m (take r E) (drop bsz E)), st, st'.
  split; [exact Henc|]. split.
  - rewrite (tail_layout_same m m' _ _ Hlay), Hdec. lnorm. reflexivity.
  - split; congruence.
Qed.

Lemma decode_of_encode_aligned iv m m' data :
  length iv = bsz -> m = CS1 \/ m = CS2 -> m' = CS1 \/ m' = CS2 ->
  aligned_length bsz (length data) ->
  exists c st st',
    process_ (encrypter m) iv data = Ok c st /\
    process_ (decrypter m') iv c = Ok data st' /\
    civ st' = civ st /\ length (civ st) = bsz.
Proof.
  intros Hiv Hm Hm' Ha.
  destruct (aligned_length_split bsz _ bsz_pos Ha) as (q & Hn).
  destruct (cbc_enc (S q) iv data) as [c iv'] eqn:Hc.
  pose proof (cbc_encrypt_length (S q) iv data Hiv Hn) as Hl.
  rewrite Hc in Hl. cbn [fst snd] in Hl. destruct Hl as [Hlc Hiv'].
  pose proof (cbc_decrypt_encrypt (S q) iv data Hiv Hn) as Hd.
  rewrite Hc in Hd. cbn [fst snd] in Hd.
  exists c, (State [data; c] iv'), (State [c; data] iv').
  split; [|split; [|split; [reflexivity | exact Hiv']]].
  - apply (process_encrypt_aligned m iv data (S q) c iv'); assumption.
  - apply (process_decrypt_aligned m' iv c (S q) data iv'); assumption.
Qed.

Lemma decode_of_encode_aligned_CS3 iv data :
  length iv = bsz ->
  aligned_length bsz (length data) -> (2 * bsz <= length data)%nat ->
  exists c st st',
    process_ (encrypter CS3) iv data = Ok c st /\
    process_ (decrypter CS3) iv c = Ok data st' /\
    civ st' = civ st /\ length (civ st) = bsz.
Proof.
  intros Hiv Ha H3.
  destruct (aligned_length_split bsz _ bsz_pos Ha) as (q & Hn).
  destruct q as [|q]; [lia|].
  replace (S (S q) * bsz)%nat with ((q + 2) * bsz)%nat in Hn by lia.
  destruct (cbc_enc (q + 2) iv data) as [c iv'] eqn:Hc.
  pose proof (cbc_encrypt_length (q + 2) iv data Hiv Hn) as Hl.
  rewrite Hc in Hl. cbn [fst snd] in Hl. destruct Hl as [Hlc Hiv'].
  destruct (process_encrypt_aligned_CS3 iv data q c iv' Hiv Hn Hc)
    as (st & Henc & Hst).
  pose proof (cbc_decrypt_encrypt (q + 2) iv data Hiv Hn) as Hd.
  rewrite Hc in Hd. cbn [fst snd] in Hd.
  exists (swap_last_two bsz c), st, (State [swap_last_two bsz c; data] iv').
  split; [exact Henc|]. split; [|split; [cbn [civ]; congruence | congruence]].
  apply (process_decrypt_aligned_CS3 iv _ q data iv' Hiv).
  - rewrite length_swap_last_two by lia. exact Hlc.
  - rewrite swap_last_two_involutive by lia. exact Hd.
Qed.

Lemma decode_of_encode iv m data :
  length iv = bsz -> is_mode m -> accepted_length bsz m (length data) ->
  exists c st st',
    process_ (encrypter m) iv data = Ok c st /\
    process_ (decrypter m) iv c = Ok data st' /\
    civ st' = civ st /\ length (civ st) = bsz.
Proof.
  intros Hiv Hm [Hu | [Ha H3]].
  - apply decode_of_encode_unaligned; auto.
  - destruct (Z.eq_dec m CS3) as [-> | Hne].
    + apply decode_of_encode_aligned_CS3; auto.
    + pose proof (mode_not_CS3 m Hm Hne).
      apply decode_of_encode_aligned; auto.
Qed.

(** X5.  A pair of instances, one encrypter and one decrypter built with the
    same IV and policy, stays in step over any number of calls: when the
    encrypter is run on messages of accepted lengths, one call per message,
    the decrypter run on the outputs, one call per output, returns the
    messages, and both end with the same chaining value.  This holds under
    CS3 too. *)
Theorem session_round_trip m msgs : forall iv,
  length iv = bsz -> is_mode m ->
  Forall (fun d => accepted_length bsz m (length d)) msgs ->
  exists cs chain,
    session bsz encb decb (encrypter m) iv msgs = Some (cs, chain) /\
    session bsz encb decb (decrypter m) iv cs = Some (msgs, chain).
Proof.
  induction msgs as [|d rest IH]; intros iv Hiv Hm Hall.
  - exists [], iv. split; reflexivity.
  - pose proof (Forall_inv Hall) as Hd. cbv beta in Hd.
    pose proof (Forall_inv_tail Hall) as Hrest.
    destruct (decode_of_encode iv m d Hiv Hm Hd)
      as (c & st & st' & He & Hdec & Hciv & Hlen).
    destruct (IH (civ st) Hlen Hm Hrest) as (cs & chain & Hs1 & Hs2).
    exists (c :: cs), chain. cbn [session].
    rewrite He, Hs1, Hdec, Hciv, Hs2. split; reflexivity.
Qed.

(** *** Policies that read each other's output *)

Lemma fresh_to_process iv m m' data c :
  is_mode m -> is_mode m' -> length iv = bsz ->
  (exists st st',
     process_ (encrypter m) iv data = Ok c st /\
     process_ (decrypter m') iv c = Ok data st') ->
  value (encrypt_fresh bsz encb decb iv m data) = Some c /\
  value (decrypt_fresh bsz encb decb iv m' c) = Some data.
Proof.
  intros Hm Hm' Hiv (st & st' & He & Hd).
  rewrite encrypt_fresh_process, decrypt_fresh_process, He, Hd by assumption.
  split; reflexivity.
Qed.

(** X6.  The compatibility the test tabulates (lines 56-64): what a CS1
    encrypter produces from aligned input a CS2 decrypter decodes, and the
    other way round; what a CS2 encrypter produces from unaligned input a
    CS3 decrypter decodes, and the other way round. *)
Theorem cross_policy_round_trip iv m m' data :
  length iv = bsz ->
  ((m = CS1 \/ m = CS2) /\ (m' = CS1 \/ m' = CS2) /\
   aligned_length bsz (length data)) \/
  ((m = CS2 \/ m = CS3) /\ (m' = CS2 \/ m' = CS3) /\
   unaligned_length bsz (length data)) ->
  cross_round_trip bsz encb decb iv m m' data.
Proof.
  intros Hiv [(Hm & Hm' & Ha) | (Hm & Hm' & Hu)]; unfold cross_round_trip.
  - destruct (decode_of_encode_aligned iv m m' data Hiv Hm Hm' Ha)
      as (c & st & st' & He & Hd & _).
    exists c. apply fresh_to_process; try assumption.
    + destruct Hm as [-> | ->]; [left | right; left]; reflexivity.
    + destruct Hm' as [-> | ->]; [left | right; left]; reflexivity.
    + exists st, st'. split; assumption.
  - assert (Hmode : is_mode m)
      by (destruct Hm as [-> | ->]; [right; left | right; right]; reflexivity).
    assert (Hmode' : is_mode m')
      by (destruct Hm' as [-> | ->]; [right; left | right; right]; reflexivity).
    assert (Hlay : (m =? CS1) = (m' =? CS1))
      by (destruct Hm as [-> | ->], Hm' as [-> | ->]; reflexivity).
    destruct (decode_of_encode_unaligned iv m m' data Hiv Hmode Hmode' Hlay Hu)
      as (c & st & st' & He & Hd & _).
    exists c. apply fresh_to_process; try assumption.
    exists st, st'. split; assumption.
Qed.

Lemma plain_cbc_decrypt_run iv data q p iv' :
  length iv = bsz -> length data = (q * bsz)%nat ->
  cbc_dec q iv data = (p, iv') ->
  plain_cbc_decrypt bsz encb decb iv data = Ok p (State [data; p] iv').
Proof.
  intros Hiv Hd Hc.
  pose proof (cbc_decrypt_length q iv data Hiv Hd) as Hl.
  rewrite Hc in Hl. cbn [fst snd] in Hl. destruct Hl as [Hout _].
  unfold plain_cbc_decrypt, whole. rewrite make_nat. cbn [mem civ length app].
  rewrite Hd.
  codec_dec q data p iv' Hc. lnorm.
  unfold read. mem_simpl. lnorm. reflexivity.
Qed.

(** X7.  Plain chaining and the policies CS1 and CS2 read each other on
    aligned input (test, lines 74-82): a CS1 or CS2 decrypter decodes what a
    plain chained encrypter produced, and a plain chained decrypter decodes
    what a CS1 or CS2 encrypter produced. *)
Theorem plain_cbc_round_trip iv m data :
  length iv = bsz -> m = CS1 \/ m = CS2 ->
  aligned_length bsz (length data) ->
  (exists c,
     value (plain_cbc_encrypt bsz encb decb iv data) = Some c /\
     value (decrypt_fresh bsz encb decb iv m c) = Some data) /\
  (exists c,
     value (encrypt_fresh bsz encb decb iv m data) = Some c /\
     value (plain_cbc_decrypt bsz encb decb iv c) = Some data).
Proof.
  intros Hiv Hm Ha.
  assert (Hmode : is_mode m)
    by (destruct Hm as [-> | ->]; [left | right; left]; reflexivity).
  destruct (aligned_length_split bsz _ bsz_pos Ha) as (q & Hn).
  destruct (cbc_enc (S q) iv data) as [c iv'] eqn:Hc.
  pose proof (cbc_encrypt_length (S q) iv data Hiv Hn) as Hl.
  rewrite Hc in Hl. cbn [fst snd] in Hl. destruct Hl as [Hlc Hiv'].
  pose proof (cbc_decrypt_encrypt (S q) iv data Hiv Hn) as Hd.
  rewrite Hc in Hd. cbn [fst snd] in Hd.
  split; exists c.
  - rewrite (plain_cbc_encrypt_run iv data (S q) c iv') by assumption.
    rewrite decrypt_fresh_process by assumption.
    rewrite (process_decrypt_aligned m iv c (S q) data iv') by assumption.
    split; reflexivity.
  - rewrite encrypt_fresh_process by assumption.
    rewrite (process_encrypt_aligned m iv data (S q) c iv') by assumption.
    rewrite (plain_cbc_decrypt_run iv c (S q) data iv') by assumption.
    split; reflexivity.
Qed.

Lemma cbc_decrypt_two iv A B :
  length A = bsz -> length B = bsz ->
  cbc_dec 2 iv (A ++ B) =
    (Bytes.xorBytes (decb A) iv ++ Bytes.xorBytes (decb B) A, B).
Proof.
  intros HA HB. simpl.
  rewrite take_app_length', drop_app_length' by (symmetry; exact HA).
  rewrite take_ge by lia. rewrite app_nil_r. reflexivity.
Qed.

Lemma xorBytes_inj_r a b p :
  length a = length b -> (length a <= length p)%nat ->
  Bytes.xorBytes a p = Bytes.xorBytes b p -> a = b.
Proof.
  intros Hab Hap E.
  rewrite <- (xorBytes_cancel_r a p), <- (xorBytes_cancel_r b p) by lia.
  rewrite E. reflexivity.
Qed.

(** A chained ciphertext with its last two blocks exchanged decrypts to the
    plaintext only when those two blocks are the same. *)
Lemma swapped_decrypts_only_if_equal iv data q c iv' :
  length iv = bsz -> length data = ((q + 2) * bsz)%nat ->
  cbc_enc (q + 2) iv data = (c, iv') ->
  (cbc_dec (q + 2) iv (swap_last_two bsz c)).1 = data ->
  swap_last_two bsz c = c.
Proof.
  intros Hiv Hd Hc Hdec.
  destruct (split_three data (q * bsz) bsz bsz ltac:(lia))
    as (P & Y & Z & -> & HP & HY & HZ).
  rewrite (cbc_encrypt_app q 2 iv P (Y ++ Z) HP) in Hc.
  destruct (cbc_enc q iv P) as [o1 iv1] eqn:Ho1.
  pose proof (cbc_encrypt_length q iv P Hiv HP) as Hl.
  rewrite Ho1 in Hl. cbn [fst snd] in Hl. destruct Hl as [Hlo1 Hiv1].
  rewrite (cbc_encrypt_two iv1 Y Z HY HZ) in Hc.
  set (uY := Bytes.xorBytes Y iv1) in *.
  assert (HuY : length uY = bsz) by (unfold uY; rewrite length_xorBytes; lia).
  set (cY := encb uY) in *.
  assert (HcY : length cY = bsz) by (apply encb_length; exact HuY).
  set (uZ := Bytes.xorBytes Z cY) in *.
  assert (HuZ : length uZ = bsz) by (unfold uZ; rewrite length_xorBytes; lia).
  set (cZ := encb uZ) in *.
  assert (HcZ : length cZ = bsz) by (apply encb_length; exact HuZ).
  injection Hc as <- _.
  rewrite swap_last_two_app in * by assumption.
  rewrite (cbc_decrypt_app q 2 iv o1 (cZ ++ cY) Hlo1) in Hdec.
  pose proof (cbc_decrypt_encrypt q iv P Hiv HP) as Hd1.
  rewrite Ho1 in Hd1. cbn [fst snd] in Hd1. rewrite Hd1 in Hdec.
  rewrite (cbc_decrypt_two iv1 cZ cY HcZ HcY) in Hdec. cbn [fst] in Hdec.
  apply app_inv_head in Hdec.
  apply app_inj_1 in Hdec; [|rewrite length_xorBytes, decb_length; lia].
  destruct Hdec as [H1 _].
  unfold cZ in H1 at 1. rewrite decb_encb in H1 by exact HuZ.
  assert (HY' : Bytes.xorBytes uY iv1 = Y)
    by (unfold uY; apply xorBytes_cancel_r; lia).
  rewrite <- HY' in H1.
  apply xorBytes_inj_r in H1; [|lia|lia].
  assert (E : cZ = cY) by (unfold cZ, cY; rewrite H1; reflexivity).
  rewrite E. reflexivity.
Qed.

(** X8.  CS3 against CS1 and CS2 on aligned input (test, lines 65-72): what
    a CS3 encrypter produces a CS1 or CS2 decrypter decodes to the input,
    and what a CS1 or CS2 encrypter produces a CS3 decrypter decodes to the
    input, exactly when the last two blocks of the chained ciphertext are
    the same block. *)
Theorem CS3_interop_on_aligned iv m data c :
  length iv = bsz -> m = CS1 \/ m = CS2 ->
  (length data mod bsz = 0)%nat -> (2 * bsz <= length data)%nat ->
  value (plain_cbc_encrypt bsz encb decb iv data) = Some c ->
  (cross_round_trip bsz encb decb iv CS3 m data <-> swap_last_two bsz c = c) /\
  (cross_round_trip bsz encb decb iv m CS3 data <-> swap_last_two bsz c = c).
Proof.
  intros Hiv Hm Hmod Hlen Hplain.
  assert (Hmode : is_mode m)
    by (destruct Hm as [-> | ->]; [left | right; left]; reflexivity).
  assert (H3 : is_mode CS3) by (right; right; reflexivity).
  destruct (aligned_length_split bsz (length data) bsz_pos) as (q & Hn).
  { split; [lia | exact Hmod]. }
  destruct q as [|q]; [lia|].
  replace (S (S q) * bsz)%nat with ((q + 2) * bsz)%nat in Hn by lia.
  destruct (cbc_enc (q + 2) iv data) as [c' iv'] eqn:Hc.
  rewrite (plain_cbc_encrypt_run iv data (q + 2) c' iv') in Hplain by assumption.
  injection Hplain as ->.
  pose proof (cbc_encrypt_length (q + 2) iv data Hiv Hn) as Hl.
  rewrite Hc in Hl. cbn [fst snd] in Hl. destruct Hl as [Hlc Hiv'].
  pose proof (cbc_decrypt_encrypt (q + 2) iv data Hiv Hn) as Hd.
  rewrite Hc in Hd. cbn [fst snd] in Hd.
  destruct (process_encrypt_aligned_CS3 iv data q c iv' Hiv Hn Hc)
    as (st & Henc3 & _).
  assert (Hls : length (swap_last_two bsz c) = ((q + 2) * bsz)%nat)
    by (rewrite length_swap_last_two; lia).
  destruct (cbc_dec (q + 2) iv (swap_last_two bsz c)) as [p ivp] eqn:Hp.
  assert (Hkey : p = data -> swap_last_two bsz c = c).
  { intros ->. apply (swapped_decrypts_only_if_equal iv data q c iv'); try assumption.
    rewrite Hp. reflexivity. }
  assert (Hback : swap_last_two bsz c = c -> p = data).
  { intros E. rewrite E, Hd in Hp. injection Hp as <- _. reflexivity. }
  unfold cross_round_trip. split; split.
  - intros (x & He & Hdx).
    rewrite encrypt_fresh_process, Henc3 in He by assumption.
    injection He as <-.
    rewrite decrypt_fresh_process in Hdx by assumption.
    rewrite (process_decrypt_aligned m iv _ (q + 2) p ivp) in Hdx by assumption.
    injection Hdx as Hpd. exact (Hkey Hpd).
  - intros E. exists (swap_last_two bsz c).
    rewrite encrypt_fresh_process, Henc3 by assumption.
    rewrite decrypt_fresh_process by assumption.
    rewrite (process_decrypt_aligned m iv _ (q + 2) p ivp) by assumption.
    rewrite (Hback E). split; reflexivity.
  - intros (x & He & Hdx).
    rewrite encrypt_fresh_process in He by assumption.
    rewrite (process_encrypt_aligned m iv data (q + 2) c iv') in He by assumption.
    injection He as <-.
    rewrite decrypt_fresh_process in Hdx by assumption.
    rewrite (process_decrypt_aligned_CS3 iv c q p ivp) in Hdx by assumption.
    injection Hdx as Hpd. exact (Hkey Hpd).
  - intros E. exists c.
    rewrite encrypt_fresh_process by assumption.
    rewrite (process_encrypt_aligned m iv data (q + 2) c iv') by assumption.
    rewrite decrypt_fresh_process by assumption.
    rewrite (process_decrypt_aligned_CS3 iv c q p ivp) by assumption.
    rewrite (Hback E). split; reflexivity.
Qed.

(** X9.  The encoder on unaligned input, read against plain chaining (the
    remark on CS1 at line 25): let [C] be the plain chained ciphertext of
    the input padded with zeros to a whole number of blocks.  The encoder
    sends the blocks of [C] before the last two as they are, and then the
    last two: the block before the last cut to the [r] bytes of the partial
    block, and the last block whole, in the order of the policy.  It ends
    with the chaining value of the plain encrypter. *)
Theorem encode_is_cut_padded_cbc iv m data q r :
  length iv = bsz -> is_mode m ->
  length data = (q * bsz + bsz + r)%nat -> (0 < r < bsz)%nat ->
  exists C st st',
    plain_cbc_encrypt bsz encb decb iv (data ++ Bytes.zeros (bsz - r)) = Ok C st /\
    process_ (encrypter m) iv data =
      Ok (take (q * bsz) C
          ++ tail_layout m (take r (drop (q * bsz) C))
                           (drop (q * bsz + bsz) C)) st' /\
    civ st' = civ st.
Proof.
  intros Hiv Hm Hn Hr.
  destruct (split_three data (q * bsz) bsz r Hn)
    as (P & Y & T & -> & HP & HY & HT).
  destruct (cbc_enc q iv P) as [c0 iv1] eqn:Hc.
  destruct (cbc_enc 2 iv1 (Y ++ T ++ Bytes.zeros (bsz - r))) as [E iv2] eqn:HE.
  pose proof (cbc_encrypt_length q iv P Hiv HP) as Hl.
  rewrite Hc in Hl. cbn [fst snd] in Hl. destruct Hl as [Hc0 Hiv1].
  assert (Hpad : length (Y ++ T ++ Bytes.zeros (bsz - r)) = (2 * bsz)%nat)
    by len_solve.
  pose proof (cbc_encrypt_length 2 iv1 _ Hiv1 Hpad) as HlE.
  rewrite HE in HlE. cbn [fst snd] in HlE. destruct HlE as [HlE _].
  destruct (process_encrypt_unaligned m iv P Y T q r c0 iv1 E iv2)
    as (st' & Henc & Hst'); try assumption.
  assert (Hall : cbc_enc (q + 2) iv ((P ++ Y ++ T) ++ Bytes.zeros (bsz - r))
                 = (c0 ++ E, iv2)).
  { rewrite <- !app_assoc.
    rewrite (cbc_encrypt_app q 2 iv P _ HP), Hc, HE. reflexivity. }
  exists (c0 ++ E), (State [(P ++ Y ++ T) ++ Bytes.zeros (bsz - r); c0 ++ E] iv2), st'.
  split; [|split].
  - apply (plain_cbc_encrypt_run iv _ (q + 2) (c0 ++ E) iv2); try assumption.
    len_solve.
  - rewrite Henc. lnorm. cbn [length].
    replace (r - 0)%nat with r by lia.
    replace (q * bsz + bsz - length c0)%nat with bsz by lia. reflexivity.
  - exact Hst'.
Qed.

(** The decrypter's chaining value after a run is the last block it read. *)
Lemma cbc_decrypt_chain k : forall iv src,
  length src = (S k * bsz)%nat ->
  (cbc_dec (S k) iv src).2 = drop (k * bsz) src.
Proof.
  induction k as [|k IH]; intros iv src Hs.
  - simpl. simpl in Hs. rewrite take_ge by lia. reflexivity.
  - specialize (IH (take bsz src) (drop bsz src)).
    change (cbc_dec (S (S k)) iv src) with
      (let c := take bsz src in
       let p := Bytes.xorBytes (decb c) iv in
       let '(out, iv') := cbc_dec (S k) c (drop bsz src) in
       (p ++ out, iv')).
    cbv zeta.
    destruct (cbc_dec (S k) (take bsz src) (drop bsz src)) as [o i'].
    cbn [snd] in *. rewrite IH by (rewrite length_drop; lia).
    rewrite drop_drop. f_equal; lia.
Qed.

Lemma decode_CS3_longer_copies iv P Y Z q extra :
  length P = (q * bsz)%nat -> length Y = bsz -> length Z = bsz ->
  process_into bsz encb decb (decrypter CS3) iv (P ++ Y ++ Z) extra =
  (let out := Slice 1 0 ((q + 2) * bsz + extra) ((q + 2) * bsz + extra) in
   codec_run CBCDecrypter out out ;; read out)
    (State [P ++ Y ++ Z; P ++ Z ++ Y ++ Bytes.zeros extra] iv).
Proof.
  intros HP HY HZ.
  assert (Hn : length (P ++ Y ++ Z) = ((q + 2) * bsz)%nat) by len_solve.
  unfold process_into, whole. rewrite !Hn.
  rewrite make_nat. cbn [mem civ length app].
  unfold CryptBlocks. cbn [encoder decrypter].
  unfold decode. cbn [encoder codec mode decrypter].
  unfold len_, BlockSize. cbn [len].
  rewrite rem_of_blocks by lia. cbn [Z.eqb CS1 CS2 CS3 Pos.eqb orb].
  replace (Z.of_nat ((q + 2) * bsz) - 2 * Z.of_nat bsz)
    with (Z.of_nat (q * bsz)) by lia.
  replace (Z.of_nat ((q + 2) * bsz) - Z.of_nat bsz)
    with (Z.of_nat (q * bsz + bsz)) by lia.
  do 18 step. rewrite HP, HY, HZ.
  replace ((q + 2) * bsz + extra - q * bsz - (q * bsz + bsz - q * bsz) -
           (q * bsz + bsz + bsz - q * bsz - bsz))%nat with extra by lia.
  reflexivity.
Qed.

Lemma decode_plain_longer m iv data q p iv' extra :
  m = CS1 \/ m = CS2 ->
  length iv = bsz -> length data = (q * bsz)%nat ->
  cbc_dec q iv data = (p, iv') ->
  process_into bsz encb decb (decrypter m) iv data extra =
    Ok (p ++ Bytes.zeros extra) (State [data; p ++ Bytes.zeros extra] iv').
Proof.
  intros Hm Hiv Hd Hc.
  pose proof (cbc_decrypt_length q iv data Hiv Hd) as Hl.
  rewrite Hc in Hl. cbn [fst snd] in Hl. destruct Hl as [Hout Hiv'].
  unfold process_into, whole. rewrite !Hd.
  rewrite make_nat. cbn [mem civ length app].
  unfold CryptBlocks. cbn [encoder decrypter].
  unfold decode. cbn [encoder codec mode decrypter].
  unfold len_, BlockSize. cbn [len].
  rewrite rem_of_blocks by lia. cbn [Z.eqb].
  replace ((m =? CS1) || (m =? CS2)) with true
    by (destruct Hm as [-> | ->]; reflexivity).
  codec_dec q data p iv' Hc. unfold read. mem_simpl. lnorm.
  rewrite Hout. replace (q * bsz + extra - q * bsz)%nat with extra by lia.
  reflexivity.
Qed.

(** X10.  A destination longer than the source, which the interface of
    [cipher.BlockMode] allows, on aligned input of two blocks or more.  The
    CS1 and CS2 decoders write the plaintext and leave the rest of the
    destination alone.  The CS3 decoder runs the codec over the whole
    destination (line 157): when the excess is not a whole number of blocks
    it panics, and when it is, it returns the plaintext followed by the
    decryption of the excess, and its chaining value is no longer the last
    block it chained from the message but the tail of the destination. *)
Theorem decode_into_longer_destination iv data q extra :
  length iv = bsz -> length data = ((q + 2) * bsz)%nat -> (0 < extra)%nat ->
  (forall m, m = CS1 \/ m = CS2 ->
     exists p st st',
       process_ (decrypter m) iv data = Ok p st /\
       process_into bsz encb decb (decrypter m) iv data extra =
         Ok (p ++ Bytes.zeros extra) st' /\
       civ st' = civ st) /\
  ((extra mod bsz <> 0)%nat ->
     failure (process_into bsz encb decb (decrypter CS3) iv data extra) =
       Some ErrNotFullBlocks) /\
  ((extra mod bsz = 0)%nat ->
     exists p st out st',
       process_ (decrypter CS3) iv data = Ok p st /\
       process_into bsz encb decb (decrypter CS3) iv data extra = Ok out st' /\
       take (length data) out = p /\
       length out = (length data + extra)%nat /\
       civ st = take bsz (drop (q * bsz) data) /\
       civ st' = Bytes.zeros bsz).
Proof.
  intros Hiv Hd Hex. split; [|split].
  - intros m Hm.
    destruct (cbc_dec (q + 2) iv data) as [p iv'] eqn:Hc.
    exists p, (State [data; p] iv'),
      (State [data; p ++ Bytes.zeros extra] iv').
    split; [|split; [|reflexivity]].
    + apply (process_decrypt_aligned m iv data (q + 2) p iv'); assumption.
    + apply (decode_plain_longer m iv data (q + 2) p iv'); assumption.
  - intros Hne.
    destruct (split_three data (q * bsz) bsz bsz ltac:(lia))
      as (P & Y & Z & -> & HP & HY & HZ).
    rewrite (decode_CS3_longer_copies iv P Y Z q extra HP HY HZ).
    cbv zeta. unfold bind, codec_CryptBlocks, len_, BlockSize. cbn [len].
    rewrite Z.rem_mod_nonneg, <- Nat2Z.inj_mod by lia.
    replace (((q + 2) * bsz + extra) mod bsz)%nat with (extra mod bsz)%nat
      by (rewrite Nat.add_comm, Nat.Div0.mod_add; reflexivity).
    replace (Z.of_nat (extra mod bsz) =? 0) with false by is_false.
    reflexivity.
  - intros He.
    destruct (aligned_length_split bsz extra bsz_pos) as (j & Hj).
    { split; [lia | exact He]. }
    destruct (split_three data (q * bsz) bsz bsz ltac:(lia))
      as (P & Y & Z & -> & HP & HY & HZ).
    assert (Hs : length (P ++ Z ++ Y) = ((q + 2) * bsz)%nat) by len_solve.
    destruct (cbc_dec (q + 2) iv (P ++ Z ++ Y)) as [p iv1] eqn:Hp.
    pose proof (cbc_decrypt_length (q + 2) iv _ Hiv Hs) as Hl.
    rewrite Hp in Hl. cbn [fst snd] in Hl. destruct Hl as [Hlp Hiv1].
    destruct (cbc_dec (S j) iv1 (Bytes.zeros extra)) as [o2 iv2] eqn:Ho2.
    assert (Hz : length (Bytes.zeros extra) = (S j * bsz)%nat) by len_solve.
    pose proof (cbc_decrypt_length (S j) iv1 _ Hiv1 Hz) as Hl2.
    rewrite Ho2 in Hl2. cbn [fst snd] in Hl2. destruct Hl2 as [Hlo2 _].
    assert (Hall : cbc_dec (q + 2 + S j) iv (P ++ Z ++ Y ++ Bytes.zeros extra)
                   = (p ++ o2, iv2)).
    { replace (P ++ Z ++ Y ++ Bytes.zeros extra)
        with ((P ++ Z ++ Y) ++ Bytes.zeros extra) by (rewrite <- !app_assoc; reflexivity).
      rewrite (cbc_decrypt_app (q + 2) (S j) iv _ _ Hs), Hp, Ho2. reflexivity. }
    assert (Hiv2 : iv2 = Bytes.zeros bsz).
    { pose proof (cbc_decrypt_chain j iv1 (Bytes.zeros extra) Hz) as Hch.
      rewrite Ho2 in Hch. cbn [snd] in Hch. rewrite Hch.
      unfold Bytes.zeros. rewrite drop_replicate. f_equal. lia. }
    assert (Hiv1' : iv1 = Y).
    { pose proof (cbc_decrypt_chain (q + 1) iv (P ++ Z ++ Y)) as Hch.
      replace (S (q + 1)) with (q + 2)%nat in Hch by lia.
      rewrite Hp in Hch. cbn [snd] in Hch. rewrite Hch by exact Hs.
      lnorm. reflexivity. }
    exists p, (State [P ++ Y ++ Z; p] iv1), (p ++ o2),
      (State [P ++ Y ++ Z; p ++ o2] iv2).
    split; [|split; [|split; [|split; [|split]]]].
    + apply (process_decrypt_aligned_CS3 iv (P ++ Y ++ Z) q p iv1); try assumption.
      rewrite swap_last_two_app by assumption. exact Hp.
    + rewrite (decode_CS3_longer_copies iv P Y Z q extra HP HY HZ).
      cbv zeta.
      codec_dec (q + 2 + S j)%nat (P ++ Z ++ Y ++ Bytes.zeros extra) (p ++ o2) iv2 Hall.
      unfold read. mem_simpl. lnorm. reflexivity.
    + lnorm. reflexivity.
    + len_solve.
    + cbn [civ]. rewrite Hiv1'. lnorm. reflexivity.
    + cbn [civ]. exact Hiv2.
Qed.


(** *** Runs onto a destination the caller holds

    The heap holds the input as its first array and the destination as its
    second: [d1], as long as the input, followed by the excess [dE]. *)

Lemma onto_encrypt_aligned m iv data q c iv' d1 dE :
  m = CS1 \/ m = CS2 ->
  length iv = bsz -> length data = (q * bsz)%nat -> length d1 = (q * bsz)%nat ->
  cbc_enc q iv data = (c, iv') ->
  process_onto bsz encb decb (encrypter m) iv data (d1 ++ dE) =
    Ok (c ++ dE) (State [data; c ++ dE] iv').
Proof.
  intros Hm Hiv Hd Hd1 Hc.
  pose proof (cbc_encrypt_length q iv data Hiv Hd) as Hl.
  rewrite Hc in Hl. cbn [fst snd] in Hl. destruct Hl as [Hout Hiv'].
  unfold process_onto, whole, CryptBlocks. cbv zeta. cbn [encoder encrypter].
  unfold encode. cbn [encoder codec mode encrypter].
  unfold len_, BlockSize. cbn [len]. rewrite !Hd.
  rewrite rem_of_blocks by lia. cbn [Z.eqb].
  replace ((m =? CS1) || (m =? CS2)) with true
    by (destruct Hm as [-> | ->]; reflexivity).
  rewrite length_app, Hd1.
  rewrite bind_assoc.
  codec_enc q data c iv' Hc. lnorm.
  rewrite ret_bind. unfold read. mem_simpl. lnorm. reflexivity.
Qed.

Lemma onto_encrypt_aligned_CS3 iv data q cP cY cZ iv' d1 dE :
  length iv = bsz -> length data = ((q + 2) * bsz)%nat ->
  length d1 = ((q + 2) * bsz)%nat ->
  length cP = (q * bsz)%nat -> length cY = bsz -> length cZ = bsz ->
  cbc_enc (q + 2) iv data = (cP ++ cY ++ cZ, iv') ->
  process_onto bsz encb decb (encrypter CS3) iv data (d1 ++ dE) =
    Ok (cP ++ cZ ++ cY ++ dE) (State [data; cP ++ cZ ++ cY ++ dE; cY] iv').
Proof.
  intros Hiv Hd Hd1 HP HY HZ Hc.
  unfold process_onto, whole, CryptBlocks. cbv zeta. cbn [encoder encrypter].
  unfold encode. cbn [encoder codec mode encrypter].
  unfold len_, BlockSize. cbn [len]. rewrite !Hd.
  rewrite rem_of_blocks by lia. cbn [Z.eqb CS1 CS2 CS3 Pos.eqb orb].
  replace (Z.of_nat ((q + 2) * bsz) - 2 * Z.of_nat bsz)
    with (Z.of_nat (q * bsz)) by lia.
  replace (Z.of_nat ((q + 2) * bsz) - Z.of_nat bsz)
    with (Z.of_nat (q * bsz + bsz)) by lia.
  rewrite length_app, Hd1.
  rewrite bind_assoc.
  codec_enc (q + 2)%nat data (cP ++ cY ++ cZ) iv' Hc. lnorm.
  repeat step.
  unfold read. mem_simpl. lnorm. reflexivity.
Qed.

Lemma onto_encrypt_unaligned m iv P Y T q r c0 iv1 E iv2 d1 dE :
  is_mode m ->
  length iv = bsz -> length P = (q * bsz)%nat -> length Y = bsz ->
  length T = r -> (0 < r < bsz)%nat ->
  length d1 = ((q + 1) * bsz + r)%nat ->
  cbc_enc q iv P = (c0, iv1) ->
  cbc_enc 2 iv1 (Y ++ T ++ Bytes.zeros (bsz - r)) = (E, iv2) ->
  process_onto bsz encb decb (encrypter m) iv (P ++ Y ++ T) (d1 ++ dE) =
    Ok ((c0 ++ tail_layout m (take r E) (drop bsz E)) ++ dE)
       (State [P ++ Y ++ T;
               (c0 ++ tail_layout m (take r E) (drop bsz E)) ++ dE;
               E] iv2).
Proof.
  intros Hm Hiv HP HY HT Hr Hd1 Hc HE.
  pose proof (cbc_encrypt_length q iv P Hiv HP) as Hlc.
  rewrite Hc in Hlc. cbn [fst snd] in Hlc. destruct Hlc as [Hc0 Hiv1].
  assert (Hpad : length (Y ++ T ++ Bytes.zeros (bsz - r)) = (2 * bsz)%nat)
    by len_solve.
  pose proof (cbc_encrypt_length 2 iv1 _ Hiv1 Hpad) as HlE.
  rewrite HE in HlE. cbn [fst snd] in HlE. destruct HlE as [HlE Hiv2].
  assert (Hn : length (P ++ Y ++ T) = ((q + 1) * bsz + r)%nat) by len_solve.
  unfold process_onto, whole, CryptBlocks. cbv zeta. cbn [encoder encrypter].
  rewrite length_app, Hd1, !Hn.
  unfold encode. cbn [encoder codec mode encrypter].
  unfold len_, BlockSize. cbn [len].
  rewrite rem_of_nat by lia.
  replace (Z.of_nat r =? 0) with false by is_false.
  replace (Z.of_nat ((q + 1) * bsz + r) + (Z.of_nat bsz - Z.of_nat r)
           - 2 * Z.of_nat bsz) with (Z.of_nat (q * bsz)) by lia.
  replace (Z.of_nat ((q + 1) * bsz + r) + (Z.of_nat bsz - Z.of_nat r)
           - Z.of_nat bsz) with (Z.of_nat (q * bsz + bsz)) by lia.
  replace (Z.of_nat (q * bsz) <? 0) with false by is_false.
  replace (2 * Z.of_nat bsz) with (Z.of_nat (2 * bsz)) by lia.
  replace (Z.of_nat bsz + Z.of_nat r) with (Z.of_nat (bsz + r)) by lia.
  replace (Z.of_nat (q * bsz) + Z.of_nat r) with (Z.of_nat (q * bsz + r)) by lia.
  repeat step.
  codec_enc q P c0 iv1 Hc. lnorm.
  repeat step. len_simpl; len_hyps.
  replace (2 * bsz - (bsz + r))%nat with (bsz - r)%nat by lia.
  codec_enc 2%nat (Y ++ T ++ replicate (bsz - r) Bytes.zero) E iv2 HE. lnorm.
  unfold tail_layout.
  destruct Hm as [-> | [-> | ->]]; cbn [Z.eqb CS1 CS2 CS3 Pos.eqb orb];
    repeat step; unfold read; mem_simpl; lnorm; reflexivity.
Qed.

Lemma onto_decrypt_aligned m iv data q p iv' d1 dE :
  m = CS1 \/ m = CS2 ->
  length iv = bsz -> length data = (q * bsz)%nat -> length d1 = (q * bsz)%nat ->
  cbc_dec q iv data = (p, iv') ->
  process_onto bsz encb decb (decrypter m) iv data (d1 ++ dE) =
    Ok (p ++ dE) (State [data; p ++ dE] iv').
Proof.
  intros Hm Hiv Hd Hd1 Hc.
  pose proof (cbc_decrypt_length q iv data Hiv Hd) as Hl.
  rewrite Hc in Hl. cbn [fst snd] in Hl. destruct Hl as [Hout Hiv'].
  unfold process_onto, whole, CryptBlocks. cbv zeta. cbn [encoder decrypter].
  unfold decode. cbn [encoder codec mode decrypter].
  unfold len_, BlockSize. cbn [len]. rewrite !Hd.
  rewrite rem_of_blocks by lia. cbn [Z.eqb].
  replace ((m =? CS1) || (m =? CS2)) with true
    by (destruct Hm as [-> | ->]; reflexivity).
  rewrite length_app, Hd1.
  codec_dec q data p iv' Hc. lnorm.
  unfold read. mem_simpl. lnorm. reflexivity.
Qed.

(** The CS3 decoder on aligned input, up to its call of the codec: the
    three copies have put the input, its last two blocks exchanged, at the
    start of the destination, and the codec is about to run over the whole
    destination. *)
Lemma onto_decrypt_aligned_CS3_copies iv P Y Z q d1 dE :
  length P = (q * bsz)%nat -> length Y = bsz -> length Z = bsz ->
  length d1 = ((q + 2) * bsz)%nat ->
  process_onto bsz encb decb (decrypter CS3) iv (P ++ Y ++ Z) (d1 ++ dE) =
  (let out := Slice 1 0 ((q + 2) * bsz + length dE) ((q + 2) * bsz + length dE) in
   codec_run CBCDecrypter out out ;; read out)
    (State [P ++ Y ++ Z; P ++ Z ++ Y ++ dE] iv).
Proof.
  intros HP HY HZ Hd1.
  assert (Hn : length (P ++ Y ++ Z) = ((q + 2) * bsz)%nat) by len_solve.
  unfold process_onto, whole, CryptBlocks. cbv zeta. cbn [encoder decrypter].
  rewrite length_app, Hd1, !Hn.
  unfold decode. cbn [encoder codec mode decrypter].
  unfold len_, BlockSize. cbn [len].
  rewrite rem_of_blocks by lia. cbn [Z.eqb CS1 CS2 CS3 Pos.eqb orb].
  replace (Z.of_nat ((q + 2) * bsz) - 2 * Z.of_nat bsz)
    with (Z.of_nat (q * bsz)) by lia.
  replace (Z.of_nat ((q + 2) * bsz) - Z.of_nat bsz)
    with (Z.of_nat (q * bsz + bsz)) by lia.
  repeat step. reflexivity.
Qed.

Lemma onto_decrypt_unaligned m iv P H F q r p0 iv1 X iv2 d1 dE :
  is_mode m ->
  length iv = bsz -> length P = (q * bsz)%nat ->
  length H = r -> length F = bsz -> (0 < r < bsz)%nat ->
  length d1 = ((q + 1) * bsz + r)%nat ->
  cbc_dec q iv P = (p0, iv1) ->
  cbc_dec 2 iv1 (H ++ drop r (decb F) ++ F) = (X, iv2) ->
  let k := Nat.min (length dE) (bsz - r) in
  process_onto bsz encb decb (decrypter m) iv (P ++ tail_layout m H F) (d1 ++ dE) =
    Ok (p0 ++ take (bsz + r + k) X ++ drop k dE)
       (State [P ++ tail_layout m H F;
               p0 ++ take (bsz + r + k) X ++ drop k dE;
               X;
               decb F] iv2).
Proof.
  intros Hm Hiv HP HH HF Hr Hd1 Hc HX k.
  pose proof (cbc_decrypt_length q iv P Hiv HP) as Hl.
  rewrite Hc in Hl. cbn [fst snd] in Hl. destruct Hl as [Hp0 Hiv1].
  pose proof (decb_length F HF) as HD.
  assert (Hs : length (H ++ drop r (decb F) ++ F) = (2 * bsz)%nat) by len_solve.
  pose proof (cbc_decrypt_length 2 iv1 _ Hiv1 Hs) as HlX.
  rewrite HX in HlX. cbn [fst snd] in HlX. destruct HlX as [HlX Hiv2].
  assert (Hn : length (P ++ tail_layout m H F) = ((q + 1) * bsz + r)%nat)
    by (rewrite length_app, length_tail_layout; lia).
  unfold process_onto, whole, CryptBlocks. cbv zeta. cbn [encoder decrypter].
  rewrite length_app, Hd1, !Hn.
  unfold decode, decode_scratch. cbn [encoder codec mode decrypter].
  unfold len_, BlockSize. cbn [len].
  rewrite rem_of_nat by lia.
  replace (Z.of_nat r =? 0) with false by is_false.
  replace (Z.of_nat ((q + 1) * bsz + r) + (Z.of_nat bsz - Z.of_nat r)
           - 2 * Z.of_nat bsz) with (Z.of_nat (q * bsz)) by lia.
  replace (Z.of_nat ((q + 1) * bsz + r) + (Z.of_nat bsz - Z.of_nat r)
           - Z.of_nat bsz) with (Z.of_nat (q * bsz + bsz)) by lia.
  replace (Z.of_nat (q * bsz) <? 0) with false by is_false.
  replace (2 * Z.of_nat bsz) with (Z.of_nat (2 * bsz)) by lia.
  replace (Z.of_nat (q * bsz) + Z.of_nat r) with (Z.of_nat (q * bsz + r)) by lia.
  unfold tail_layout.
  repeat step.
  destruct Hm as [-> | [-> | ->]]; cbn [Z.eqb CS1 CS2 CS3 Pos.eqb orb].
  all: codec_dec q P p0 iv1 Hc; lnorm.
  all: repeat step.
  all: rewrite block_Decrypt_bind by (cbn [len arr]; first [lia | discriminate]).
  all: mem_simpl; lnorm.
  all: unfold for_range;
       replace (Z.to_nat (Z.of_nat bsz - Z.of_nat r)) with (bsz - r)%nat by lia.
  all: rewrite ?bind_assoc.
  all: erewrite bind_ok by (apply overlay_loop; len_solve).
  all: rewrite ret_bind.
  all: repeat step.
  all: codec_dec 2%nat (H ++ drop r (decb F) ++ F) X iv2 HX; lnorm.
  all: repeat step.
  all: unfold read; mem_simpl; lnorm.
  all: replace (((q + 1) * bsz + r + length dE - q * bsz) `min` (2 * bsz))%nat
         with (bsz + r + k)%nat by (subst k; lia).
  all: match goal with
       | |- Ok (_ ++ _ ++ drop ?n _) _ = _ =>
           replace n with k by (subst k; len_simpl; lia)
       end.
  all: reflexivity.
Qed.


Lemma xorBytes_self l : Bytes.xorBytes l l = Bytes.zeros (length l).
Proof.
  unfold Bytes.xorBytes, Bytes.zeros.
  induction l as [|x l IH]; [reflexivity|].
  cbn [zip_with length replicate]. rewrite IH. f_equal.
  rewrite <- (xor_zero_l x) at 1. apply xor_cancel_r.
Qed.

(** What the final chained decryption of the scratch buffer leaves after
    the [b + r] bytes of plaintext: the padding the encoder added, which
    was zero. *)
Lemma decrypted_padding iv1 H F r X iv2 :
  length iv1 = bsz ->
  length H = r -> length F = bsz -> (0 < r < bsz)%nat ->
  cbc_dec 2 iv1 (H ++ drop r (decb F) ++ F) = (X, iv2) ->
  drop (bsz + r) X = Bytes.zeros (bsz - r).
Proof.
  intros Hiv1 HH HF Hr HX.
  pose proof (decb_length F HF) as HD.
  assert (HA : length (H ++ drop r (decb F)) = bsz) by len_solve.
  rewrite app_assoc in HX.
  rewrite (cbc_decrypt_two iv1 (H ++ drop r (decb F)) F HA HF) in HX.
  injection HX as <- _.
  rewrite drop_app_ge by (rewrite length_xorBytes, decb_length by exact HA; len_solve).
  rewrite length_xorBytes, decb_length by exact HA.
  replace (bsz + r - Nat.min bsz (length iv1))%nat with r by lia.
  rewrite drop_xorBytes. lnorm. rewrite xorBytes_self.
  unfold Bytes.zeros. f_equal. len_solve.
Qed.

(** *** What lands in the destination, path by path *)

Lemma onto_encrypt iv m data d1 dE :
  length iv = bsz -> is_mode m -> accepted_length bsz m (length data) ->
  length d1 = length data ->
  exists c st st',
    process_ (encrypter m) iv data = Ok c st /\ length c = length data /\
    process_onto bsz encb decb (encrypter m) iv data (d1 ++ dE) =
      Ok (c ++ dE) st' /\
    civ st' = civ st.
Proof.
  intros Hiv Hm [Hu | [Ha H3]] Hd1.
  - destruct (unaligned_length_split bsz _ bsz_pos Hu) as (q & r & Hn & Hr).
    rewrite Hn in Hd1.
    destruct (split_three data (q * bsz) bsz r Hn)
      as (P & Y & T & -> & HP & HY & HT).
    destruct (cbc_enc q iv P) as [c0 iv1] eqn:Hc.
    destruct (cbc_enc 2 iv1 (Y ++ T ++ Bytes.zeros (bsz - r))) as [E iv2] eqn:HE.
    pose proof (cbc_encrypt_length q iv P Hiv HP) as Hl.
    rewrite Hc in Hl. cbn [fst snd] in Hl. destruct Hl as [Hc0 Hiv1].
    assert (Hpad : length (Y ++ T ++ Bytes.zeros (bsz - r)) = (2 * bsz)%nat)
      by len_solve.
    pose proof (cbc_encrypt_length 2 iv1 _ Hiv1 Hpad) as HlE.
    rewrite HE in HlE. cbn [fst snd] in HlE. destruct HlE as [HlE _].
    destruct (process_encrypt_unaligned m iv P Y T q r c0 iv1 E iv2)
      as (st & Henc & Hst); try assumption.
    exists (c0 ++ tail_layout m (take r E) (drop bsz E)), st. eexists.
    split; [exact Henc|]. split.
    { rewrite !length_app, length_tail_layout. len_solve. }
    split.
    + apply (onto_encrypt_unaligned m iv P Y T q r c0 iv1 E iv2 d1 dE);
        try assumption. lia.
    + cbn [civ]. symmetry. exact Hst.
  - destruct (aligned_length_split bsz _ bsz_pos Ha) as (q & Hn).
    rewrite Hn in Hd1.
    destruct (Z.eq_dec m CS3) as [-> | Hne].
    + specialize (H3 eq_refl). destruct q as [|q]; [lia|].
      replace (S (S q) * bsz)%nat with ((q + 2) * bsz)%nat in * by lia.
      destruct (cbc_enc (q + 2) iv data) as [c' iv'] eqn:Hc.
      pose proof (cbc_encrypt_length (q + 2) iv data Hiv Hn) as Hl.
      rewrite Hc in Hl. cbn [fst snd] in Hl. destruct Hl as [Hlc _].
      destruct (process_encrypt_aligned_CS3 iv data q c' iv' Hiv Hn Hc)
        as (st & Henc & Hst).
      destruct (split_three c' (q * bsz) bsz bsz ltac:(lia))
        as (cP & cY & cZ & -> & HcP & HcY & HcZ).
      rewrite swap_last_two_app in Henc by assumption.
      exists (cP ++ cZ ++ cY), st. eexists.
      split; [exact Henc|]. split; [len_solve|]. split.
      * rewrite <- !app_assoc.
        apply (onto_encrypt_aligned_CS3 iv data q cP cY cZ iv' d1 dE);
          assumption.
      * cbn [civ]. symmetry. exact Hst.
    + pose proof (mode_not_CS3 m Hm Hne) as Hm'.
      destruct (cbc_enc (S q) iv data) as [c' iv'] eqn:Hc.
      pose proof (cbc_encrypt_length (S q) iv data Hiv Hn) as Hl.
      rewrite Hc in Hl. cbn [fst snd] in Hl. destruct Hl as [Hlc _].
      exists c'. do 2 eexists. split; [|split; [|split]].
      * apply (process_encrypt_aligned m iv data (S q) c' iv'); assumption.
      * lia.
      * apply (onto_encrypt_aligned m iv data (S q) c' iv' d1 dE); assumption.
      * reflexivity.
Qed.

Lemma onto_decrypt_unaligned_total iv m data d1 dE :
  length iv = bsz -> is_mode m -> unaligned_length bsz (length data) ->
  length d1 = length data ->
  let k := Nat.min (length dE) (bsz - length data mod bsz) in
  exists p st st',
    process_ (decrypter m) iv data = Ok p st /\ length p = length data /\
    process_onto bsz encb decb (decrypter m) iv data (d1 ++ dE) =
      Ok (p ++ Bytes.zeros k ++ drop k dE) st' /\
    civ st' = civ st.
Proof.
  intros Hiv Hm Hu Hd1 k.
  destruct (unaligned_length_split bsz _ bsz_pos Hu) as (q & r & Hn & Hr).
  assert (Hmod : (length data mod bsz = r)%nat).
  { rewrite Hn. replace (q * bsz + bsz + r)%nat with (r + (q + 1) * bsz)%nat by lia.
    rewrite Nat.Div0.mod_add. apply Nat.mod_small. lia. }
  subst k. rewrite Hmod. rewrite Hn in Hd1.
  destruct (split_for_mode m data q r Hn) as (P & H & F & -> & HP & HH & HF).
  destruct (cbc_dec q iv P) as [p0 iv1] eqn:Hc.
  destruct (cbc_dec 2 iv1 (H ++ drop r (decb F) ++ F)) as [X iv2] eqn:HX.
  pose proof (cbc_decrypt_length q iv P Hiv HP) as Hl.
  rewrite Hc in Hl. cbn [fst snd] in Hl. destruct Hl as [Hp0 Hiv1].
  pose proof (decb_length F HF) as HD.
  assert (Hs : length (H ++ drop r (decb F) ++ F) = (2 * bsz)%nat)
    by len_solve.
  pose proof (cbc_decrypt_length 2 iv1 _ Hiv1 Hs) as HlX.
  rewrite HX in HlX. cbn [fst snd] in HlX. destruct HlX as [HlX _].
  destruct (process_decrypt_unaligned m iv P H F q r p0 iv1 X iv2)
    as (st & Hdec & Hst); try assumption.
  pose proof (decrypted_padding iv1 H F r X iv2 Hiv1 HH HF Hr HX) as Hpad.
  set (k := Nat.min (length dE) (bsz - r)).
  exists (p0 ++ take (bsz + r) X), st. eexists.
  split; [exact Hdec|]. split.
  { rewrite !length_app, length_tail_layout. len_solve. }
  split.
  - rewrite (onto_decrypt_unaligned m iv P H F q r p0 iv1 X iv2 d1 dE)
      by (try assumption; lia).
    cbv zeta. fold k.
    assert (Htk : take (bsz + r + k) X = take (bsz + r) X ++ Bytes.zeros k).
    { rewrite <- (take_drop (bsz + r) X) at 1.
      rewrite take_app_ge by len_solve.
      rewrite length_take, HlX, Hpad.
      replace (bsz + r + k - Nat.min (bsz + r) (2 * bsz))%nat with k by lia.
      unfold Bytes.zeros. rewrite take_replicate.
      replace (Nat.min k (bsz - r)) with k by (subst k; lia). reflexivity. }
    rewrite Htk, <- !app_assoc. reflexivity.
  - cbn [civ]. symmetry. exact Hst.
Qed.

Lemma onto_decrypt_aligned_total iv m data d1 dE :
  length iv = bsz -> m = CS1 \/ m = CS2 ->
  (length data mod bsz = 0)%nat -> length d1 = length data ->
  exists p st st',
    process_ (decrypter m) iv data = Ok p st /\ length p = length data /\
    process_onto bsz encb decb (decrypter m) iv data (d1 ++ dE) =
      Ok (p ++ dE) st' /\
    civ st' = civ st.
Proof.
  intros Hiv Hm Hmod Hd1.
  assert (Hn : exists q, length data = (q * bsz)%nat).
  { exists (length data / bsz)%nat.
    pose proof (Nat.div_mod_eq (length data) bsz). nia. }
  destruct Hn as (q & Hn). rewrite Hn in Hd1.
  destruct (cbc_dec q iv data) as [p iv'] eqn:Hc.
  pose proof (cbc_decrypt_length q iv data Hiv Hn) as Hl.
  rewrite Hc in Hl. cbn [fst snd] in Hl. destruct Hl as [Hlp _].
  exists p. do 2 eexists. split; [|split; [|split]].
  - apply (process_decrypt_aligned m iv data q p iv'); assumption.
  - lia.
  - apply (onto_decrypt_aligned m iv data q p iv' d1 dE); assumption.
  - reflexivity.
Qed.

Lemma onto_decrypt_CS3_exact iv data d1 :
  length iv = bsz ->
  (length data mod bsz = 0)%nat -> (2 * bsz <= length data)%nat ->
  length d1 = length data ->
  exists p st st',
    process_ (decrypter CS3) iv data = Ok p st /\ length p = length data /\
    process_onto bsz encb decb (decrypter CS3) iv data d1 = Ok p st' /\
    civ st' = civ st.
Proof.
  intros Hiv Hmod Hlen Hd1.
  destruct (aligned_length_split bsz (length data) bsz_pos) as (q & Hn).
  { split; [lia | exact Hmod]. }
  destruct q as [|q]; [lia|].
  replace (S (S q) * bsz)%nat with ((q + 2) * bsz)%nat in Hn by lia.
  rewrite Hn in Hd1.
  destruct (split_three data (q * bsz) bsz bsz ltac:(lia))
    as (P & Y & Z & -> & HP & HY & HZ).
  assert (Hs : length (P ++ Z ++ Y) = ((q + 2) * bsz)%nat) by len_solve.
  destruct (cbc_dec (q + 2) iv (P ++ Z ++ Y)) as [p iv'] eqn:Hc.
  pose proof (cbc_decrypt_length (q + 2) iv _ Hiv Hs) as Hl.
  rewrite Hc in Hl. cbn [fst snd] in Hl. destruct Hl as [Hlp _].
  exists p. do 2 eexists. split; [|split; [|split]].
  - apply (process_decrypt_aligned_CS3 iv (P ++ Y ++ Z) q p iv'); try assumption.
    rewrite swap_last_two_app by assumption. exact Hc.
  - lia.
  - rewrite <- (app_nil_r d1).
    rewrite (onto_decrypt_aligned_CS3_copies iv P Y Z q d1 [] HP HY HZ Hd1).
    cbv zeta. cbn [length]. rewrite Nat.add_0_r, app_nil_r.
    codec_dec (q + 2)%nat (P ++ Z ++ Y) p iv' Hc.
    unfold read. mem_simpl. lnorm. reflexivity.
  - reflexivity.
Qed.

Lemma onto_decrypt_CS3_failure iv data d1 dE :
  length iv = bsz ->
  (length data mod bsz = 0)%nat -> (2 * bsz <= length data)%nat ->
  length d1 = length data ->
  failure (process_onto bsz encb decb (decrypter CS3) iv data (d1 ++ dE)) =
    if (length dE mod bsz =? 0)%nat then None else Some ErrNotFullBlocks.
Proof.
  intros Hiv Hmod Hlen Hd1.
  destruct (aligned_length_split bsz (length data) bsz_pos) as (q & Hn).
  { split; [lia | exact Hmod]. }
  destruct q as [|q]; [lia|].
  replace (S (S q) * bsz)%nat with ((q + 2) * bsz)%nat in Hn by lia.
  rewrite Hn in Hd1.
  destruct (split_three data (q * bsz) bsz bsz ltac:(lia))
    as (P & Y & Z & -> & HP & HY & HZ).
  rewrite (onto_decrypt_aligned_CS3_copies iv P Y Z q d1 dE HP HY HZ Hd1).
  cbv zeta.
  destruct (Nat.eqb_spec (length dE mod bsz) 0) as [He | Hne].
  - assert (Hj : exists j, length dE = (j * bsz)%nat).
    { exists (length dE / bsz)%nat.
      pose proof (Nat.div_mod_eq (length dE) bsz). nia. }
    destruct Hj as (j & Hj).
    rewrite (codec_bind CBCDecrypter _ _ (q + 2 + j)%nat).
    + reflexivity.
    + cbn [len]. lia.
    + cbn [len]. lia.
    + right. split; reflexivity.
    + mem_simpl. lnorm. len_solve.
  - unfold bind, codec_CryptBlocks, len_, BlockSize. cbn [len].
    rewrite Z.rem_mod_nonneg, <- Nat2Z.inj_mod by lia.
    replace (((q + 2) * bsz + length dE) mod bsz)%nat with (length dE mod bsz)%nat
      by (rewrite Nat.add_comm, Nat.Div0.mod_add; reflexivity).
    replace (Z.of_nat (length dE mod bsz) =? 0) with false by is_false.
    reflexivity.
Qed.

Lemma onto_short_unaligned cd iv data d0 :
  (length data mod bsz <> 0)%nat -> (length data < bsz)%nat ->
  failure (process_onto bsz encb decb cd iv data d0) = Some ErrDataSize.
Proof.
  intros Hmod Hlt. unfold process_onto. cbv zeta. unfold bind.
  rewrite CryptBlocks_short_unaligned by (unfold whole; cbn [len]; assumption).
  reflexivity.
Qed.

Lemma onto_CS3_below_two_blocks cd iv data d0 :
  cd = encrypter CS3 \/ cd = decrypter CS3 ->
  length iv = bsz ->
  length data = 0%nat \/ length data = bsz ->
  (length data <= length d0)%nat ->
  failure (process_onto bsz encb decb cd iv data d0) = Some ErrBounds.
Proof.
  intros Hcd Hiv Hlen Hd0.
  assert (Hrem : Z.rem (Z.of_nat (length data)) (Z.of_nat bsz) = 0).
  { destruct Hlen as [-> | ->]; [reflexivity | apply Z.rem_same; lia]. }
  assert (Hq : exists q, (q <= 1)%nat /\ length data = (q * bsz)%nat).
  { destruct Hlen as [H | H]; [exists 0%nat | exists 1%nat]; split; lia. }
  destruct Hq as (q & Hq1 & Hq).
  unfold process_onto. cbv zeta.
  destruct Hcd as [-> | ->].
  - unfold CryptBlocks, encode, whole, len_, BlockSize, encrypter.
    cbn [encoder codec mode len]. rewrite Hrem.
    cbn [Z.eqb CS1 CS2 CS3 Pos.eqb orb].
    destruct (cbc_enc q iv data) as [c iv'] eqn:Hc.
    rewrite bind_assoc.
    rewrite (codec_enc_bind _ _ q data c iv');
      [ | rewrite load_0, drop_0; apply take_ge; lia
        | exact Hq | exact Hc | exact Hq | cbn [len]; lia | left; discriminate ].
    rewrite bind_assoc, make_nat, bind_assoc, slice3_negative by lia. reflexivity.
  - unfold CryptBlocks, decode, whole, len_, BlockSize, decrypter.
    cbn [encoder codec mode len]. rewrite Hrem.
    cbn [Z.eqb CS1 CS2 CS3 Pos.eqb orb].
    rewrite !bind_assoc, slice_to_negative by lia. reflexivity.
Qed.

Lemma onto_empty_plain cd iv m d0 :
  cd = encrypter m \/ cd = decrypter m -> m = CS1 \/ m = CS2 ->
  length iv = bsz ->
  failure (process_onto bsz encb decb cd iv [] d0) = None.
Proof.
  intros Hcd Hm Hiv.
  change d0 with ([] ++ d0).
  destruct Hcd as [-> | ->].
  - rewrite (onto_encrypt_aligned m iv [] 0 [] iv [] d0); auto.
  - rewrite (onto_decrypt_aligned m iv [] 0 [] iv [] d0); auto.
Qed.

(** X4.  With a separate destination at least as long as the source,
    whatever it holds, whether a call returns or panics is decided by the
    length of the source and the policy, and for one path by the length of
    the destination too.  Unaligned input shorter than a block raises the
    data-size panic; aligned input shorter than two blocks under CS3 (the
    empty input included) stops on a slice out of range; on aligned input
    of two blocks or more the CS3 decoder, and it alone, panics in the
    codec when the length of the destination is not a multiple of the
    block size; every other call returns (the empty input under CS1 and
    CS2 included). *)
Theorem outcome_by_length iv m data d0 :
  length iv = bsz -> is_mode m -> (length data <= length d0)%nat ->
  failure (process_onto bsz encb decb (encrypter m) iv data d0)
    = expected_failure bsz m (length data) /\
  failure (process_onto bsz encb decb (decrypter m) iv data d0)
    = expected_failure_decode bsz m (length data) (length d0).
Proof.
  intros Hiv Hm Hd0.
  rewrite <- (take_drop (length data) d0).
  set (d1 := take (length data) d0). set (dE := drop (length data) d0).
  assert (Hd1 : length d1 = length data) by (subst d1; rewrite length_take; lia).
  assert (HL : length (d1 ++ dE) = (length data + length dE)%nat)
    by (rewrite length_app; lia).
  assert (Hle : (length data <= length (d1 ++ dE))%nat) by lia.
  unfold expected_failure_decode, expected_failure. rewrite HL.
  destruct (Nat.eqb_spec (length data mod bsz) 0) as [Hal | Hun].
  - replace ((length data + length dE) mod bsz)%nat with (length dE mod bsz)%nat.
    2:{ destruct (length data) as [|n] eqn:Hn; [reflexivity|].
        destruct (aligned_length_split bsz (S n) bsz_pos) as (q & Hq);
          [split; [lia | exact Hal]|].
        rewrite Hq, Nat.add_comm, Nat.Div0.mod_add. reflexivity. }
    destruct (Z.eqb_spec m CS3) as [-> | Hne]; cbn [andb].
    + destruct (Nat.ltb_spec (length data) (2 * bsz)) as [Hlt | Hge].
      * assert (Hlen : length data = 0%nat \/ length data = bsz).
        { destruct (length data) as [|n] eqn:Hn; [left; reflexivity | right].
          destruct (aligned_length_split bsz (S n) bsz_pos) as (q & Hq);
            [split; [lia | exact Hal]|].
          destruct q; [lia | nia]. }
        split; apply onto_CS3_below_two_blocks; auto.
      * split.
        -- destruct (onto_encrypt iv CS3 data d1 dE Hiv Hm) as (c & st & st' & _ & _ & -> & _).
           ++ right. split; [split; [lia | exact Hal] | intros _; exact Hge].
           ++ exact Hd1.
           ++ reflexivity.
        -- rewrite (onto_decrypt_CS3_failure iv data d1 dE Hiv Hal Hge Hd1).
           destruct (length dE mod bsz =? 0)%nat; reflexivity.
    + pose proof (mode_not_CS3 m Hm Hne) as Hm'.
      destruct (length data) as [|n] eqn:Hn.
      * destruct data; [|discriminate].
        split; apply (onto_empty_plain _ iv m); auto.
      * rewrite <- Hn in *. split.
        -- destruct (onto_encrypt iv m data d1 dE Hiv Hm) as (c & st & st' & _ & _ & -> & _).
           ++ right. split; [split; [lia | exact Hal] | intros ->; contradiction].
           ++ exact Hd1.
           ++ reflexivity.
        -- destruct (onto_decrypt_aligned_total iv m data d1 dE Hiv Hm' Hal Hd1)
             as (p & st & st' & _ & _ & -> & _). reflexivity.
  - destruct (Nat.ltb_spec (length data) bsz) as [Hlt | Hge].
    + split; apply onto_short_unaligned; assumption.
    + assert (Hu : unaligned_length bsz (length data)).
      { split; [exact Hun|].
        destruct (Nat.eq_dec (length data) bsz) as [He | Hne']; [|lia].
        exfalso. apply Hun. rewrite He. apply Nat.Div0.mod_same. }
      replace ((m =? CS3) && false) with false by (destruct (m =? CS3); reflexivity).
      cbn [andb]. split.
      * destruct (onto_encrypt iv m data d1 dE Hiv Hm (or_introl Hu) Hd1)
          as (c & st & st' & _ & _ & -> & _). reflexivity.
      * destruct (onto_decrypt_unaligned_total iv m data d1 dE Hiv Hm Hu Hd1)
          as (p & st & st' & _ & _ & -> & _). reflexivity.
Qed.

(** C9.  Bytes produced against bytes consumed, measured on a destination
    [d0] that the caller holds, as long as the source or longer ([n] is the
    length of the source, of an accepted length).  The encoder writes the
    first [n] bytes of the destination, whatever they held, and leaves the
    rest as it was, under every policy.  So does the decoder when the
    destination is exactly as long as the source, and on aligned input
    under CS1 and CS2.  With a longer destination the decoder on unaligned
    input goes on writing: [copy(dst[py:], tmp)] (line 203) is bounded by
    the scratch buffer only, and up to [b - n mod b] bytes of the decrypted
    padding, all zero, land past the [n]th byte of the destination. *)
Theorem C9_bytes_produced iv m data d0 :
  length iv = bsz -> is_mode m ->
  accepted_length bsz m (length data) ->
  (length data <= length d0)%nat ->
  let n := length data in
  let k := Nat.min (length d0 - n) (bsz - n mod bsz) in
  (exists c st st',
     process_ (encrypter m) iv data = Ok c st /\ length c = n /\
     process_onto bsz encb decb (encrypter m) iv data d0 =
       Ok (c ++ drop n d0) st' /\
     civ st' = civ st) /\
  (length d0 = n \/ ((n mod bsz = 0)%nat /\ m <> CS3) ->
   exists p st st',
     process_ (decrypter m) iv data = Ok p st /\ length p = n /\
     process_onto bsz encb decb (decrypter m) iv data d0 =
       Ok (p ++ drop n d0) st' /\
     civ st' = civ st) /\
  (unaligned_length bsz n ->
   exists p st st',
     process_ (decrypter m) iv data = Ok p st /\ length p = n /\
     process_onto bsz encb decb (decrypter m) iv data d0 =
       Ok (p ++ Bytes.zeros k ++ drop (n + k) d0) st' /\
     civ st' = civ st).
Proof.
  intros Hiv Hm Hacc Hd0 n k.
  set (d1 := take n d0). set (dE := drop n d0).
  assert (Hd1 : length d1 = n) by (subst d1 n; rewrite length_take; lia).
  assert (HdE : length dE = (length d0 - n)%nat) by (subst dE; apply length_drop).
  assert (Hsplit : d0 = d1 ++ dE) by (subst d1 dE; symmetry; apply take_drop).
  assert (Hun : unaligned_length bsz n ->
    exists p st st',
      process_ (decrypter m) iv data = Ok p st /\ length p = n /\
      process_onto bsz encb decb (decrypter m) iv data d0 =
        Ok (p ++ Bytes.zeros k ++ drop (n + k) d0) st' /\
      civ st' = civ st).
  { intros Hu.
    destruct (onto_decrypt_unaligned_total iv m data d1 dE Hiv Hm Hu Hd1)
      as (p & st & st' & Hp & Hlp & Ho & Hc).
    exists p, st, st'. split; [exact Hp|]. split; [exact Hlp|]. split; [|exact Hc].
    rewrite Hsplit at 1. rewrite Ho. cbv zeta. rewrite HdE. fold n. fold k.
    rewrite <- drop_drop. reflexivity. }
  split; [|split].
  - destruct (onto_encrypt iv m data d1 dE Hiv Hm Hacc Hd1)
      as (c & st & st' & Hp & Hlc & Ho & Hc).
    exists c, st, st'. rewrite Hsplit at 1. auto.
  - intros [He | [Hal Hne]].
    + destruct Hacc as [Hu | [Ha H3]].
      * destruct (Hun Hu) as (p & st & st' & Hp & Hlp & Ho & Hc).
        exists p, st, st'. split; [exact Hp|]. split; [exact Hlp|].
        split; [|exact Hc]. rewrite Ho.
        replace k with 0%nat by (subst k; lia).
        rewrite Nat.add_0_r. reflexivity.
      * destruct (Z.eq_dec m CS3) as [-> | Hne].
        -- destruct Ha as [_ Hal].
           destruct (onto_decrypt_CS3_exact iv data d0 Hiv Hal (H3 eq_refl) He)
             as (p & st & st' & Hp & Hlp & Ho & Hc).
           exists p, st, st'. split; [exact Hp|]. split; [exact Hlp|].
           split; [|exact Hc]. rewrite Ho.
           fold dE. replace dE with (@nil byte); [rewrite app_nil_r; reflexivity|].
           symmetry. apply nil_length_inv. lia.
        -- destruct Ha as [_ Hal].
           destruct (onto_decrypt_aligned_total iv m data d1 dE Hiv
                       (mode_not_CS3 m Hm Hne) Hal Hd1)
             as (p & st & st' & Hp & Hlp & Ho & Hc).
           exists p, st, st'. rewrite Hsplit at 1. auto.
    + destruct (onto_decrypt_aligned_total iv m data d1 dE Hiv
                  (mode_not_CS3 m Hm Hne) Hal Hd1)
        as (p & st & st' & Hp & Hlp & Ho & Hc).
      exists p, st, st'. rewrite Hsplit at 1. auto.
  - exact Hun.
Qed.

End Cipher.

(** ** What the transform writes to *)

Section Footprint.

Variable bsz : nat.
Variable encb decb : list byte -> list byte.
Variables (L d : nat) (mem0 : list (list byte)).

Local Abbreviation framed_ := (framed L d mem0).
Local Abbreviation keeps_ := (keeps L d mem0).

Lemma keeps_store st s bs :
  targets L d s -> keeps_ st -> keeps_ (store st s bs).
Proof.
  intros Ht [Hl Hk]. split.
  - cbn [store mem]. rewrite length_alter. exact Hl.
  - intros a Ha Hne. cbn [store mem].
    rewrite list_lookup_alter_ne; [apply Hk; assumption|].
    destruct Ht as [-> | Hge]; [congruence | lia].
Qed.

Lemma keeps_civ st iv : keeps_ st -> keeps_ (State (mem st) iv).
Proof. intros H. exact H. Qed.

Lemma framed_bind {A B} (Q : A -> Prop) (R : B -> Prop) (m : M A) (k : A -> M B) :
  framed_ Q m -> (forall a, Q a -> framed_ R (k a)) -> framed_ R (bind m k).
Proof.
  intros Hm Hk st Hst. unfold bind. specialize (Hm st Hst).
  destruct (m st) as [a st' | e st'].
  - destruct Hm as [Hst' Ha]. exact (Hk a Ha st' Hst').
  - exact Hm.
Qed.

Lemma framed_weaken {A} (Q R : A -> Prop) (m : M A) :
  (forall a, Q a -> R a) -> framed_ Q m -> framed_ R m.
Proof.
  intros HQR Hm st Hst. specialize (Hm st Hst).
  destruct (m st); [destruct Hm; split; auto | exact Hm].
Qed.

Lemma framed_ret {A} (Q : A -> Prop) (a : A) : Q a -> framed_ Q (ret a).
Proof. intros Ha st Hst. split; assumption. Qed.

Lemma framed_panic {A} (Q : A -> Prop) e : framed_ Q (@panic A e).
Proof. intros st Hst. exact Hst. Qed.

Lemma framed_slice3_target s lo hi :
  targets L d s -> framed_ (targets L d) (slice3 s lo hi).
Proof.
  intros Ht st Hst. unfold slice3. destruct (_ && _); [|exact Hst].
  split; [exact Hst | exact Ht].
Qed.

Lemma framed_slice3_any s lo hi : framed_ (fun _ => True) (slice3 s lo hi).
Proof.
  intros st Hst. unfold slice3. destruct (_ && _); [|exact Hst].
  split; [exact Hst | exact I].
Qed.

Lemma framed_make n : framed_ (targets L d) (make n).
Proof.
  intros st [Hl Hk]. unfold make. destruct (n <? 0); [split; assumption|].
  split.
  - split.
    + cbn [mem]. rewrite length_app. lia.
    + intros a Ha Hne. cbn [mem]. rewrite lookup_app_l by lia. apply Hk; assumption.
  - right. cbn [arr]. exact Hl.
Qed.

Lemma framed_copy dst src :
  targets L d dst -> framed_ (fun _ => True) (copy dst src).
Proof.
  intros Ht st Hst. unfold copy. split; [|exact I].
  apply keeps_store; assumption.
Qed.

Lemma framed_index s i : framed_ (fun _ => True) (index s i).
Proof.
  intros st Hst. unfold index. destruct (_ && _); [split; [exact Hst | exact I] | exact Hst].
Qed.

Lemma framed_set_index s i v :
  targets L d s -> framed_ (fun _ => True) (set_index s i v).
Proof.
  intros Ht st Hst. unfold set_index. destruct (_ && _); [|exact Hst].
  split; [|exact I]. apply keeps_store; [|exact Hst].
  destruct Ht as [H | H]; [left | right]; exact H.
Qed.

Lemma framed_codec kind dst src :
  targets L d dst ->
  framed_ (fun _ => True) (codec_CryptBlocks bsz encb decb kind dst src).
Proof.
  intros Ht st Hst. unfold codec_CryptBlocks.
  destruct (negb _); [exact Hst|].
  destruct (_ <? _); [exact Hst|].
  destruct (inexact_overlap _ _); [exact Hst|].
  destruct (cbc _ _ _ _ _ _) as [out iv'].
  split; [|exact I].
  apply (keeps_civ (store st dst out)). apply keeps_store; assumption.
Qed.

Lemma framed_block dst src :
  targets L d dst ->
  framed_ (fun _ => True) (block_Decrypt bsz decb dst src).
Proof.
  intros Ht st Hst. unfold block_Decrypt.
  destruct (_ <? _); [exact Hst|].
  destruct (_ <? _); [exact Hst|].
  destruct (inexact_overlap _ _); [exact Hst|].
  split; [|exact I]. apply keeps_store; assumption.
Qed.

Lemma framed_for_up k : forall i body,
  (forall j, framed_ (fun _ => True) (body j)) ->
  framed_ (fun _ => True) (for_up k i body).
Proof.
  induction k as [|k IH]; intros i body Hb; cbn [for_up].
  - apply framed_ret. exact I.
  - apply (framed_bind (fun _ => True)); [apply Hb | intros _ _; apply IH; exact Hb].
Qed.

Ltac framed_step :=
  first
    [ apply framed_panic
    | apply framed_ret; first [ assumption | exact I ]
    | apply framed_slice3_target; assumption
    | apply framed_slice3_any
    | apply framed_make
    | apply framed_copy; assumption
    | apply framed_codec; assumption
    | apply framed_block; assumption
    | apply framed_index
    | apply framed_set_index; assumption
    | apply framed_for_up; intros ?
    | eapply framed_bind; [ | intros ? ? ]
    | match goal with
      | |- framed _ _ _ _ (if ?c then _ else _) => destruct c
      end ].

Ltac framed_run := unfold slice_to, slice_from, for_range; repeat framed_step.

Lemma framed_encode cd dst src :
  targets L d dst ->
  framed_ (fun _ => True) (encode bsz encb decb cd dst src).
Proof. intros Ht. unfold encode. framed_run. Qed.

Lemma framed_decode_scratch cd dst src :
  targets L d dst ->
  framed_ (targets L d) (decode_scratch bsz encb decb cd dst src).
Proof. intros Ht. unfold decode_scratch. framed_run. Qed.

Lemma framed_decode cd dst src :
  targets L d dst ->
  framed_ (fun _ => True) (decode bsz encb decb cd dst src).
Proof.
  intros Ht. unfold decode.
  destruct (_ =? 0).
  - framed_run.
  - eapply framed_bind; [apply framed_decode_scratch; exact Ht|].
    intros tmp Htmp. framed_run.
Qed.

End Footprint.

(** X11.  [CryptBlocks] writes to the array of its destination and to the
    scratch buffers it allocates, and to nothing else: whatever the
    instance, the windows and the state, and whether the call returns or
    panics, every array that existed before the call, other than the one
    under [dst], holds afterwards what it held before, and no array is
    dropped.  In particular a source in another array is left as it was. *)
Theorem CryptBlocks_writes_only_dst bsz encb decb cd dst src st :
  let st' := end_state (CryptBlocks bsz encb decb cd dst src st) in
  (length (mem st) <= length (mem st'))%nat /\
  forall a, (a < length (mem st))%nat -> a <> arr dst ->
    mem st' !! a = mem st !! a.
Proof.
  intros st'.
  assert (Ht : targets (length (mem st)) (arr dst) dst) by (left; reflexivity).
  assert (Hk : keeps (length (mem st)) (arr dst) (mem st) st)
    by (split; [lia | intros; reflexivity]).
  assert (Hf : framed (length (mem st)) (arr dst) (mem st) (fun _ => True)
                 (CryptBlocks bsz encb decb cd dst src)).
  { unfold CryptBlocks. destruct (encoder cd);
      [apply framed_encode | apply framed_decode]; exact Ht. }
  specialize (Hf st Hk). subst st'.
  destruct (CryptBlocks bsz encb decb cd dst src st) as [u s1 | e s1];
    cbn [end_state]; [destruct Hf as [Hf _]|]; exact Hf.
Qed.

(** ** Panics a constructed instance cannot raise *)

Section Reach.

Variable bsz : nat.
Variable encb decb : list byte -> list byte.

Local Abbreviation safe := (never_raises ErrInvalidMode).

Lemma nr_bind {A B} e (m : M A) (k : A -> M B) :
  never_raises e m -> (forall a, never_raises e (k a)) ->
  never_raises e (bind m k).
Proof.
  intros Hm Hk st st'. unfold bind. specialize (Hm st).
  destruct (m st) as [a s1 | e1 s1]; [apply Hk|].
  intros E. apply (Hm st'). congruence.
Qed.

Lemma nr_ret {A} e (a : A) : never_raises e (ret a).
Proof. intros st st'. discriminate. Qed.

Lemma nr_slice3 s lo hi : safe (slice3 s lo hi).
Proof. intros st st'. unfold slice3. destruct (_ && _); discriminate. Qed.

Lemma nr_make n : safe (make n).
Proof. intros st st'. unfold make. destruct (_ <? _); discriminate. Qed.

Lemma nr_copy dst src : safe (copy dst src).
Proof. intros st st'. discriminate. Qed.

Lemma nr_index s i : safe (index s i).
Proof. intros st st'. unfold index. destruct (_ && _); discriminate. Qed.

Lemma nr_set_index s i v : safe (set_index s i v).
Proof. intros st st'. unfold set_index. destruct (_ && _); discriminate. Qed.

Lemma nr_codec kind dst src : safe (codec_CryptBlocks bsz encb decb kind dst src).
Proof.
  intros st st'. unfold codec_CryptBlocks.
  destruct (negb _); [discriminate|].
  destruct (_ <? _); [discriminate|].
  destruct (inexact_overlap _ _); [discriminate|].
  destruct (cbc _ _ _ _ _ _). discriminate.
Qed.

Lemma nr_block dst src : safe (block_Decrypt bsz decb dst src).
Proof.
  intros st st'. unfold block_Decrypt.
  destruct (_ <? _); [discriminate|].
  destruct (_ <? _); [discriminate|].
  destruct (inexact_overlap _ _); discriminate.
Qed.

Lemma nr_for_up e k : forall i body,
  (forall j, never_raises e (body j)) -> never_raises e (for_up k i body).
Proof.
  induction k as [|k IH]; intros i body Hb; cbn [for_up].
  - apply nr_ret.
  - apply nr_bind; [apply Hb | intros _; apply IH; exact Hb].
Qed.

Lemma nr_data_size {A} : safe (@panic A ErrDataSize).
Proof. intros st st'. discriminate. Qed.

Ltac nr_step :=
  first
    [ apply nr_ret
    | apply nr_data_size
    | apply nr_slice3
    | apply nr_make
    | apply nr_copy
    | apply nr_codec
    | apply nr_block
    | apply nr_index
    | apply nr_set_index
    | apply nr_for_up; intros ?
    | apply nr_bind; [ | intros ? ]
    | match goal with
      | |- never_raises _ (if ?c then _ else _) => destruct c
      end ].

Ltac nr_mode Hm :=
  rewrite Hm;
  change (CS1 =? CS1) with true; change (CS1 =? CS2) with false;
  change (CS1 =? CS3) with false; change (CS2 =? CS1) with false;
  change (CS2 =? CS2) with true; change (CS2 =? CS3) with false;
  change (CS3 =? CS1) with false; change (CS3 =? CS2) with false;
  change (CS3 =? CS3) with true; cbn [orb].

Ltac nr_run :=
  unfold slice_to, slice_from, for_range; repeat nr_step.

Lemma nr_encode cd dst src :
  is_mode (mode cd) -> safe (encode bsz encb decb cd dst src).
Proof.
  intros [Hm | [Hm | Hm]]; unfold encode; nr_mode Hm; nr_run.
Qed.

Lemma nr_decode cd dst src :
  is_mode (mode cd) -> safe (decode bsz encb decb cd dst src).
Proof.
  intros [Hm | [Hm | Hm]]; unfold decode, decode_scratch; nr_mode Hm; nr_run.
Qed.

Lemma constructed cd iv m st st1 :
  NewCBCCTSEncrypter bsz iv m st = Ok cd st1 \/
  NewCBCCTSDecrypter bsz iv m st = Ok cd st1 ->
  is_mode m /\ mode cd = m /\ length iv = bsz /\
  st1 = State (mem st) iv /\
  (cd = encrypter m \/ cd = decrypter m).
Proof.
  unfold NewCBCCTSEncrypter, NewCBCCTSDecrypter, encrypter, decrypter.
  intros H.
  destruct ((m <? CS1) || (m >? CS3)) eqn:Hr;
    [destruct H as [H | H]; discriminate H|].
  destruct (negb (length iv =? bsz)%nat) eqn:Hl;
    [destruct H as [H | H]; discriminate H|].
  apply orb_false_iff in Hr. destruct Hr as [H1 H3].
  apply Z.ltb_ge in H1. rewrite Z.gtb_ltb in H3. apply Z.ltb_ge in H3.
  apply negb_false_iff, Nat.eqb_eq in Hl.
  assert (Hm : is_mode m) by (unfold is_mode, CS1, CS2, CS3 in *; lia).
  destruct H as [H | H]; injection H as <- <-; cbn [mode];
    repeat split; auto.
Qed.

(** X12.  The constructors and the [default:] branches (lines 44-67, 103,
    161, 189).  A constructor returns an instance exactly when the mode is
    one of the three policies and the IV has the length of a block; it then
    touches no memory and starts the chain at the IV.  On an instance that
    a constructor returned, [CryptBlocks] never raises the invalid-mode
    panic, whatever the windows and the state: the [default:] branches of
    [encode] and [decode] are dead for every caller of the package. *)
Theorem constructed_never_invalid_mode iv m st :
  ((exists cd st1, NewCBCCTSEncrypter bsz iv m st = Ok cd st1) <->
     is_mode m /\ length iv = bsz) /\
  ((exists cd st1, NewCBCCTSDecrypter bsz iv m st = Ok cd st1) <->
     is_mode m /\ length iv = bsz) /\
  forall cd st1,
    NewCBCCTSEncrypter bsz iv m st = Ok cd st1 \/
    NewCBCCTSDecrypter bsz iv m st = Ok cd st1 ->
    mem st1 = mem st /\ civ st1 = iv /\
    forall dst src,
      never_raises ErrInvalidMode (CryptBlocks bsz encb decb cd dst src).
Proof.
  assert (Hok : is_mode m -> length iv = bsz ->
                (m <? CS1) || (m >? CS3) = false /\
                negb (length iv =? bsz)%nat = false).
  { intros Hm Hl. split.
    - destruct Hm as [-> | [-> | ->]]; reflexivity.
    - apply negb_false_iff, Nat.eqb_eq. exact Hl. }
  split; [|split].
  - split.
    + intros (cd & st1 & H).
      destruct (constructed cd iv m st st1 (or_introl H)) as (Hm & _ & Hl & _).
      split; assumption.
    + intros [Hm Hl]. destruct (Hok Hm Hl) as [H1 H2].
      unfold NewCBCCTSEncrypter. rewrite H1, H2. eauto.
  - split.
    + intros (cd & st1 & H).
      destruct (constructed cd iv m st st1 (or_intror H)) as (Hm & _ & Hl & _).
      split; assumption.
    + intros [Hm Hl]. destruct (Hok Hm Hl) as [H1 H2].
      unfold NewCBCCTSDecrypter. rewrite H1, H2. eauto.
  - intros cd st1 H.
    destruct (constructed cd iv m st st1 H) as (Hm & Hcd & Hl & -> & _).
    split; [reflexivity | split; [reflexivity|]].
    intros dst src. rewrite <- Hcd in Hm. unfold CryptBlocks.
    destruct (encoder cd); [apply nr_encode | apply nr_decode]; exact Hm.
Qed.

End Reach.

(** ** The code run on the small cipher *)

Module ToyFacts.

Lemma toy_bsz_pos : (0 < Toy.bsz)%nat.
Proof. unfold Toy.bsz. lia. Qed.

Lemma toy_encb_length x : length x = Toy.bsz -> length (Toy.encb x) = Toy.bsz.
Proof.
  intros H. unfold Toy.encb. rewrite length_reverse, length_map. exact H.
Qed.

Lemma toy_decb_length x : length x = Toy.bsz -> length (Toy.decb x) = Toy.bsz.
Proof.
  intros H. unfold Toy.decb. rewrite length_map, length_reverse. exact H.
Qed.

Lemma toy_decb_encb x : length x = Toy.bsz -> Toy.decb (Toy.encb x) = x.
Proof.
  intros _. unfold Toy.decb, Toy.encb.
  rewrite reverse_involutive, map_map.
  induction x as [|a x IH]; [reflexivity|].
  cbn [map]. rewrite xor_cancel_l, IH. reflexivity.
Qed.

End ToyFacts.

(** C1, witness: the round trip of five bytes under CS3. *)
Lemma C1_witness :
  round_trip Toy.bsz Toy.encb Toy.decb Toy.iv CS3 Toy.five_bytes.
Proof.
  apply (C1_round_trip Toy.bsz Toy.encb Toy.decb ToyFacts.toy_bsz_pos
           ToyFacts.toy_encb_length ToyFacts.toy_decb_length ToyFacts.toy_decb_encb).
  - reflexivity.
  - right; right; reflexivity.
  - left. split; vm_compute; [discriminate | lia].
Defined.

(** C1, counterexample to the claim as stated: one block is a positive
    multiple of the block size, and under CS3 the encoder does not return on
    it, so there is nothing to decode. *)
Lemma C1_counterexample :
  length Toy.iv = Toy.bsz /\ is_mode CS3 /\
  stated_length Toy.bsz (length Toy.one_block) /\
  ~ round_trip Toy.bsz Toy.encb Toy.decb Toy.iv CS3 Toy.one_block.
Proof.
  split; [reflexivity|]. split; [right; right; reflexivity|]. split.
  - right. split; vm_compute; [lia | reflexivity].
  - intros (c & He & _). vm_compute in He. discriminate.
Qed.

(** C2.  In place, the CS3 decoder on aligned input overwrites the block it
    still has to move: on two blocks the output differs from the output
    into a separate buffer. *)
Theorem C2_inplace_decode_CS3_differs :
  value (Toy.process (decrypter CS3) Toy.iv Toy.two_blocks)
    = Some [x4e; x79; x5b; x5f] /\
  value (Toy.process_inplace (decrypter CS3) Toy.iv Toy.two_blocks)
    = Some [x4e; x79; x5d; x5d].
Proof. split; vm_compute; reflexivity. Qed.

(** C3, witness: one block of the small cipher under CS3. *)
Lemma C3_witness :
  failure (Toy.process (encrypter CS3) Toy.iv Toy.one_block) = Some ErrBounds /\
  failure (Toy.process (decrypter CS3) Toy.iv Toy.one_block) = Some ErrBounds.
Proof.
  destruct (C3_CS3_single_block Toy.bsz Toy.encb Toy.decb ToyFacts.toy_bsz_pos
              ToyFacts.toy_encb_length Toy.iv Toy.one_block) as [He Hd].
  - reflexivity.
  - vm_compute. lia.
  - reflexivity.
  - unfold Toy.process. rewrite He, Hd. split; reflexivity.
Defined.

(** C4, witness: two blocks, then five bytes, under CS1. *)
Lemma C4_witness :
  continues Toy.bsz Toy.encb Toy.decb (encrypter CS1)
    Toy.iv Toy.two_blocks Toy.five_bytes /\
  continues Toy.bsz Toy.encb Toy.decb (decrypter CS1)
    Toy.iv Toy.two_blocks Toy.five_bytes.
Proof.
  apply (C4_streaming_continuation Toy.bsz Toy.encb Toy.decb ToyFacts.toy_bsz_pos
           ToyFacts.toy_encb_length ToyFacts.toy_decb_length).
  - reflexivity.
  - left; reflexivity.
  - split; vm_compute; [lia | reflexivity].
  - left. split; vm_compute; [discriminate | lia].
Defined.

(** C4, counterexample to the claim as stated: under CS3 the run on the
    aligned prefix exchanges its last two blocks, which the run on the whole
    input leaves in place. *)
Lemma C4_counterexample :
  is_mode CS3 /\
  aligned_length Toy.bsz (length Toy.two_blocks) /\
  accepted_length Toy.bsz CS3 (length Toy.next_blocks) /\
  accepted_length Toy.bsz CS3 (length (Toy.two_blocks ++ Toy.next_blocks)) /\
  ~ continues Toy.bsz Toy.encb Toy.decb (encrypter CS3)
      Toy.iv Toy.two_blocks Toy.next_blocks.
Proof.
  split; [right; right; reflexivity|].
  split; [split; vm_compute; [lia | reflexivity]|].
  split; [right; split; [split; vm_compute; [lia | reflexivity] | vm_compute; lia]|].
  split; [right; split; [split; vm_compute; [lia | reflexivity] | vm_compute; lia]|].
  intros (o1 & st1 & o2 & st2 & st & H1 & H2 & H3 & _).
  vm_compute in H1. injection H1 as <- <-.
  vm_compute in H2. injection H2 as <- <-.
  vm_compute in H3. discriminate.
Qed.

(** C6, witness: two blocks of the small cipher. *)
Lemma C6_witness :
  Toy.process (encrypter CS1) Toy.iv Toy.two_blocks =
    plain_cbc_encrypt Toy.bsz Toy.encb Toy.decb Toy.iv Toy.two_blocks /\
  Toy.process (encrypter CS2) Toy.iv Toy.two_blocks =
    plain_cbc_encrypt Toy.bsz Toy.encb Toy.decb Toy.iv Toy.two_blocks /\
  exists c,
    value (plain_cbc_encrypt Toy.bsz Toy.encb Toy.decb Toy.iv Toy.two_blocks)
      = Some c /\
    value (Toy.process (encrypter CS3) Toy.iv Toy.two_blocks)
      = Some (swap_last_two Toy.bsz c).
Proof.
  apply (C6_plain_cbc_on_aligned Toy.bsz Toy.encb Toy.decb ToyFacts.toy_bsz_pos
           ToyFacts.toy_encb_length).
  - reflexivity.
  - reflexivity.
  - vm_compute. lia.
Defined.

(** C7, witness: a source of one byte, and a source of five bytes. *)
Lemma C7_witness :
  CryptBlocks Toy.bsz Toy.encb Toy.decb (encrypter CS1)
    (Slice 1 0 1 1) (Slice 0 0 1 1) (State [[x01]; [x00]] Toy.iv)
  = Panic ErrDataSize (State [[x01]; [x00]] Toy.iv) /\
  forall st',
    CryptBlocks Toy.bsz Toy.encb Toy.decb (decrypter CS3)
      (Slice 1 0 5 5) (Slice 0 0 5 5)
      (State [Toy.five_bytes; Bytes.zeros 5] Toy.iv)
    <> Panic ErrDataSize st'.
Proof.
  split.
  - apply (C7_minimum_size Toy.bsz Toy.encb Toy.decb ToyFacts.toy_bsz_pos
             (encrypter CS1) (Slice 1 0 1 1) (Slice 0 0 1 1)).
    + vm_compute. discriminate.
    + vm_compute. lia.
  - apply (C7_minimum_size Toy.bsz Toy.encb Toy.decb ToyFacts.toy_bsz_pos
             (decrypter CS3) (Slice 1 0 5 5) (Slice 0 0 5 5)).
    + vm_compute. discriminate.
    + vm_compute. lia.
Defined.

(** C8, witness: five bytes under CS3, one block before the last full
    block. *)
Lemma C8_witness :
  exists c st tmp st',
    Toy.process (encrypter CS3) Toy.iv ([x01; x02] ++ [x03; x04] ++ [x05])
      = Ok c st /\
    scratch_before_final Toy.bsz Toy.encb Toy.decb (decrypter CS3) Toy.iv c
      = Ok tmp st' /\
    take Toy.bsz tmp =
      Toy.encb (Bytes.xorBytes [x03; x04]
                  (cbc_encrypt Toy.bsz Toy.encb 1 Toy.iv [x01; x02]).2).
Proof.
  destruct (C8_stolen_bytes_recovered Toy.bsz Toy.encb Toy.decb
              ToyFacts.toy_bsz_pos ToyFacts.toy_encb_length ToyFacts.toy_decb_length
              ToyFacts.toy_decb_encb Toy.iv CS3 [x01; x02] [x03; x04] [x05] 1 1)
    as (c & st & tmp & st' & H1 & H2 & _ & _ & _ & _ & H3).
  - reflexivity.
  - right; right; reflexivity.
  - reflexivity.
  - reflexivity.
  - reflexivity.
  - vm_compute. lia.
  - exists c, st, tmp, st'. split; [exact H1|]. split; [exact H2 | exact H3].
Defined.

(** C9, witness: five bytes under CS1 onto a destination of seven bytes
    [ff].  The encoder leaves the last two as they were; the decoder
    overwrites the sixth with a zero. *)
Lemma C9_witness :
  value (process_onto Toy.bsz Toy.encb Toy.decb (encrypter CS1) Toy.iv
           Toy.five_bytes (replicate 7 xff))
    = Some [x78; x4b; x15; x7b; x4a; xff; xff] /\
  value (process_onto Toy.bsz Toy.encb Toy.decb (decrypter CS1) Toy.iv
           [x78; x4b; x15; x7b; x4a] (replicate 7 xff))
    = Some [x01; x02; x03; x04; x05; x00; xff].
Proof.
  split.
  - destruct (C9_bytes_produced Toy.bsz Toy.encb Toy.decb ToyFacts.toy_bsz_pos
                ToyFacts.toy_encb_length ToyFacts.toy_decb_length
                Toy.iv CS1 Toy.five_bytes (replicate 7 xff))
      as ((c & st & st' & Hp & _ & Ho & _) & _).
    + reflexivity.
    + left; reflexivity.
    + left. split; vm_compute; [discriminate | lia].
    + vm_compute. lia.
    + rewrite Ho. vm_compute in Hp. injection Hp as <- _. reflexivity.
  - destruct (C9_bytes_produced Toy.bsz Toy.encb Toy.decb ToyFacts.toy_bsz_pos
                ToyFacts.toy_encb_length ToyFacts.toy_decb_length
                Toy.iv CS1 [x78; x4b; x15; x7b; x4a] (replicate 7 xff))
      as (_ & _ & Hu).
    + reflexivity.
    + left; reflexivity.
    + left. split; vm_compute; [discriminate | lia].
    + vm_compute. lia.
    + destruct Hu as (p & st & st' & Hp & _ & Ho & _).
      * split; vm_compute; [discriminate | lia].
      * rewrite Ho. vm_compute in Hp. injection Hp as <- _. reflexivity.
Defined.

(** C10, witness: the empty input under CS2 with the small cipher. *)
Lemma C10_witness :
  Toy.process (encrypter CS2) Toy.iv [] = Ok [] (State [[]; []] Toy.iv) /\
  Toy.process (decrypter CS2) Toy.iv [] = Ok [] (State [[]; []] Toy.iv).
Proof.
  apply (C10_empty_input Toy.bsz Toy.encb Toy.decb ToyFacts.toy_bsz_pos Toy.iv CS2).
  right; reflexivity.
Defined.


(** ** The further properties on the small cipher *)

(** X1, witness: five bytes under CS3, in place and into a fresh buffer. *)
Lemma X1_witness :
  exists out st st',
    Toy.process (encrypter CS3) Toy.iv Toy.five_bytes = Ok out st /\
    Toy.process_inplace (encrypter CS3) Toy.iv Toy.five_bytes = Ok out st' /\
    civ st = civ st'.
Proof.
  apply (inplace_agrees_encrypt Toy.bsz Toy.encb Toy.decb ToyFacts.toy_bsz_pos
           ToyFacts.toy_encb_length).
  - reflexivity.
  - right; right; reflexivity.
  - left. split; vm_compute; [discriminate | lia].
Defined.

(** X2, witness: two blocks under CS2, in place and into a fresh buffer. *)
Lemma X2_witness :
  exists out st st',
    Toy.process (decrypter CS2) Toy.iv Toy.two_blocks = Ok out st /\
    Toy.process_inplace (decrypter CS2) Toy.iv Toy.two_blocks = Ok out st' /\
    civ st = civ st'.
Proof.
  apply (inplace_agrees_decrypt Toy.bsz Toy.encb Toy.decb ToyFacts.toy_bsz_pos
           ToyFacts.toy_decb_length).
  - reflexivity.
  - right; left; reflexivity.
  - right. split; [split; vm_compute; [lia | reflexivity] | discriminate].
Defined.

(** X3, witness: two blocks under CS3, nothing before them. *)
Lemma X3_witness :
  value (Toy.process (decrypter CS3) Toy.iv ([] ++ [x01; x02] ++ [x03; x04])) =
    Some (cbc_decrypt Toy.bsz Toy.decb (0 + 2) Toy.iv
            ([] ++ [x03; x04] ++ [x01; x02])).1 /\
  value (Toy.process_inplace (decrypter CS3) Toy.iv
           ([] ++ [x01; x02] ++ [x03; x04])) =
    Some (cbc_decrypt Toy.bsz Toy.decb (0 + 2) Toy.iv
            ([] ++ [x03; x04] ++ [x03; x04])).1.
Proof.
  apply (inplace_differs_decrypt_CS3 Toy.bsz Toy.encb Toy.decb
           ToyFacts.toy_bsz_pos ToyFacts.toy_decb_length
           Toy.iv [] [x01; x02] [x03; x04] 0); reflexivity.
Defined.

(** X4, witness: two blocks under CS3 onto a destination of five bytes: the
    encoder returns, the decoder panics in the codec. *)
Lemma X4_witness :
  failure (process_onto Toy.bsz Toy.encb Toy.decb (encrypter CS3) Toy.iv
             Toy.two_blocks (replicate 5 xff))
    = expected_failure Toy.bsz CS3 (length Toy.two_blocks) /\
  failure (process_onto Toy.bsz Toy.encb Toy.decb (decrypter CS3) Toy.iv
             Toy.two_blocks (replicate 5 xff))
    = expected_failure_decode Toy.bsz CS3 (length Toy.two_blocks)
        (length (replicate 5 xff)).
Proof.
  apply (outcome_by_length Toy.bsz Toy.encb Toy.decb ToyFacts.toy_bsz_pos
           ToyFacts.toy_encb_length ToyFacts.toy_decb_length).
  - reflexivity.
  - right; right; reflexivity.
  - vm_compute. lia.
Defined.

(** X5, witness: two blocks, then five bytes, through one pair of CS3
    instances. *)
Lemma X5_witness :
  exists cs chain,
    session Toy.bsz Toy.encb Toy.decb (encrypter CS3) Toy.iv
      [Toy.two_blocks; Toy.five_bytes] = Some (cs, chain) /\
    session Toy.bsz Toy.encb Toy.decb (decrypter CS3) Toy.iv cs
      = Some ([Toy.two_blocks; Toy.five_bytes], chain).
Proof.
  apply (session_round_trip Toy.bsz Toy.encb Toy.decb ToyFacts.toy_bsz_pos
           ToyFacts.toy_encb_length ToyFacts.toy_decb_length
           ToyFacts.toy_decb_encb).
  - reflexivity.
  - right; right; reflexivity.
  - constructor; [|constructor; [|constructor]].
    + right. split; [split; vm_compute; [lia | reflexivity] | intros _; vm_compute; lia].
    + left. split; vm_compute; [discriminate | lia].
Defined.

(** X6, witness: five bytes from a CS2 encrypter to a CS3 decrypter. *)
Lemma X6_witness :
  cross_round_trip Toy.bsz Toy.encb Toy.decb Toy.iv CS2 CS3 Toy.five_bytes.
Proof.
  apply (cross_policy_round_trip Toy.bsz Toy.encb Toy.decb ToyFacts.toy_bsz_pos
           ToyFacts.toy_encb_length ToyFacts.toy_decb_length
           ToyFacts.toy_decb_encb).
  - reflexivity.
  - right. split; [left; reflexivity|]. split; [right; reflexivity|].
    split; vm_compute; [discriminate | lia].
Defined.

(** X7, witness: two blocks between plain chaining and CS1. *)
Lemma X7_witness :
  (exists c,
     value (plain_cbc_encrypt Toy.bsz Toy.encb Toy.decb Toy.iv Toy.two_blocks)
       = Some c /\
     value (decrypt_fresh Toy.bsz Toy.encb Toy.decb Toy.iv CS1 c)
       = Some Toy.two_blocks) /\
  (exists c,
     value (encrypt_fresh Toy.bsz Toy.encb Toy.decb Toy.iv CS1 Toy.two_blocks)
       = Some c /\
     value (plain_cbc_decrypt Toy.bsz Toy.encb Toy.decb Toy.iv c)
       = Some Toy.two_blocks).
Proof.
  apply (plain_cbc_round_trip Toy.bsz Toy.encb Toy.decb ToyFacts.toy_bsz_pos
           ToyFacts.toy_encb_length ToyFacts.toy_decb_length
           ToyFacts.toy_decb_encb).
  - reflexivity.
  - left; reflexivity.
  - split; vm_compute; [lia | reflexivity].
Defined.

(** X8, witness: the two blocks of the small cipher chain to 78 4b 15 21,
    whose blocks differ. *)
Lemma X8_witness :
  (cross_round_trip Toy.bsz Toy.encb Toy.decb Toy.iv CS3 CS1 Toy.two_blocks <->
     swap_last_two Toy.bsz [x78; x4b; x15; x21] = [x78; x4b; x15; x21]) /\
  (cross_round_trip Toy.bsz Toy.encb Toy.decb Toy.iv CS1 CS3 Toy.two_blocks <->
     swap_last_two Toy.bsz [x78; x4b; x15; x21] = [x78; x4b; x15; x21]).
Proof.
  apply (CS3_interop_on_aligned Toy.bsz Toy.encb Toy.decb ToyFacts.toy_bsz_pos
           ToyFacts.toy_encb_length ToyFacts.toy_decb_length
           ToyFacts.toy_decb_encb).
  - reflexivity.
  - left; reflexivity.
  - reflexivity.
  - vm_compute. lia.
  - reflexivity.
Defined.

(** X9, witness: five bytes under CS1, against the chaining of six. *)
Lemma X9_witness :
  exists C st st',
    plain_cbc_encrypt Toy.bsz Toy.encb Toy.decb Toy.iv
      (Toy.five_bytes ++ Bytes.zeros (Toy.bsz - 1)) = Ok C st /\
    Toy.process (encrypter CS1) Toy.iv Toy.five_bytes =
      Ok (take (1 * Toy.bsz) C
          ++ tail_layout CS1 (take 1 (drop (1 * Toy.bsz) C))
                             (drop (1 * Toy.bsz + Toy.bsz) C)) st' /\
    civ st' = civ st.
Proof.
  apply (encode_is_cut_padded_cbc Toy.bsz Toy.encb Toy.decb ToyFacts.toy_bsz_pos
           ToyFacts.toy_encb_length Toy.iv CS1 Toy.five_bytes 1 1).
  - reflexivity.
  - left; reflexivity.
  - reflexivity.
  - vm_compute. lia.
Defined.

(** X10, witness: two blocks into a destination one byte longer, and two
    bytes longer. *)
Lemma X10_witness :
  failure (process_into Toy.bsz Toy.encb Toy.decb (decrypter CS3)
             Toy.iv Toy.two_blocks 1) = Some ErrNotFullBlocks /\
  exists p st out st',
    Toy.process (decrypter CS3) Toy.iv Toy.two_blocks = Ok p st /\
    process_into Toy.bsz Toy.encb Toy.decb (decrypter CS3)
      Toy.iv Toy.two_blocks 2 = Ok out st' /\
    take (length Toy.two_blocks) out = p /\
    length out = (length Toy.two_blocks + 2)%nat /\
    civ st = take Toy.bsz (drop (0 * Toy.bsz) Toy.two_blocks) /\
    civ st' = Bytes.zeros Toy.bsz.
Proof.
  split.
  - apply (decode_into_longer_destination Toy.bsz Toy.encb Toy.decb
             ToyFacts.toy_bsz_pos ToyFacts.toy_decb_length
             Toy.iv Toy.two_blocks 0 1).
    + reflexivity.
    + reflexivity.
    + lia.
    + vm_compute. discriminate.
  - apply (decode_into_longer_destination Toy.bsz Toy.encb Toy.decb
             ToyFacts.toy_bsz_pos ToyFacts.toy_decb_length
             Toy.iv Toy.two_blocks 0 2).
    + reflexivity.
    + reflexivity.
    + lia.
    + reflexivity.
Defined.
